(** * Text normaliser, chunker, WAV encoder and generation pipeline of the
    TTS reader, embedded in Rocq.

    JavaScript strings are sequences of UTF-16 code units; every regular
    expression of the service file is written without the [u] flag, so it
    works code unit by code unit.  A string is therefore a [list Z] of code
    units, and [String.length] is the length of the list. *)

From Stdlib Require Import ZArith QArith Qabs Qround Lia List Bool String Ascii.
From stdpp Require Import base option list.
Import ListNotations.

Local Open Scope Z_scope.

(** ** JavaScript strings *)

Module JS.

Definition str := list Z.

(** ASCII literals, for readable examples. *)
Fixpoint lit (s : string) : str :=
  match s with
  | EmptyString => []
  | String a s' => Z.of_nat (nat_of_ascii a) :: lit s'
  end.
Arguments lit s%_string.

(** [\s] of ECMAScript regular expressions, which is also the set that
    [String.prototype.trim] strips: WhiteSpace and LineTerminator. *)
Definition is_ws (c : Z) : bool :=
  (9 <=? c) && (c <=? 13)
  || (c =? 32) || (c =? 160) || (c =? 5760)
  || (8192 <=? c) && (c <=? 8202)
  || (c =? 8232) || (c =? 8233) || (c =? 8239) || (c =? 8287)
  || (c =? 12288) || (c =? 65279).

Fixpoint trimStart (s : str) : str :=
  match s with
  | [] => []
  | c :: s' => if is_ws c then trimStart s' else s
  end.

Fixpoint trimEnd (s : str) : str :=
  match s with
  | [] => []
  | c :: s' =>
      match trimEnd s' with
      | [] => if is_ws c then [] else [c]
      | t => c :: t
      end
  end.

(** [s.trim()] *)
Definition trim (s : str) : str := trimEnd (trimStart s).

(** A string in a boolean context: the empty string is falsy. *)
Definition truthy (s : str) : bool :=
  match s with [] => false | _ => true end.

(** [s.substring(0, n)] for a non-negative integer [n]. *)
Definition substring0 (n : nat) (s : str) : str := take n s.

(** [s.replace(/[class]/g, empty)]: every unit of the class is removed. *)
Definition remove_class (cls : Z -> bool) (s : str) : str :=
  List.filter (fun c => negb (cls c)) s.

(** [s.replace(/[class]/g, r)] for a one-unit replacement [r]. *)
Definition replace_class (cls : Z -> bool) (r : Z) (s : str) : str :=
  List.map (fun c => if cls c then r else c) s.

(** [s.replace(/p([^\s]|$)/g, p SPACE $1)] when [at_end] is true and
    [s.replace(/p([^\s])/g, p SPACE $1)] when it is false, for a literal
    code unit [p].  A match consumes [p] and the unit captured after it, so the
    scan resumes behind the captured unit: a captured [p] is not itself
    examined. *)
Fixpoint space_after (at_end : bool) (p : Z) (s : str) : str :=
  match s with
  | [] => []
  | c :: rest =>
      if c =? p then
        match rest with
        | [] => if at_end then [p; 32] else [c]
        | d :: rest' =>
            if is_ws d then c :: space_after at_end p rest
            else p :: 32 :: d :: space_after at_end p rest'
        end
      else c :: space_after at_end p rest
  end.

(** [s.replace(/c{k,}/g, r)]: the quantifier is greedy, so a match started
    on a run of [c] takes the whole run.  [n] counts the units of the run
    read so far; the run is flushed when it ends, as [r] when it has [k]
    units or more and unchanged otherwise. *)
Definition flush_run (c : Z) (k : nat) (r : str) (n : nat) : str :=
  if (k <=? n)%nat then r else replicate n c.

Fixpoint collapse_go (c : Z) (k : nat) (r : str) (n : nat) (s : str) : str :=
  match s with
  | [] => flush_run c k r n
  | d :: s' =>
      if d =? c then collapse_go c k r (S n) s'
      else flush_run c k r n ++ d :: collapse_go c k r O s'
  end.

Definition collapse_runs (c : Z) (k : nat) (r : str) (s : str) : str :=
  collapse_go c k r O s.

(** [s.split(/([.\n?!])\s*/)]: the pieces between matches, with the
    captured delimiter spliced in after each piece as an element of its
    own.  [skip] is true while the scan is inside the [\s*] of the last
    match, [cur] is the piece being read.  The expression cannot match the
    empty string, so the empty input gives the array whose one element is the empty
    string. *)
Definition is_delim (c : Z) : bool :=
  (c =? 46) || (c =? 10) || (c =? 63) || (c =? 33).

Fixpoint split_go (skip : bool) (cur : str) (s : str) : list str :=
  match s with
  | [] => [cur]
  | c :: s' =>
      if skip && is_ws c then split_go true cur s'
      else if is_delim c then cur :: [c] :: split_go true [] s'
      else split_go false (cur ++ [c]) s'
  end.

Definition split_delims (s : str) : list str := split_go false [] s.

End JS.

Import JS.

(** ** The normaliser: [cleanTextForTTS] *)

Definition is_control (c : Z) : bool :=
  (0 <=? c) && (c <=? 31) || (127 <=? c) && (c <=? 159).

(** The decorative glyphs of the second replacement, in source order. *)
Definition glyphs : list Z :=
  [8251; 9654; 9635; 9672; 9670; 9655; 9632; 9633; 9675; 9679; 9678; 9671;
   9661; 9660; 9650; 9651; 9664; 9665].

Definition is_glyph (c : Z) : bool := existsb (Z.eqb c) glyphs.

(** QUOTATION MARK, FULLWIDTH QUOTATION MARK and DOUBLE LOW-9 QUOTATION
    MARK. *)
Definition is_dquote (c : Z) : bool := (c =? 34) || (c =? 65282) || (c =? 8222).

(** APOSTROPHE and the two curly single quotes. *)
Definition is_squote (c : Z) : bool := (c =? 39) || (c =? 8216) || (c =? 8217).

Definition dot : Z := 46.
Definition qmark : Z := 63.
Definition bang : Z := 33.
Definition comma : Z := 44.
Definition newline : Z := 10.

Definition cleanTextForTTS (text : str) : str :=
  let t := remove_class is_control text in
  let t := replace_class is_glyph 32 t in
  let t := space_after true dot t in
  let t := space_after true qmark t in
  let t := space_after true bang t in
  let t := space_after false comma t in
  let t := collapse_runs newline 3 [newline; newline] t in
  let t := collapse_runs bang 3 [bang; bang] t in
  let t := collapse_runs qmark 3 [qmark; qmark] t in
  let t := collapse_runs dot 4 [dot; dot; dot] t in
  let t := replace_class is_dquote 34 t in
  let t := replace_class is_squote 39 t in
  trim t.

(** ** The chunker: [splitTextIntoChunks] *)

(** [maxChars] is a JavaScript number compared with integer lengths; an
    integer [Z] covers every finite integral value, negative ones included. *)
Record acc := { chunks : list str; currentChunk : str }.

Definition flush (a : acc) : list str :=
  if truthy (trim (currentChunk a))
  then chunks a ++ [trim (currentChunk a)]
  else chunks a.

Definition chunk_step (maxChars : Z) (a : acc) (seg : str) : acc :=
  if negb (truthy seg) then a
  else if Z.of_nat (length (currentChunk a)) + Z.of_nat (length seg) >? maxChars
  then {| chunks := flush a; currentChunk := seg |}
  else {| chunks := chunks a; currentChunk := currentChunk a ++ seg |}.

Definition splitTextIntoChunks (text : str) (maxChars : Z) : list str :=
  let cleanedText := cleanTextForTTS text in
  let segments := split_delims cleanedText in
  flush (fold_left (chunk_step maxChars) segments
                   {| chunks := []; currentChunk := [] |}).

(** ** Numbers and typed-array views *)

(** The samples of an [AudioBuffer] are 32-bit floats.  The encoder clamps a
    sample to [-1, 1] and multiplies it by [0x8000] or [0x7FFF] in double
    precision; a 24-bit significand times a 15- or 16-bit integer fits the
    53-bit significand of a double, so every product is exact and a finite
    sample is modelled by the rational it denotes.  [NaN] stands for a
    not-a-number sample and for [undefined] read from outside a typed
    array, which the arithmetic turns into not-a-number. *)
Inductive num := Fin (q : Q) | NaN.

Definition Math_min (a : Q) (x : num) : num :=
  match x with
  | Fin q => Fin (if Qle_bool a q then a else q)
  | NaN => NaN
  end.

Definition Math_max (a : Q) (x : num) : num :=
  match x with
  | Fin q => Fin (if Qle_bool a q then q else a)
  | NaN => NaN
  end.

(** [x < 0], false on not-a-number. *)
Definition num_neg (x : num) : bool :=
  match x with
  | Fin q => negb (Qle_bool 0 q)
  | NaN => false
  end.

Definition num_scale (x : num) (k : Z) : num :=
  match x with
  | Fin q => Fin (q * inject_Z k)
  | NaN => NaN
  end.

(** The integer part of a number, rounded towards zero; 0 for
    not-a-number. *)
Definition truncate (x : num) : Z :=
  match x with
  | Fin q => Z.quot (Qnum q) (Z.pos (Qden q))
  | NaN => 0
  end.

(** The contents of an [ArrayBuffer]: one [Z] in [0, 256) per byte.  A
    [DataView] setter raises [RangeError] ([None]) when the field leaves the
    buffer, and stores the value modulo the width of the field; every call
    of the encoder passes [true] for little-endian. *)
Definition bytes := list Z.

Definition store (off : nat) (field : bytes) (view : bytes) : option bytes :=
  if decide (off + length field <= length view)%nat
  then Some (list_inserts off field view)
  else None.

Definition le16 (v : Z) : bytes :=
  let u := v mod 65536 in [u mod 256; u / 256].

Definition le32 (v : Z) : bytes :=
  let u := v mod 4294967296 in
  [u mod 256; (u / 256) mod 256; (u / 65536) mod 256; u / 16777216].

Definition setUint8 (off : nat) (v : Z) (view : bytes) : option bytes :=
  store off [v mod 256] view.

Definition setUint16 (off : nat) (v : Z) (view : bytes) : option bytes :=
  store off (le16 v) view.

(** [setInt16] stores the two's complement pattern, which for an integer
    [v] is [v mod 65536] as well; a fractional argument is truncated
    first. *)
Definition setInt16 (off : nat) (x : num) (view : bytes) : option bytes :=
  store off (le16 (truncate x)) view.

Definition setUint32 (off : nat) (v : Z) (view : bytes) : option bytes :=
  store off (le32 v) view.

(** A counted loop [for (let i = 0; i < n; i++) body] is [for_each] over
    [seq 0 n]: the buffer is threaded through the iterations and the first
    exception ends the loop. *)
Fixpoint for_each {A S : Type} (xs : list A) (body : A -> S -> option S)
    (s : S) : option S :=
  match xs with
  | [] => Some s
  | x :: xs' => s' ← body x s; for_each xs' body s'
  end.

Definition writeString (offset : nat) (string : str) (view : bytes)
    : option bytes :=
  for_each (seq 0 (length string))
    (fun i v => c ← string !! i; setUint8 (offset + i) c v) view.

(** ** The encoder: [audioBufferToWav] *)

Record AudioBuffer := {
  numberOfChannels : nat;
  sampleRate : Q;            (* a 32-bit float; the program uses 24000 *)
  buf_length : nat;          (* [buffer.length], in sample frames *)
  channels : list (list num) (* one [Float32Array] per channel *)
}.

(** The invariants the Web Audio API gives every [AudioBuffer]. *)
Definition wf_buffer (b : AudioBuffer) : Prop :=
  length (channels b) = numberOfChannels b /\
  Forall (fun ch => length ch = buf_length b) (channels b).

(** [buffer.getChannelData(channel)]; [IndexSizeError] outside the
    channels. *)
Definition getChannelData (b : AudioBuffer) (channel : nat)
    : option (list num) :=
  channels b !! channel.

(** [data[i]] on a [Float32Array]. *)
Definition sample_at (data : list num) (i : nat) : num :=
  default NaN (data !! i).

Definition intSample (x : num) : num :=
  let sample := Math_max (-1) (Math_min 1 x) in
  if num_neg sample then num_scale sample 32768 else num_scale sample 32767.

(** What [setUint16] and [setUint32] make of a number before they reduce
    it modulo the width of the field: its integer part. *)
Definition ToInteger (x : Q) : Z := truncate (Fin x).

(** The body of the blob, whose type is [audio/wav].  The sample rate is a
    number, not an integer: the rate field gets its integer part, and the
    byte rate field the integer part of the product, which is exact in
    double precision as long as the block alignment is below 2^29 (a 24-bit
    significand times the alignment then fits 53 bits; implementations
    stop at 32 channels). *)
Definition audioBufferToWav (buffer : AudioBuffer) : option bytes :=
  let numChannels := numberOfChannels buffer in
  let format := 1 in
  let bitDepth := 16%nat in
  let bytesPerSample := (bitDepth / 8)%nat in
  let blockAlign := (numChannels * bytesPerSample)%nat in
  let length := (buf_length buffer * blockAlign)%nat in
  let view := replicate (44 + length) 0 in
  view ← writeString 0 (lit "RIFF") view;
  view ← setUint32 4 (Z.of_nat (36 + length)) view;
  view ← writeString 8 (lit "WAVE") view;
  view ← writeString 12 (lit "fmt ") view;
  view ← setUint32 16 16 view;
  view ← setUint16 20 format view;
  view ← setUint16 22 (Z.of_nat numChannels) view;
  view ← setUint32 24 (ToInteger (sampleRate buffer)) view;
  view ← setUint32 28
           (ToInteger (sampleRate buffer * inject_Z (Z.of_nat blockAlign)))
           view;
  view ← setUint16 32 (Z.of_nat blockAlign) view;
  view ← setUint16 34 (Z.of_nat bitDepth) view;
  view ← writeString 36 (lit "data") view;
  view ← setUint32 40 (Z.of_nat length) view;
  let offset := 44%nat in
  for_each (seq 0 (buf_length buffer)) (fun i view =>
    for_each (seq 0 numChannels) (fun channel view =>
      data ← getChannelData buffer channel;
      setInt16 (offset + i * blockAlign + channel * bytesPerSample)
               (intSample (sample_at data i)) view) view) view.

(** ** Reading the container back *)

(** The repository only writes the container.  To state the round trip,
    [parse_wav] is the standard reader of the canonical 44-byte header: it
    checks the [RIFF] and [WAVE] tags, the PCM format code and the bit depth,
    takes the little-endian fields at their fixed offsets and then reads as
    many interleaved 16-bit samples as the data size announces. *)
Definition getUint8 (view : bytes) (off : nat) : option Z := view !! off.

Definition getUint16 (view : bytes) (off : nat) : option Z :=
  b0 ← view !! off; b1 ← view !! S off; Some (b0 + 256 * b1).

Definition getInt16 (view : bytes) (off : nat) : option Z :=
  u ← getUint16 view off; Some (if u <? 32768 then u else u - 65536).

Definition getUint32 (view : bytes) (off : nat) : option Z :=
  lo ← getUint16 view off; hi ← getUint16 view (S (S off));
  Some (lo + 65536 * hi).

Record WavInfo := {
  wav_channels : Z;
  wav_rate : Z;
  wav_bits : Z;
  wav_samples : list Z       (* interleaved signed 16-bit samples *)
}.

Definition parse_wav (view : bytes) : option WavInfo :=
  riff ← mapM (getUint8 view) (seq 0 4);
  wave ← mapM (getUint8 view) (seq 8 4);
  fmt ← getUint16 view 20;
  nch ← getUint16 view 22;
  rate ← getUint32 view 24;
  bits ← getUint16 view 34;
  size ← getUint32 view 40;
  if negb (forallb id [bool_decide (riff = lit "RIFF");
                       bool_decide (wave = lit "WAVE");
                       fmt =? 1; bits =? 16])
  then None
  else
    samples ← mapM (fun k => getInt16 view (44 + 2 * k))
                   (seq 0 (Z.to_nat size / 2));
    Some {| wav_channels := nch; wav_rate := rate; wav_bits := bits;
            wav_samples := samples |}.

(** ** The decoder: [decodeAudioData] *)

(** [new Int16Array(data.buffer)] on a little-endian platform;
    [RangeError] for an odd number of bytes. *)
Definition int16_of (lo hi : Z) : Z :=
  let u := lo + 256 * hi in if u <? 32768 then u else u - 65536.

Fixpoint Int16Array (data : bytes) : option (list Z) :=
  match data with
  | [] => Some []
  | lo :: hi :: rest => r ← Int16Array rest; Some (int16_of lo hi :: r)
  | [_] => None
  end.

(** [ctx.createBuffer] refuses an empty buffer and a buffer without
    channels ([NotSupportedError]); a fractional frame count is truncated
    by the conversion to [unsigned long].  It also refuses a sample rate or
    a channel count that the implementation does not support: which ones
    is left to the implementation, except that every implementation takes
    up to 32 channels and the rates from 8000 to 96000 Hz.  The model is
    the function inside that range (the program calls it with 24000 and 1);
    what is stated of it outside is stated under [supported].  [rate] is a
    number that a 32-bit float holds, which the buffer then has as its
    rate.  The two loops fill sample [i] of
    channel [channel] with element [i * numChannels + channel] divided by
    32768, which is exact in a 32-bit float.  [None] stands for either
    exception; the context argument plays no part. *)
Definition decodeAudioData (data : bytes) (rate : Q) (numChannels : nat)
    : option AudioBuffer :=
  dataInt16 ← Int16Array data;
  let frameCount := (length dataInt16 / numChannels)%nat in
  if decide (numChannels = 0 \/ frameCount = 0)%nat then None
  else
    Some {| numberOfChannels := numChannels;
            sampleRate := rate;
            buf_length := frameCount;
            channels :=
              List.map (fun channel =>
                List.map (fun i =>
                  match dataInt16 !! (i * numChannels + channel)%nat with
                  | Some v => Fin (v # 32768)
                  | None => NaN
                  end) (seq 0 frameCount))
                (seq 0 numChannels) |}.

(** ** Exceptions and promises *)

Inductive exn :=
  | Error (message : str)          (* [new Error(message)] *)
  | DecodeError                    (* [RangeError] or [NotSupportedError] *)
  | InvalidCharacterError          (* [atob] on a malformed payload *)
  | Rejected (reason : Z).         (* a failure of the external service *)

(** What awaiting a call gives: a value, or an exception thrown at the
    [await]. *)
Inductive outcome (A : Type) := Returned (a : A) | Thrown (e : exn).
Arguments Returned {A} a.
Arguments Thrown {A} e.

Definition obind {A B : Type} (m : outcome A) (k : A -> outcome B) : outcome B :=
  match m with
  | Returned a => k a
  | Thrown e => Thrown e
  end.

Definition or_throw {A : Type} (e : exn) (o : option A) : outcome A :=
  match o with
  | Some a => Returned a
  | None => Thrown e
  end.

Declare Scope outcome_scope.
Delimit Scope outcome_scope with outcome.
Notation "'let!' x ':=' m 'in' k" := (obind m (fun x => k))
  (at level 10, x name, m at level 100, k at level 200) : outcome_scope.

Inductive VoiceName := Kore | Puck | Charon | Fenrir | Zephyr.

(** ** The service: [restructureTextWithAI] and [generateTTS] *)

(** The instruction that precedes the sanitised text in the synthesis
    request, as UTF-16 code units; it ends in a colon and two line feeds. *)
Definition instruction : str :=
  [52264; 48516; 54616; 44256; 32; 51648; 51201; 51064; 32; 54840; 55137;
   51004; 47196; 44; 32; 47928; 51109; 32; 49324; 51060; 51032; 32; 50668;
   50868; 51012; 32; 52649; 48516; 55176; 32; 46160; 47732; 49436; 32; 51088;
   50672; 49828; 47101; 44172; 32; 51069; 50612; 51452; 49464; 50836; 58; 10;
   10].

(** The request of the reflow call, up to the interpolated text. *)
Definition reflow_request : str :=
  [51060; 32; 44544; 51032; 32; 47928; 47589; 51012; 32; 48516; 49437; 54644;
   49436; 32; 45229; 46021; 54616; 44592; 32; 51339; 44172; 32; 45800; 46973;
   40; 80; 97; 114; 97; 103; 114; 97; 112; 104; 41; 51012; 32; 45208; 45572;
   44256; 32; 51088; 50672; 49828; 47084; 50868; 32; 51460; 48148; 45000;
   51012; 32; 51116; 44396; 49457; 54644; 51480; 46; 10; 50896; 47928; 51032;
   32; 45236; 50857; 51008; 32; 54620; 32; 44544; 51088; 46020; 32; 48736;
   51664; 50630; 51060; 32; 50976; 51648; 54644; 50556; 32; 54616; 47728; 44;
   32; 50836; 50557; 54616; 51648; 32; 47560; 46; 10; 50724; 51649; 32;
   51116; 44396; 49457; 46108; 32; 53581; 49828; 53944; 47564; 32; 52636;
   47141; 54644; 58; 10; 10].

(** The message of the error thrown when the response carries no audio. *)
Definition no_audio_message : str :=
  [50724; 46356; 50724; 32; 45936; 51060; 53552; 47484; 32; 48155; 51648; 32;
   47803; 54664; 49845; 45768; 45796; 46].

Definition sanitizedText (text : str) : str :=
  substring0 4000 (remove_class is_control text).

Definition textWithInstruction (text : str) : str :=
  instruction ++ sanitizedText text.

Section Service.

Local Open Scope outcome_scope.

(** The two models of the external service, by request text: the [text]
    of the reflow response and the inline data of the first part of the
    first candidate of the synthesis response, each absent ([None]) when
    the optional chain finds nothing. *)
Variable generateText : str -> outcome (option str).
Variable generateSpeech : str -> VoiceName -> outcome (option str).
(** Browser primitives. *)
Variable atob : str -> outcome str.
Variable createObjectURL : bytes -> str.

(** [response.text || text] *)
Definition restructureTextWithAI (text : str) : outcome str :=
  let! response := generateText (reflow_request ++ text) in
  match response with
  | Some t => Returned (if truthy t then t else text)
  | None => Returned text
  end.

Definition decode (base64 : str) : outcome bytes :=
  let! binaryString := atob base64 in
  Returned (List.map (fun c => c mod 256) binaryString).

Definition generateTTS (text : str) (voiceName : VoiceName)
    : outcome (bytes * str) :=
  let! response := generateSpeech (textWithInstruction text) voiceName in
  match response with
  | None => Thrown (Error no_audio_message)
  | Some base64Audio =>
      if negb (truthy base64Audio) then Thrown (Error no_audio_message)
      else
        let! decodedData := decode base64Audio in
        let! audioBuffer :=
          or_throw DecodeError (decodeAudioData decodedData 24000 1) in
        let! wavBlob := or_throw DecodeError (audioBufferToWav audioBuffer) in
        Returned (wavBlob, createObjectURL wavBlob)
  end.

End Service.

(** ** The section handler of the application: [handleGenerateTTS] *)

Module App.

Inductive ChunkStatus := pending | analyzing | generating | ready | error.

Record TextChunk := {
  id : str;
  content : str;
  status : ChunkStatus;
  audioUrl : option str;
  fileName : str;
  index : nat;
  progress : option Q
}.

Record ExtendedAppState := {
  originalFileName : option str;
  chunks : list TextChunk;
  selectedVoice : VoiceName;
  lastPlayedChunkId : option str;
  lastPlayedTime : option Q;
  currentPage : nat;
  playbackRate : Q;
  isAutoNext : bool
}.

(** [{ ...prev, chunks: prev.chunks.map(c => c.id === chunkId ? f(c) : c) }] *)
Definition map_chunk (chunkId : str) (f : TextChunk -> TextChunk)
    (prev : ExtendedAppState) : ExtendedAppState :=
  {| originalFileName := originalFileName prev;
     chunks := List.map (fun c => if bool_decide (id c = chunkId)
                                  then f c else c) (chunks prev);
     selectedVoice := selectedVoice prev;
     lastPlayedChunkId := lastPlayedChunkId prev;
     lastPlayedTime := lastPlayedTime prev;
     currentPage := currentPage prev;
     playbackRate := playbackRate prev;
     isAutoNext := isAutoNext prev |}.

Definition with_status (s : ChunkStatus) (c : TextChunk) : TextChunk :=
  {| id := id c; content := content c; status := s; audioUrl := audioUrl c;
     fileName := fileName c; index := index c; progress := progress c |}.

Definition with_content (t : str) (s : ChunkStatus) (c : TextChunk)
    : TextChunk :=
  {| id := id c; content := t; status := s; audioUrl := audioUrl c;
     fileName := fileName c; index := index c; progress := progress c |}.

Definition with_audio (s : ChunkStatus) (url : str) (c : TextChunk)
    : TextChunk :=
  {| id := id c; content := content c; status := s; audioUrl := Some url;
     fileName := fileName c; index := index c; progress := progress c |}.

(** What a handler does to the world, in order: state updates, which
    React applies to the state current at that moment, playback requests
    and console output. *)
Inductive effect :=
  | SetState (update : ExtendedAppState -> ExtendedAppState)
  | HandlePlay (url : str) (chunkId : str)
  | ConsoleError (e : exn).

(** A computation that performs effects and then returns or throws. *)
Definition task (A : Type) : Type := list effect * outcome A.

Definition ret {A : Type} (a : A) : task A := ([], Returned a).

Definition perform (e : effect) : task unit := ([e], Returned tt).

Definition await {A : Type} (m : outcome A) : task A := ([], m).

Definition bind {A B : Type} (m : task A) (k : A -> task B) : task B :=
  match m with
  | (es, Returned a) => let (es', r) := k a in (es ++ es', r)
  | (es, Thrown e) => (es, Thrown e)
  end.

(** [try { body } catch (err) { handler }] *)
Definition try_catch {A : Type} (body : task A) (handler : exn -> task A)
    : task A :=
  match body with
  | (es, Returned a) => (es, Returned a)
  | (es, Thrown e) => let (es', r) := handler e in (es ++ es', r)
  end.

Declare Scope task_scope.
Delimit Scope task_scope with task.
Notation "x <- m ;; k" := (bind m (fun x => k))
  (at level 100, m at next level, right associativity) : task_scope.
Notation "m ;; k" := (bind m (fun _ => k))
  (at level 100, right associativity) : task_scope.

(** The state that results from a list of effects. *)
Definition apply_effect (s : ExtendedAppState) (e : effect)
    : ExtendedAppState :=
  match e with
  | SetState update => update s
  | _ => s
  end.

Definition run_effects (es : list effect) (s : ExtendedAppState)
    : ExtendedAppState :=
  fold_left apply_effect es s.

Section Handler.

Local Open Scope task_scope.

(** The two service calls as the component sees them. *)
Variable restructureTextWithAI : str -> outcome str.
Variable generateTTS : str -> VoiceName -> outcome (bytes * str).

(** [state] is the state captured by the closure of the handler. *)
Definition handleGenerateTTS (state : ExtendedAppState) (chunkId : str)
    (autoPlayAfter : bool) : task bool :=
  match List.find (fun c => bool_decide (id c = chunkId)) (chunks state) with
  | None => ret true
  | Some chunk =>
      match status chunk with
      | ready =>
          match audioUrl chunk with
          | Some url =>
              (if autoPlayAfter && truthy url
               then perform (HandlePlay url chunkId) else ret tt) ;;
              ret true
          | None => ret true
          end
      | _ =>
          try_catch
            (perform (SetState (map_chunk chunkId (with_status analyzing))) ;;
             restructuredContent <- await (restructureTextWithAI (content chunk)) ;;
             perform (SetState (map_chunk chunkId
                        (with_content restructuredContent generating))) ;;
             result <- await (generateTTS restructuredContent
                                          (selectedVoice state)) ;;
             perform (SetState (map_chunk chunkId
                        (with_audio ready (snd result)))) ;;
             (if autoPlayAfter
              then perform (HandlePlay (snd result) chunkId) else ret tt) ;;
             ret true)
            (fun err =>
             perform (ConsoleError err) ;;
             perform (SetState (map_chunk chunkId (with_status error))) ;;
             ret false)
      end
  end.

End Handler.

End App.

(** ** The rest of the component: upload, pages, playback and the loops *)

Module Component.

Import App.

Definition MAX_CHARS_PER_CHUNK : Z := 3000.
Definition ITEMS_PER_PAGE : Z := 10.

(** [array.findIndex(pred)]: the first index at which [pred] holds, or
    [-1]. *)
Fixpoint findIndex {A : Type} (pred : A -> bool) (l : list A) : Z :=
  match l with
  | [] => -1
  | x :: l' =>
      if pred x then 0
      else let i := findIndex pred l' in if i <? 0 then -1 else i + 1
  end.


(** [array.slice(start, end)] for integers: a negative bound counts from
    the end, both bounds are clamped to the array, and an end that is not
    behind the start gives the empty array. *)
Definition slice {A : Type} (l : list A) (start stop : Z) : list A :=
  let len := Z.of_nat (length l) in
  let from := if start <? 0 then Z.max (len + start) 0 else Z.min start len in
  let final := if stop <? 0 then Z.max (len + stop) 0 else Z.min stop len in
  take (Z.to_nat (final - from)) (drop (Z.to_nat from) l).

(** What the handlers of the component do besides the effects of
    [handleGenerateTTS]: the setters of the other pieces of state, the
    delays, and the operations on the audio element. *)
Inductive action :=
  | Do (e : effect)
  | SetIsLoading (b : bool)
  | SetError (message : option str)
  | SetFullText (text : str)
  | SetShowResumeBanner (b : bool)
  | ClearInput                              (* [event.target.value = ''] *)
  | SetActiveChunkId (id : option str)
  | SetIsPaused (b : bool)
  | SetIsAutoGenerating (b : bool)
  | Delay (ms : Z)
  | AudioSrc (url : str)
  | AudioPlaybackRate (rate : Q)
  | AudioCurrentTime (time : Q)
  | AudioPlay (onRejected : option str)     (* [play()], and the error set
                                               when its promise rejects *)
  | AudioPause.

(** The state after the actions of a handler. *)
Definition apply_action (s : ExtendedAppState) (a : action)
    : ExtendedAppState :=
  match a with
  | Do e => apply_effect s e
  | _ => s
  end.

Definition run_actions (acts : list action) (s : ExtendedAppState)
    : ExtendedAppState :=
  fold_left apply_action acts s.

(** *** Upload: [handleFileUpload] *)

(** The message of the error thrown for a file without text. *)
Definition empty_file_message : str :=
  [54028; 51068; 51060; 32; 48708; 50612; 51080; 49845; 45768; 45796; 46].

(** The sections of a new file; [randomUUID k] is what the [k]-th call of
    [crypto.randomUUID()] returns. *)
Definition newChunks (randomUUID : nat -> str) (name : str)
    (textChunks : list str) : list TextChunk :=
  imap (fun index content =>
          {| id := randomUUID index; content := content; status := pending;
             audioUrl := None; fileName := name; index := index;
             progress := Some 0%Q |}) textChunks.

Definition uploaded (name : str) (sections : list TextChunk)
    (prev : ExtendedAppState) : ExtendedAppState :=
  {| originalFileName := Some name;
     chunks := sections;
     selectedVoice := selectedVoice prev;
     lastPlayedChunkId := None;
     lastPlayedTime := Some 0%Q;
     currentPage := 1;
     playbackRate := playbackRate prev;
     isAutoNext := isAutoNext prev |}.

(** [file] is the name of the chosen file and the text [readTextFile]
    resolved to, if a file was chosen. *)
Definition handleFileUpload (randomUUID : nat -> str)
    (file : option (str * str)) : list action :=
  match file with
  | None => []
  | Some (name, text) =>
      [SetIsLoading true; SetError None]
      ++ (if negb (truthy (trim text))
          then [SetError (Some empty_file_message)]
          else
            let textChunks := splitTextIntoChunks text MAX_CHARS_PER_CHUNK in
            [SetFullText text;
             Do (SetState (uploaded name (newChunks randomUUID name textChunks)));
             SetShowResumeBanner false])
      ++ [SetIsLoading false; ClearInput]
  end.

(** *** Pages: [totalPages] and [currentItems] *)

(** [Math.ceil(state.chunks.length / ITEMS_PER_PAGE)] *)
Definition totalPages (state : ExtendedAppState) : Z :=
  Qceiling (Z.of_nat (length (chunks state)) # 10).

Definition currentItems (state : ExtendedAppState) : list TextChunk :=
  let start := (Z.of_nat (currentPage state) - 1) * ITEMS_PER_PAGE in
  slice (chunks state) start (start + ITEMS_PER_PAGE).

(** *** Playback: [handlePlay] *)

Definition play_failed_message : str := [51116; 49373; 32; 49892; 54056].

Definition with_page (page : nat) (prev : ExtendedAppState)
    : ExtendedAppState :=
  {| originalFileName := originalFileName prev;
     chunks := chunks prev;
     selectedVoice := selectedVoice prev;
     lastPlayedChunkId := lastPlayedChunkId prev;
     lastPlayedTime := lastPlayedTime prev;
     currentPage := page;
     playbackRate := playbackRate prev;
     isAutoNext := isAutoNext prev |}.

(** [audio] is the [paused] flag of the audio element, if the element is
    mounted.  The page is [Math.floor(index / ITEMS_PER_PAGE) + 1], which is
    0 for the index -1 of a section that is not in the list. *)
Definition handlePlay (state : ExtendedAppState) (audio : option bool)
    (activeChunkId : option str) (url id' : str) (startTime : Q)
    : list action :=
  match audio with
  | None => []
  | Some paused =>
      if bool_decide (activeChunkId = Some id')
      then [if paused then AudioPlay None else AudioPause]
      else
        [SetActiveChunkId (Some id'); AudioSrc url;
         AudioPlaybackRate (playbackRate state); AudioCurrentTime startTime;
         AudioPlay (Some play_failed_message)]
        ++ (let index :=
              findIndex (fun c => bool_decide (id c = id')) (chunks state) in
            let page := index / ITEMS_PER_PAGE + 1 in
            if negb (page =? Z.of_nat (currentPage state))
            then [Do (SetState (with_page (Z.to_nat page)))]
            else [])
  end.

(** *** The two loops: [handleEnded] and [handleGenerateAllOnPage] *)

Definition is_ready (s : ChunkStatus) : bool :=
  match s with ready => true | _ => false end.



Section Looping.

Variable restructureTextWithAI : str -> outcome str.
Variable generateTTS : str -> VoiceName -> outcome (bytes * str).


(** The body of [for (const chunk of currentItems)]: the actions, and
    whether the loop ended (by exhaustion or by [break]) or was left by an
    exception. *)
Fixpoint generate_each (state : ExtendedAppState) (items : list TextChunk)
    : list action * outcome unit :=
  match items with
  | [] => ([], Returned tt)
  | chunk :: rest =>
      if is_ready (status chunk) then generate_each state rest
      else
        let (es, success) :=
          handleGenerateTTS restructureTextWithAI generateTTS
                            state (id chunk) false in
        match success with
        | Returned true =>
            let (acts, r) := generate_each state rest in
            (List.map Do es ++ Delay 1000 :: acts, r)
        | Returned false => (List.map Do es, Returned tt)
        | Thrown e => (List.map Do es, Thrown e)
        end
  end.

Definition handleGenerateAllOnPage (state : ExtendedAppState)
    (isAutoGenerating : bool) : list action :=
  if isAutoGenerating then []
  else
    SetIsAutoGenerating true ::
    (let (acts, r) := generate_each state (currentItems state) in
     acts ++ match r with
             | Returned _ => [SetIsAutoGenerating false]
             | Thrown _ => []
             end).

End Looping.

End Component.

(** * Vocabulary of the properties *)

(** A string of whitespace only. *)
Definition blank (s : str) : Prop := Forall (fun c => is_ws c = true) s.

(** What is claimed of a section. *)
Definition section_ok (c : str) : Prop :=
  c <> [] /\ trim c = c /\
  (forall x, head c = Some x -> is_ws x = false) /\
  (forall x, last c = Some x -> is_ws x = false) /\
  (exists x, In x c /\ is_ws x = false).

Definition strlen (s : str) : Z := Z.of_nat (length s).

(** A section is within the limit, or it is one segment of the delimiter
    split, longer than the limit by itself and emitted whole (trimmed). *)
Definition bounded_section (maxChars : Z) (segments : list str) (c : str)
    : Prop :=
  strlen c <= maxChars \/
  exists seg, In seg segments /\ c = trim seg /\ maxChars < strlen seg.

Definition bounded_current (maxChars : Z) (segments : list str) (cur : str)
    : Prop :=
  cur = [] \/ strlen cur <= maxChars \/
  (In cur segments /\ maxChars < strlen cur).

(** [ws_erased a b]: [a] is [b] with some whitespace code units deleted and
    nothing else changed. *)
Inductive ws_erased : str -> str -> Prop :=
  | we_nil : ws_erased [] []
  | we_keep c a b : ws_erased a b -> ws_erased (c :: a) (c :: b)
  | we_drop w a b : is_ws w = true -> ws_erased a b -> ws_erased a (w :: b).

(** [squeeze false s]: the text [s] with every run of whitespace that
    directly follows a delimiter ([.], [?], [!] or line feed) deleted, and
    nothing else changed; [skip] is true inside such a run. *)
Fixpoint squeeze (skip : bool) (s : str) : str :=
  match s with
  | [] => []
  | c :: s' =>
      if skip && is_ws c then squeeze true s'
      else if is_delim c then c :: squeeze true s'
      else c :: squeeze false s'
  end.

(** The sections made of groups of consecutive segments: every group is
    joined and trimmed, and a group that is blank gives no section. *)
Definition sections_of (groups : list (list str)) : list str :=
  List.filter truthy (List.map (fun g => trim (concat g)) groups).

(** The claim as it is written: the normalised text is the concatenation of
    the sections with single whitespace code units put back, no two of them
    in a row.  [skipped] is true when the last unit of the text was taken as
    such a separator.  The places are left free, so this is weaker than
    asking for separators between sections only. *)
Fixpoint single_ws_gaps (skipped : bool) (joined text : str) : bool :=
  match text with
  | [] => match joined with [] => true | _ => false end
  | y :: text' =>
      match joined with
      | x :: joined' => (x =? y) && single_ws_gaps false joined' text'
      | [] => false
      end
      || is_ws y && negb skipped && single_ws_gaps true joined text'
  end.

(** [all_next R s]: every code unit of [s], taken with the unit that
    follows it (if any), satisfies [R]. *)
Fixpoint all_next (R : Z -> option Z -> bool) (s : str) : bool :=
  match s with
  | [] => true
  | c :: rest => R c (head rest) && all_next R rest
  end.

(** An occurrence of the mark [p] is followed by whitespace; [strict] says
    whether an occurrence at the very end is refused. *)
Definition followed_by_ws (strict : bool) (p : Z) (c : Z) (nx : option Z)
    : bool :=
  negb (c =? p) ||
  match nx with Some d => is_ws d | None => negb strict end.

(** The mark [p] is not immediately followed by itself. *)
Definition not_doubled (p : Z) (c : Z) (nx : option Z) : bool :=
  negb ((c =? p) && match nx with Some d => d =? p | None => false end).

Definition spaced (strict : bool) (p : Z) (s : str) : Prop :=
  all_next (followed_by_ws strict p) s = true.

Definition no_doubled_marks (s : str) : bool :=
  forallb (fun p => all_next (not_doubled p) s) [dot; qmark; bang; comma].

(** The spacing rule with a look-ahead that does not consume the unit
    after the mark; the two agree where no mark is doubled. *)
Fixpoint insert_space (at_end : bool) (p : Z) (s : str) : str :=
  match s with
  | [] => []
  | c :: rest =>
      if followed_by_ws at_end p c (head rest)
      then c :: insert_space at_end p rest
      else c :: 32 :: insert_space at_end p rest
  end.

(** A code unit that the class rules leave alone. *)
Definition plain (c : Z) : Prop :=
  is_control c = false /\ is_glyph c = false /\
  (is_dquote c = true -> c = 34) /\ (is_squote c = true -> c = 39).

Definition all_marks (P : Z -> Prop) : Prop :=
  P dot /\ P qmark /\ P bang /\ P comma.

(** A normal form: plain code units, every mark followed by whitespace or
    last, no whitespace at the ends. *)
Definition normal (y : str) : Prop :=
  Forall plain y /\ all_marks (fun p => spaced false p y) /\ trim y = y.

Definition padded (y z : str) : Prop := z = y \/ z = y ++ [32].

Definition unadorned (c : Z) : Prop :=
  is_control c = false /\ is_glyph c = false.

(** The normaliser with its spacing rules read as the spec words them
    (rules 3 and 4: after a mark that is immediately followed by a
    non-whitespace character, or that ends the string, insert one space):
    every mark is looked at on its own, and the unit behind it is not used
    up.  Everything else is as in [cleanTextForTTS]. *)
Definition cleanText_lookahead (text : str) : str :=
  let t := remove_class is_control text in
  let t := replace_class is_glyph 32 t in
  let t := insert_space true dot t in
  let t := insert_space true qmark t in
  let t := insert_space true bang t in
  let t := insert_space false comma t in
  let t := collapse_runs newline 3 [newline; newline] t in
  let t := collapse_runs bang 3 [bang; bang] t in
  let t := collapse_runs qmark 3 [qmark; qmark] t in
  let t := collapse_runs dot 4 [dot; dot; dot] t in
  let t := replace_class is_dquote 34 t in
  let t := replace_class is_squote 39 t in
  trim t.

Definition sample_bytes (x : num) : bytes := le16 (truncate x).

(** The samples of the buffer in the order of the container: frame by
    frame, and channel by channel inside a frame. *)
Definition frame_samples (b : AudioBuffer) (i : nat) : list num :=
  List.map (fun channel =>
              intSample (sample_at (default [] (getChannelData b channel)) i))
           (seq 0 (numberOfChannels b)).

Definition interleaved (b : AudioBuffer) : list num :=
  flat_map (frame_samples b) (seq 0 (buf_length b)).

(** One sample written by the innermost loop of the encoder. *)
Definition write_sample (buffer : AudioBuffer) (i channel : nat) (view : bytes)
    : option bytes :=
  data ← getChannelData buffer channel;
  setInt16 (44 + i * (numberOfChannels buffer * 2) + channel * 2)
           (intSample (sample_at data i)) view.

(** The 44 bytes of the header, field by field, for the values [rate] and
    [byteRate] handed to the two rate fields. *)
Definition wav_header_with (numChannels : nat) (rate byteRate : Z)
    (length : nat) : bytes :=
  lit "RIFF" ++ le32 (Z.of_nat (36 + length)) ++ lit "WAVE" ++ lit "fmt " ++
  le32 16 ++ le16 1 ++ le16 (Z.of_nat numChannels) ++ le32 rate ++
  le32 byteRate ++
  le16 (Z.of_nat (numChannels * 2)) ++ le16 16 ++ lit "data" ++
  le32 (Z.of_nat length).

(** The header of the blob of a buffer. *)
Definition header_of (b : AudioBuffer) : bytes :=
  wav_header_with (numberOfChannels b)
    (ToInteger (sampleRate b))
    (ToInteger (sampleRate b * inject_Z (Z.of_nat (numberOfChannels b * 2))))
    (buf_length b * (numberOfChannels b * 2)).

(** The header for an integral rate. *)
Definition wav_header (numChannels : nat) (rate : Z) (length : nat) : bytes :=
  lit "RIFF" ++ le32 (Z.of_nat (36 + length)) ++ lit "WAVE" ++ lit "fmt " ++
  le32 16 ++ le16 1 ++ le16 (Z.of_nat numChannels) ++ le32 rate ++
  le32 (rate * Z.of_nat (numChannels * 2)) ++
  le16 (Z.of_nat (numChannels * 2)) ++ le16 16 ++ lit "data" ++
  le32 (Z.of_nat length).

(** The buffer of the example: two mono frames, [1.0] and [-1.0], at
    24000 Hz. *)
Definition two_frames : AudioBuffer :=
  {| numberOfChannels := 1; sampleRate := 24000; buf_length := 2;
     channels := [[Fin 1; Fin (-1)]] |}.

(** The signed value of the two bytes written for a sample. *)
Definition stored_int16 (x : num) : Z :=
  let u := truncate x mod 65536 in if u <? 32768 then u else u - 65536.

(** The integer the encoder stores for a sample [q] of [-1, 1]. *)
Definition quantised (q : Q) : Z := truncate (intSample (Fin q)).

(** Every sample is a finite number of [-1, 1]. *)
Definition unit_range (b : AudioBuffer) : Prop :=
  Forall (Forall (fun x => exists q, x = Fin q /\ (-1 <= q)%Q /\ (q <= 1)%Q))
         (channels b).

(** The channel count, the sample rate and the size of the data fit the
    16- and 32-bit fields of the header. *)
Definition header_fits (b : AudioBuffer) : Prop :=
  Z.of_nat (numberOfChannels b) < 65536 /\
  ((0 <= sampleRate b)%Q /\ (sampleRate b < 4294967296)%Q) /\
  Z.of_nat (buf_length b * numberOfChannels b * 2) < 4294967296.

(** The rates and channel counts that every implementation of
    [createBuffer] accepts. *)
Definition supported (rate : Z) (numChannels : nat) : Prop :=
  8000 <= rate <= 96000 /\ (numChannels <= 32)%nat.

(** A buffer at 22050.5 Hz, and a sample just below full scale. *)
Definition fractional_rate : AudioBuffer :=
  {| numberOfChannels := 1; sampleRate := 22050.5; buf_length := 1;
     channels := [[Fin (65535 # 65536)]] |}.

Definition stereo_frames : AudioBuffer :=
  {| numberOfChannels := 2; sampleRate := 24000; buf_length := 2;
     channels := [[Fin (1 # 2); Fin (-1)]; [Fin 1; Fin (-3 # 32768)]] |}.

(** What a failed generation for [chunkId] may do to a section [c] of the
    state: the section of that id ends in status [error], any other section
    is as it was. *)
Definition section_after_failure (chunkId : str) (c c' : App.TextChunk)
    : Prop :=
  if bool_decide (App.id c = chunkId)
  then App.status c' = App.error /\ App.id c' = App.id c
  else c' = c.

(** Four 16-bit samples as the service sends them, little-endian, and the
    mono buffer [decodeAudioData] makes of them. *)
Definition pcm_bytes : bytes := [255; 127; 0; 128; 1; 0; 255; 255].

Definition pcm_buffer : AudioBuffer :=
  {| numberOfChannels := 1; sampleRate := 24000; buf_length := 4;
     channels := [[Fin (32767 # 32768); Fin (-32768 # 32768);
                   Fin (1 # 32768); Fin (-1 # 32768)]] |}.

(** A state with two sections, for the examples; a synthesis service whose
    responses carry no audio, a reflow service without text, and the run of
    the handler on the first section with them. *)
Definition demo_chunk : App.TextChunk :=
  {| App.id := lit "a"; App.content := lit "One."; App.status := App.pending;
     App.audioUrl := None; App.fileName := lit "book.txt";
     App.index := 0; App.progress := Some 0%Q |}.

Definition demo_state : App.ExtendedAppState :=
  {| App.originalFileName := Some (lit "book.txt");
     App.chunks :=
       [ demo_chunk;
         {| App.id := lit "b"; App.content := lit "Two."; App.status := App.ready;
            App.audioUrl := Some (lit "blob:b"); App.fileName := lit "book.txt";
            App.index := 1; App.progress := Some 0%Q |} ];
     App.selectedVoice := Puck;
     App.lastPlayedChunkId := None;
     App.lastPlayedTime := None;
     App.currentPage := 1;
     App.playbackRate := 115 # 100;
     App.isAutoNext := false |}.

Definition silent_speech (request : str) (voiceName : VoiceName)
    : outcome (option str) :=
  Returned None.

Definition demo_run : App.task bool :=
  App.handleGenerateTTS
    (restructureTextWithAI (fun _ => Returned None))
    (generateTTS silent_speech Returned (fun _ => []))
    demo_state (lit "a") true.

(** ** Vocabulary of the further properties *)

(** [inserted q s o]: [o] is [s] with a space put right behind some
    occurrences of the mark [q], which is all a spacing rule does. *)
Inductive inserted (q : Z) : str -> str -> Prop :=
  | inserted_nil : inserted q [] []
  | inserted_keep c s o : inserted q s o -> inserted q (c :: s) (c :: o)
  | inserted_add s o : inserted q s o -> inserted q (q :: s) (q :: 32 :: o).

(** A mark that directly follows the same mark is followed by whitespace or
    is the last code unit: [tame_at] says it of the first two units of
    [a :: t], [tame] of every place. *)
Definition tame_at (p : Z) (a : Z) (t : str) : bool :=
  match t with
  | b :: r =>
      negb ((a =? p) && (b =? p))
      || match r with c :: _ => is_ws c | [] => true end
  | [] => true
  end.

Fixpoint tame (p : Z) (s : str) : bool :=
  match s with
  | [] => true
  | a :: t => tame_at p a t && tame p t
  end.

(** The normaliser without its four collapsing replacements. *)
Definition spacing_rules (t : str) : str :=
  space_after false comma
    (space_after true bang (space_after true qmark (space_after true dot t))).

Definition cleanText_without_collapsing (text : str) : str :=
  let t := remove_class is_control text in
  let t := replace_class is_glyph 32 t in
  let t := spacing_rules t in
  let t := replace_class is_dquote 34 t in
  let t := replace_class is_squote 39 t in
  trim t.

(** The values of the size and rate fields of the header fit the widths
    of the fields. *)
Definition fields_fit (b : AudioBuffer) : Prop :=
  Z.of_nat (numberOfChannels b * 2) < 65536 /\
  ((0 <= sampleRate b)%Q /\ (sampleRate b < 4294967296)%Q) /\
  (sampleRate b * inject_Z (Z.of_nat (numberOfChannels b * 2))
   < 4294967296)%Q /\
  Z.of_nat (36 + buf_length b * (numberOfChannels b * 2)) < 4294967296.

(** What the pipeline of [generateTTS] stores for the 16-bit sample [m] of
    the payload. *)
Definition requantised (m : Z) : Z := if m <=? 0 then m else m - 1.

(** A synthesis service that answers every request with one payload, the
    decoding of that payload to the four samples of [pcm_bytes], and the
    address the browser gives the blob. *)
Definition pcm_speech (request : str) (voiceName : VoiceName)
    : outcome (option str) :=
  Returned (Some (lit "/38AgAEA//8=")).

Definition pcm_atob (base64 : str) : outcome str := Returned pcm_bytes.

Definition blob_url (blob : bytes) : str := lit "blob:1".

(** The blob [generateTTS] makes of [pcm_bytes]. *)
Definition pcm_wav : bytes :=
  wav_header 1 24000 8 ++ [254; 127; 0; 128; 0; 0; 255; 255].

(** What a successful generation for [chunkId] does to a section [c]: the
    section of that id gets the reflowed text [t], the status [ready] and
    the address [url] of its audio; any other section is as it was. *)
Definition section_after_success (chunkId t url : str)
    (c c' : App.TextChunk) : Prop :=
  if bool_decide (App.id c = chunkId)
  then c' = {| App.id := App.id c; App.content := t;
               App.status := App.ready; App.audioUrl := Some url;
               App.fileName := App.fileName c; App.index := App.index c;
               App.progress := App.progress c |}
  else c' = c.

(** What no run of the handler for [chunkId] does: it never changes the
    id, the file name, the index or the progress of a section, and never
    changes a section of another id at all. *)
Definition touches_only (chunkId : str) (c c' : App.TextChunk) : Prop :=
  App.id c' = App.id c /\ App.fileName c' = App.fileName c /\
  App.index c' = App.index c /\ App.progress c' = App.progress c /\
  (App.id c <> chunkId -> c' = c).

(** The run of the handler on the first section of [demo_state] with
    services that succeed. *)
Definition demo_success : App.task bool :=
  App.handleGenerateTTS
    (restructureTextWithAI (fun _ => Returned None))
    (generateTTS pcm_speech pcm_atob blob_url)
    demo_state (lit "a") true.

(** What is claimed of a section of a new upload of the file [name] with
    the text [text]. *)
Definition fresh_section (name text : str) (c : App.TextChunk) : Prop :=
  App.status c = App.pending /\ App.audioUrl c = None /\
  App.fileName c = name /\ App.progress c = Some 0%Q /\
  section_ok (App.content c) /\
  bounded_section 3000 (split_delims (cleanTextForTTS text)) (App.content c).

(** A code unit that leaves nothing to read: a control character, a list
    glyph or whitespace. *)
Definition no_text (c : Z) : bool := is_control c || is_glyph c || is_ws c.

(** Ids for the examples: the [k]-th is [k] times the letter i. *)
Definition demo_uuid (k : nat) : str := replicate k 105.

(** The ids of the sections of the current page that are not ready, which
    are the ones [handleGenerateAllOnPage] may work on. *)
Definition page_targets (state : App.ExtendedAppState) : list str :=
  List.map App.id
    (List.filter (fun c => negb (Component.is_ready (App.status c)))
                 (Component.currentItems state)).

(** As [touches_only], for a list of ids. *)
Definition touches_among (ids : list str) (c c' : App.TextChunk) : Prop :=
  App.id c' = App.id c /\ App.fileName c' = App.fileName c /\
  App.index c' = App.index c /\ App.progress c' = App.progress c /\
  (~ In (App.id c) ids -> c' = c).


(** * Properties *)

(** ** Whitespace and trimming *)

Lemma trimStart_split s :
  exists w, s = w ++ trimStart s /\ blank w.
Proof.
  induction s as [|c s [w [E B]]]; simpl.
  - exists []. split; [reflexivity | constructor].
  - destruct (is_ws c) eqn:W.
    + exists (c :: w). split; [simpl; congruence | constructor; assumption].
    + exists []. split; [reflexivity | constructor].
Qed.

Lemma trimStart_head s c : head (trimStart s) = Some c -> is_ws c = false.
Proof.
  induction s as [|d s IH]; simpl; [discriminate|].
  destruct (is_ws d) eqn:W; [exact IH|].
  simpl. intros [= <-]. exact W.
Qed.

Lemma trimStart_fixed s :
  (forall c, head s = Some c -> is_ws c = false) -> trimStart s = s.
Proof.
  destruct s as [|c s]; simpl; [reflexivity|].
  intros H. rewrite (H c eq_refl). reflexivity.
Qed.

Lemma trimEnd_split s :
  exists w, s = trimEnd s ++ w /\ blank w.
Proof.
  induction s as [|c s [w [E B]]]; simpl.
  - exists []. split; [reflexivity | constructor].
  - destruct (trimEnd s) as [|t ts] eqn:T.
    + simpl in E. subst w.
      destruct (is_ws c) eqn:W.
      * exists (c :: s). split; [reflexivity | constructor; assumption].
      * exists s. split; [reflexivity | assumption].
    + exists w. split; [simpl; rewrite E at 1; reflexivity | assumption].
Qed.

Lemma trimEnd_last s c : last (trimEnd s) = Some c -> is_ws c = false.
Proof.
  induction s as [|d s IH]; simpl; [discriminate|].
  destruct (trimEnd s) as [|t ts] eqn:T.
  - destruct (is_ws d) eqn:W; simpl; [discriminate|].
    intros [= <-]. exact W.
  - intros H. apply IH. exact H.
Qed.

Lemma trimEnd_fixed s :
  (forall c, last s = Some c -> is_ws c = false) -> trimEnd s = s.
Proof.
  induction s as [|d s IH]; simpl; [reflexivity|].
  intros H. destruct s as [|e s].
  - simpl. rewrite (H d eq_refl). reflexivity.
  - rewrite IH; [reflexivity|]. intros c Hc. apply H. exact Hc.
Qed.

Lemma trimEnd_head s c :
  head (trimEnd s) = Some c -> head s = Some c.
Proof.
  destruct s as [|d s]; simpl; [discriminate|].
  destruct (trimEnd s); [destruct (is_ws d)|]; simpl; congruence.
Qed.

Lemma trim_head s c : head (trim s) = Some c -> is_ws c = false.
Proof.
  unfold trim. intros H. apply trimEnd_head in H.
  apply trimStart_head with (s := s). exact H.
Qed.

Lemma trim_last s c : last (trim s) = Some c -> is_ws c = false.
Proof. apply trimEnd_last. Qed.

Lemma trim_fixed s :
  (forall c, head s = Some c -> is_ws c = false) ->
  (forall c, last s = Some c -> is_ws c = false) ->
  trim s = s.
Proof.
  intros Hh Hl. unfold trim. rewrite (trimStart_fixed s Hh).
  apply trimEnd_fixed. exact Hl.
Qed.

Lemma trim_trim s : trim (trim s) = trim s.
Proof. apply trim_fixed; [apply trim_head | apply trim_last]. Qed.

Lemma trimStart_length s : (length (trimStart s) <= length s)%nat.
Proof.
  destruct (trimStart_split s) as [w [E _]].
  rewrite E at 2. rewrite length_app. lia.
Qed.

Lemma trimEnd_length s : (length (trimEnd s) <= length s)%nat.
Proof.
  destruct (trimEnd_split s) as [w [E _]].
  rewrite E at 2. rewrite length_app. lia.
Qed.

Lemma trim_length s : (length (trim s) <= length s)%nat.
Proof.
  unfold trim. pose proof (trimEnd_length (trimStart s)).
  pose proof (trimStart_length s). lia.
Qed.

Lemma trimStart_blank s : blank s -> trimStart s = [].
Proof.
  induction 1 as [|c s W _ IH]; simpl; [reflexivity|].
  rewrite W. exact IH.
Qed.

Lemma trim_blank s : blank s -> trim s = [].
Proof. intros B. unfold trim. rewrite (trimStart_blank s B). reflexivity. Qed.

(** ** The accumulation loop *)

Lemma fold_chunk_step_inv (P : acc -> Prop) maxChars segs :
  (forall a seg, In seg segs -> P a -> P (chunk_step maxChars a seg)) ->
  forall a, P a -> P (fold_left (chunk_step maxChars) segs a).
Proof.
  induction segs as [|seg segs IH]; simpl; intros Hstep a Ha; [exact Ha|].
  apply IH.
  - intros a' seg' Hin. apply Hstep. right. exact Hin.
  - apply Hstep; [left; reflexivity | exact Ha].
Qed.

Lemma flush_Forall (P : str -> Prop) a :
  Forall P (chunks a) ->
  (trim (currentChunk a) <> [] -> P (trim (currentChunk a))) ->
  Forall P (flush a).
Proof.
  intros Hc Hcur. unfold flush.
  destruct (trim (currentChunk a)) as [|c t] eqn:T; simpl; [exact Hc|].
  apply Forall_app. split; [exact Hc|].
  constructor; [apply Hcur; discriminate | constructor].
Qed.

(** ** Sections are trimmed and not blank *)

Lemma trim_section_ok s : trim s <> [] -> section_ok (trim s).
Proof.
  intros Hne. repeat split.
  - exact Hne.
  - apply trim_trim.
  - apply trim_head.
  - apply trim_last.
  - destruct (trim s) as [|c t] eqn:T; [congruence|].
    exists c. split; [left; reflexivity|].
    apply trim_head with (s := s). rewrite T. reflexivity.
Qed.

Lemma chunk_step_sections_ok maxChars a seg :
  Forall section_ok (chunks a) ->
  Forall section_ok (chunks (chunk_step maxChars a seg)).
Proof.
  intros H. unfold chunk_step.
  destruct (negb (truthy seg)); [exact H|].
  destruct (_ >? _); simpl; [|exact H].
  apply flush_Forall; [exact H | apply trim_section_ok].
Qed.

Lemma splitTextIntoChunks_sections_ok text maxChars :
  Forall section_ok (splitTextIntoChunks text maxChars).
Proof.
  unfold splitTextIntoChunks.
  apply flush_Forall; [|apply trim_section_ok].
  apply (fold_chunk_step_inv (fun a => Forall section_ok (chunks a))).
  - intros a seg _. apply chunk_step_sections_ok.
  - constructor.
Qed.

(** A blank text is normalised to the empty string. *)

Lemma remove_class_blank cls s : blank s -> blank (remove_class cls s).
Proof.
  induction 1 as [|c s W _ IH]; simpl; [constructor|].
  destruct (negb (cls c)); [constructor; assumption | exact IH].
Qed.

Lemma replace_class_blank cls r s :
  is_ws r = true -> blank s -> blank (replace_class cls r s).
Proof.
  intros Hr. induction 1 as [|c s W _ IH]; simpl; constructor; [|exact IH].
  destruct (cls c); assumption.
Qed.

Lemma replace_class_none cls r s :
  Forall (fun c => cls c = false) s -> replace_class cls r s = s.
Proof.
  induction 1 as [|c s W _ IH]; simpl; [reflexivity|].
  rewrite W. f_equal. exact IH.
Qed.

Lemma space_after_absent at_end p s :
  Forall (fun c => c <> p) s -> space_after at_end p s = s.
Proof.
  induction 1 as [|c s W _ IH]; simpl; [reflexivity|].
  destruct (Z.eqb_spec c p); [contradiction|]. f_equal. exact IH.
Qed.

Lemma collapse_runs_absent c k r s :
  k <> O -> Forall (fun d => d <> c) s -> collapse_runs c k r s = s.
Proof.
  intros Hk. unfold collapse_runs.
  induction 1 as [|d s W _ IH]; simpl.
  - destruct k; [contradiction | reflexivity].
  - destruct (Z.eqb_spec d c); [contradiction|].
    rewrite IH. destruct k; [contradiction | reflexivity].
Qed.

Lemma blank_not (p : Z) s : is_ws p = false -> blank s -> Forall (fun c => c <> p) s.
Proof.
  intros Hp. apply List.Forall_impl. intros c W E. subst c. congruence.
Qed.

Lemma blank_no_class (cls : Z -> bool) s :
  (forall c, cls c = true -> is_ws c = false) ->
  blank s -> Forall (fun c => cls c = false) s.
Proof.
  intros Hc. apply List.Forall_impl. intros c W.
  destruct (cls c) eqn:E; [|reflexivity].
  apply Hc in E. congruence.
Qed.

Lemma is_dquote_not_ws c : is_dquote c = true -> is_ws c = false.
Proof.
  unfold is_dquote. rewrite !orb_true_iff, !Z.eqb_eq.
  intros [[->| ->]| ->]; reflexivity.
Qed.

Lemma is_squote_not_ws c : is_squote c = true -> is_ws c = false.
Proof.
  unfold is_squote. rewrite !orb_true_iff, !Z.eqb_eq.
  intros [[->| ->]| ->]; reflexivity.
Qed.

Lemma remove_class_no_control s :
  Forall (fun c => is_control c = false) (remove_class is_control s).
Proof.
  apply List.Forall_forall. intros c Hc. apply filter_In in Hc as [_ Hc].
  apply negb_true_iff. exact Hc.
Qed.

Lemma replace_class_no_control cls r s :
  is_control r = false ->
  Forall (fun c => is_control c = false) s ->
  Forall (fun c => is_control c = false) (replace_class cls r s).
Proof.
  intros Hr. induction 1 as [|c s W _ IH]; simpl; constructor; [|exact IH].
  destruct (cls c); assumption.
Qed.

Lemma no_control_not (p : Z) s :
  is_control p = true ->
  Forall (fun c => is_control c = false) s -> Forall (fun c => c <> p) s.
Proof.
  intros Hp. apply List.Forall_impl. intros c W E. subst c. congruence.
Qed.

Lemma cleanTextForTTS_blank text : blank text -> cleanTextForTTS text = [].
Proof.
  intros B. unfold cleanTextForTTS.
  apply (remove_class_blank is_control) in B.
  apply (replace_class_blank is_glyph 32 _ eq_refl) in B.
  set (t := replace_class is_glyph 32 (remove_class is_control text)) in *.
  rewrite (space_after_absent true dot t) by (apply blank_not; easy).
  rewrite (space_after_absent true qmark t) by (apply blank_not; easy).
  rewrite (space_after_absent true bang t) by (apply blank_not; easy).
  rewrite (space_after_absent false comma t) by (apply blank_not; easy).
  rewrite (collapse_runs_absent newline 3) by
    (first [discriminate
           | apply no_control_not; [reflexivity|];
             apply replace_class_no_control; [reflexivity|];
             apply remove_class_no_control]).
  rewrite (collapse_runs_absent bang 3) by (first [discriminate | apply blank_not; easy]).
  rewrite (collapse_runs_absent qmark 3) by (first [discriminate | apply blank_not; easy]).
  rewrite (collapse_runs_absent dot 4) by (first [discriminate | apply blank_not; easy]).
  rewrite (replace_class_none is_dquote) by
    (apply blank_no_class; [apply is_dquote_not_ws | exact B]).
  rewrite (replace_class_none is_squote) by
    (apply blank_no_class; [apply is_squote_not_ws | exact B]).
  apply trim_blank. exact B.
Qed.

(** C10. Every section returned by [splitTextIntoChunks] is non-empty, is
    its own trim (its first and its last code unit are not whitespace) and
    holds a code unit that is not whitespace; a text that is empty or made
    of whitespace only gives no section at all. *)
Theorem splitTextIntoChunks_sections_trimmed text maxChars :
  Forall section_ok (splitTextIntoChunks text maxChars) /\
  (blank text -> splitTextIntoChunks text maxChars = []).
Proof.
  split; [apply splitTextIntoChunks_sections_ok|].
  intros B. unfold splitTextIntoChunks.
  rewrite (cleanTextForTTS_blank text B). reflexivity.
Qed.

Lemma splitTextIntoChunks_sections_trimmed_witness :
  blank (lit " ") /\ splitTextIntoChunks (lit " ") 3000 = [].
Proof.
  assert (B : blank (lit " ")) by (repeat constructor).
  split; [exact B|].
  exact (proj2 (splitTextIntoChunks_sections_trimmed (lit " ") 3000) B).
Defined.

(** ** The size of a section *)

Lemma bounded_current_flush maxChars segments a :
  Forall (bounded_section maxChars segments) (chunks a) ->
  bounded_current maxChars segments (currentChunk a) ->
  Forall (bounded_section maxChars segments) (flush a).
Proof.
  intros Hc Hcur. apply flush_Forall; [exact Hc|]. intros Hne.
  destruct Hcur as [E | [Hle | [Hin Hgt]]].
  - rewrite E in Hne. contradiction.
  - left. unfold strlen in *. pose proof (trim_length (currentChunk a)). lia.
  - right. exists (currentChunk a). auto.
Qed.

Lemma chunk_step_bounded maxChars segments a seg :
  In seg segments ->
  Forall (bounded_section maxChars segments) (chunks a) /\
  bounded_current maxChars segments (currentChunk a) ->
  Forall (bounded_section maxChars segments) (chunks (chunk_step maxChars a seg)) /\
  bounded_current maxChars segments (currentChunk (chunk_step maxChars a seg)).
Proof.
  intros Hin [Hc Hcur]. unfold chunk_step.
  destruct (negb (truthy seg)); [split; assumption|].
  destruct (Z.gtb_spec (Z.of_nat (length (currentChunk a)) + Z.of_nat (length seg))
                       maxChars) as [Hgt|Hle]; simpl.
  - split; [apply bounded_current_flush; assumption|].
    destruct (Z_le_gt_dec (strlen seg) maxChars) as [Hs|Hs].
    + right. left. exact Hs.
    + right. right. split; [exact Hin | lia].
  - split; [exact Hc|]. right. left.
    unfold strlen. rewrite length_app. lia.
Qed.

Lemma splitTextIntoChunks_bounded text maxChars :
  Forall (bounded_section maxChars (split_delims (cleanTextForTTS text)))
         (splitTextIntoChunks text maxChars).
Proof.
  unfold splitTextIntoChunks.
  set (segments := split_delims (cleanTextForTTS text)).
  pose proof (fold_chunk_step_inv
    (fun a => Forall (bounded_section maxChars segments) (chunks a) /\
              bounded_current maxChars segments (currentChunk a))
    maxChars segments (chunk_step_bounded maxChars segments)
    {| chunks := []; currentChunk := [] |}) as H.
  destruct H as [Hc Hcur].
  - split; [constructor | left; reflexivity].
  - apply bounded_current_flush; assumption.
Qed.

(** *** A segment longer than the limit is a section *)

Lemma split_go_heads s :
  forall skip cur,
  (forall c, head cur = Some c -> is_ws c = false) ->
  (cur = [] -> skip = false -> forall c, head s = Some c -> is_ws c = false) ->
  Forall (fun seg => (length seg <= 1)%nat \/
                     forall c, head seg = Some c -> is_ws c = false)
         (split_go skip cur s).
Proof.
  induction s as [|c s IH]; intros skip cur H1 H2; cbn [split_go].
  - constructor; [right; exact H1 | constructor].
  - destruct (skip && is_ws c) eqn:E.
    + apply IH; [exact H1|]. intros _ Hs.
      apply andb_true_iff in E as [-> _]. discriminate Hs.
    + destruct (is_delim c).
      * constructor; [right; exact H1|].
        constructor; [left; simpl; lia|].
        apply IH; [discriminate|]. intros _ Hs. discriminate Hs.
      * apply IH.
        -- intros d Hd. destruct cur as [|x cur]; [|apply H1; exact Hd].
           injection Hd as <-. destruct skip.
           ++ exact E.
           ++ apply (H2 eq_refl eq_refl). reflexivity.
        -- intros Hnil. destruct cur; discriminate Hnil.
Qed.

Lemma split_delims_heads text :
  Forall (fun seg => (length seg <= 1)%nat \/
                     forall c, head seg = Some c -> is_ws c = false)
         (split_delims (cleanTextForTTS text)).
Proof.
  apply split_go_heads; [discriminate|].
  intros _ _ c. unfold cleanTextForTTS. apply trim_head.
Qed.

Lemma trimEnd_nonempty s c :
  head s = Some c -> is_ws c = false -> trimEnd s <> [].
Proof.
  destruct s as [|d s]; [discriminate|]. intros [= ->] W. cbn [trimEnd].
  destruct (trimEnd s); [rewrite W|]; discriminate.
Qed.

Lemma chunk_step_keeps maxChars a seg x :
  In x (chunks a) -> In x (chunks (chunk_step maxChars a seg)).
Proof.
  intros H. unfold chunk_step.
  destruct (negb (truthy seg)); [exact H|].
  destruct (_ >? _); cbn [chunks]; [|exact H].
  unfold flush. destruct (truthy _); [apply in_or_app; left|]; exact H.
Qed.

Lemma fold_chunk_step_keeps maxChars segs :
  forall a x,
  In x (chunks a) -> In x (flush (fold_left (chunk_step maxChars) segs a)).
Proof.
  induction segs as [|seg segs IH]; intros a x H; cbn [fold_left].
  - unfold flush. destruct (truthy _); [apply in_or_app; left|]; exact H.
  - apply IH, chunk_step_keeps, H.
Qed.

Lemma fold_chunk_step_held maxChars segs :
  forall a,
  maxChars < strlen (currentChunk a) -> trim (currentChunk a) <> [] ->
  In (trim (currentChunk a)) (flush (fold_left (chunk_step maxChars) segs a)).
Proof.
  induction segs as [|seg segs IH]; intros a Hlen Ht; cbn [fold_left].
  - unfold flush. destruct (trim (currentChunk a)) eqn:T; [contradiction|].
    cbn [truthy]. apply in_or_app. right. left. reflexivity.
  - unfold chunk_step. destruct seg as [|x seg]; cbn [truthy negb];
      [apply IH; assumption|].
    unfold strlen in Hlen.
    destruct (Z.gtb_spec (Z.of_nat (length (currentChunk a))
                          + Z.of_nat (length (x :: seg))) maxChars) as [_|Hle];
      [|lia].
    apply fold_chunk_step_keeps. cbn [chunks]. unfold flush.
    destruct (trim (currentChunk a)) eqn:T; [contradiction|].
    cbn [truthy]. apply in_or_app. right. left. reflexivity.
Qed.

Lemma fold_chunk_step_oversized maxChars segs :
  forall a seg,
  In seg segs -> maxChars < strlen seg -> seg <> [] -> trim seg <> [] ->
  In (trim seg) (flush (fold_left (chunk_step maxChars) segs a)).
Proof.
  induction segs as [|s segs IH]; intros a seg Hin Hlen Hne Ht;
    [destruct Hin|].
  cbn [fold_left]. destruct Hin as [->|Hin]; [|apply IH; assumption].
  unfold chunk_step. destruct seg as [|x seg]; [contradiction|].
  cbn [truthy negb]. unfold strlen in Hlen.
  destruct (Z.gtb_spec (Z.of_nat (length (currentChunk a))
                        + Z.of_nat (length (x :: seg))) maxChars) as [_|Hle];
    [|lia].
  apply (fold_chunk_step_held maxChars segs
           {| chunks := flush a; currentChunk := x :: seg |});
    [exact Hlen | exact Ht].
Qed.

Lemma splitTextIntoChunks_oversized text maxChars seg :
  0 < maxChars ->
  In seg (split_delims (cleanTextForTTS text)) -> maxChars < strlen seg ->
  In (trim seg) (splitTextIntoChunks text maxChars) /\
  trim seg <> [] /\
  exists w, seg = trim seg ++ w /\ blank w.
Proof.
  intros Hm Hin Hlen.
  pose proof (split_delims_heads text) as H.
  rewrite List.Forall_forall in H. specialize (H seg Hin).
  unfold strlen in Hlen.
  destruct H as [H|H]; [lia|].
  assert (Hstart : trimStart seg = seg) by (apply trimStart_fixed, H).
  assert (Hne : seg <> []) by (intros ->; simpl in Hlen; lia).
  assert (Ht : trim seg <> []).
  { unfold trim. rewrite Hstart. destruct seg as [|c seg]; [contradiction|].
    apply (trimEnd_nonempty _ c); [reflexivity | apply H; reflexivity]. }
  split; [|split; [exact Ht|]].
  - unfold splitTextIntoChunks.
    apply fold_chunk_step_oversized; assumption.
  - unfold trim. rewrite Hstart. apply trimEnd_split.
Qed.

(** C2. For a positive [maxChars], a section is longer than [maxChars] only
    when it is a single segment of the delimiter split whose own length
    exceeds [maxChars]; and every such segment is emitted whole, as a
    section of its own: it is a member of the result, with nothing but the
    whitespace at its end trimmed, never cut and never dropped. *)
Theorem splitTextIntoChunks_size text maxChars :
  0 < maxChars ->
  Forall (bounded_section maxChars (split_delims (cleanTextForTTS text)))
         (splitTextIntoChunks text maxChars) /\
  forall seg,
    In seg (split_delims (cleanTextForTTS text)) -> maxChars < strlen seg ->
    In (trim seg) (splitTextIntoChunks text maxChars) /\
    trim seg <> [] /\
    exists w, seg = trim seg ++ w /\ blank w.
Proof.
  intros Hm. split; [apply splitTextIntoChunks_bounded|].
  intros seg. apply splitTextIntoChunks_oversized. exact Hm.
Qed.

Lemma splitTextIntoChunks_size_witness :
  0 < 4 /\
  Forall (bounded_section 4 (split_delims (cleanTextForTTS (lit "Hello world. Bye."))))
         (splitTextIntoChunks (lit "Hello world. Bye.") 4) /\
  In (lit "Hello world")
     (split_delims (cleanTextForTTS (lit "Hello world. Bye."))) /\
  4 < strlen (lit "Hello world") /\
  In (trim (lit "Hello world")) (splitTextIntoChunks (lit "Hello world. Bye.") 4).
Proof.
  assert (H0 : 0 < 4) by lia.
  assert (Hin : In (lit "Hello world")
                   (split_delims (cleanTextForTTS (lit "Hello world. Bye."))))
    by (left; reflexivity).
  assert (Hlen : 4 < strlen (lit "Hello world")) by (vm_compute; reflexivity).
  destruct (splitTextIntoChunks_size (lit "Hello world. Bye.") 4 H0)
    as [Hb Hover].
  split; [exact H0|]. split; [exact Hb|]. split; [exact Hin|].
  split; [exact Hlen|].
  exact (proj1 (Hover (lit "Hello world") Hin Hlen)).
Defined.

(** ** Examples of the normaliser and of the chunker *)

(** C4. On [Hello.World!!!!] the normaliser puts a space after the period,
    and then the spacing rule for [!] rewrites the four exclamation marks,
    two by two, before the rule that collapses runs of three or more can
    see them: the result is [Hello. World! !! !], not [Hello. World!!]. *)
Theorem cleanTextForTTS_hello_world :
  cleanTextForTTS (lit "Hello.World!!!!") = lit "Hello. World! !! !" /\
  cleanTextForTTS (lit "Hello.World!!!!") <> lit "Hello. World!!".
Proof. split; [reflexivity | discriminate]. Qed.

(** Against C5 as stated: the three sections [A.], [B.], [C.] are not what
    the chunker returns for [A. B. C.] and a limit of 4. *)
Lemma splitTextIntoChunks_abc_not_three :
  splitTextIntoChunks (lit "A. B. C.") 4 <> [lit "A."; lit "B."; lit "C."].
Proof. discriminate. Qed.

(** C5 as amended. [splitTextIntoChunks] of [A. B. C.] with a limit of 4
    returns two sections, [A.B.] and [C.]: the whitespace after a delimiter
    is consumed by the split, and the four code units of [A.B.] do not
    exceed the limit. *)
Theorem splitTextIntoChunks_abc :
  splitTextIntoChunks (lit "A. B. C.") 4 = [lit "A.B."; lit "C."].
Proof. reflexivity. Qed.

(** ** What the sections keep of the normalised text *)

Create HintDb ws.
#[local] Hint Constructors ws_erased : ws.

Lemma ws_erased_refl s : ws_erased s s.
Proof. induction s; auto with ws. Qed.

Lemma ws_erased_blank w : blank w -> ws_erased [] w.
Proof. induction 1; auto with ws. Qed.

Lemma ws_erased_app a b a' b' :
  ws_erased a b -> ws_erased a' b' -> ws_erased (a ++ a') (b ++ b').
Proof. induction 1; simpl; auto with ws. Qed.

Lemma ws_erased_trans a b c :
  ws_erased a b -> ws_erased b c -> ws_erased a c.
Proof.
  intros Hab Hbc. revert a Hab.
  induction Hbc as [|x b c Hbc IH|w b c W Hbc IH]; intros a Hab.
  - exact Hab.
  - inversion Hab; subst; auto with ws.
  - auto with ws.
Qed.

Lemma ws_erased_trim s : ws_erased (trim s) s.
Proof.
  unfold trim.
  destruct (trimStart_split s) as [w [E B]].
  destruct (trimEnd_split (trimStart s)) as [w' [E' B']].
  rewrite E at 2. rewrite E' at 2.
  change (trimEnd (trimStart s)) with ([] ++ trimEnd (trimStart s)) at 1.
  apply ws_erased_app; [apply ws_erased_blank; exact B|].
  rewrite <- (app_nil_r (trimEnd (trimStart s))) at 1.
  apply ws_erased_app; [apply ws_erased_refl | apply ws_erased_blank; exact B'].
Qed.

Lemma ws_erased_filter a b :
  ws_erased a b ->
  List.filter (fun c => negb (is_ws c)) a = List.filter (fun c => negb (is_ws c)) b.
Proof.
  induction 1 as [|c a b _ IH|w a b W _ IH]; simpl.
  - reflexivity.
  - rewrite IH. reflexivity.
  - rewrite W. exact IH.
Qed.

Lemma split_go_erased s :
  forall skip cur, (skip = true -> cur = []) ->
  ws_erased (concat (split_go skip cur s)) (cur ++ s).
Proof.
  induction s as [|c s IH]; intros skip cur Hskip; simpl.
  - apply ws_erased_refl.
  - destruct (skip && is_ws c) eqn:E.
    + apply andb_true_iff in E as [-> W]. rewrite (Hskip eq_refl). simpl.
      apply we_drop; [exact W|]. apply (IH true []). reflexivity.
    + destruct (is_delim c).
      * simpl. apply ws_erased_app; [apply ws_erased_refl|].
        apply we_keep. apply (IH true []). reflexivity.
      * replace (cur ++ c :: s) with ((cur ++ [c]) ++ s)
          by (rewrite <- app_assoc; reflexivity).
        apply IH. discriminate.
Qed.

Lemma flush_erased a :
  ws_erased (concat (flush a)) (concat (chunks a) ++ currentChunk a).
Proof.
  unfold flush. pose proof (ws_erased_trim (currentChunk a)) as T.
  destruct (trim (currentChunk a)) as [|c t]; simpl.
  - rewrite <- (app_nil_r (concat (chunks a))) at 1.
    apply ws_erased_app; [apply ws_erased_refl | exact T].
  - rewrite concat_app. simpl. rewrite app_nil_r.
    apply ws_erased_app; [apply ws_erased_refl | exact T].
Qed.

Lemma chunk_step_erased maxChars a seg pre :
  ws_erased (concat (chunks a) ++ currentChunk a) pre ->
  ws_erased (concat (chunks (chunk_step maxChars a seg)) ++
             currentChunk (chunk_step maxChars a seg)) (pre ++ seg).
Proof.
  intros H. unfold chunk_step.
  destruct seg as [|x seg]; simpl.
  - rewrite app_nil_r. exact H.
  - destruct (_ >? _); simpl.
    + apply ws_erased_app; [|apply ws_erased_refl].
      eapply ws_erased_trans; [apply flush_erased | exact H].
    + rewrite app_assoc.
      apply ws_erased_app; [exact H | apply ws_erased_refl].
Qed.

Lemma fold_chunk_step_erased maxChars segs :
  forall a pre,
  ws_erased (concat (chunks a) ++ currentChunk a) pre ->
  ws_erased (concat (flush (fold_left (chunk_step maxChars) segs a)))
            (pre ++ concat segs).
Proof.
  induction segs as [|seg segs IH]; intros a pre H; simpl.
  - rewrite app_nil_r.
    eapply ws_erased_trans; [apply flush_erased | exact H].
  - rewrite app_assoc. apply IH. apply chunk_step_erased. exact H.
Qed.

(** Against C1 as stated: for [A.  B], with two spaces, the one section is
    [A.B] while the normalised text keeps both spaces; no way of putting
    single whitespace units back gives the normalised text. *)
Lemma splitTextIntoChunks_loses_whitespace :
  single_ws_gaps false (concat (splitTextIntoChunks (lit "A.  B") 3000))
                       (cleanTextForTTS (lit "A.  B")) = false /\
  splitTextIntoChunks (lit "A.  B") 3000 = [lit "A.B"] /\
  cleanTextForTTS (lit "A.  B") = lit "A.  B".
Proof. repeat split. Qed.

(** *** Where whitespace is lost, and only there *)

Lemma split_go_squeeze s :
  forall skip cur, concat (split_go skip cur s) = cur ++ squeeze skip s.
Proof.
  induction s as [|c s IH]; intros skip cur; cbn [split_go squeeze].
  - cbn [concat]. rewrite !app_nil_r. reflexivity.
  - destruct (skip && is_ws c); [apply IH|].
    destruct (is_delim c).
    + cbn [concat]. rewrite IH. reflexivity.
    + rewrite IH, <- app_assoc. reflexivity.
Qed.

Lemma sections_of_snoc groups g :
  sections_of (groups ++ [g])
  = sections_of groups ++ List.filter truthy [trim (concat g)].
Proof.
  unfold sections_of. rewrite List.map_app, List.filter_app. reflexivity.
Qed.

Lemma flush_sections_of a groups cur :
  chunks a = sections_of groups -> currentChunk a = concat cur ->
  flush a = sections_of (groups ++ [cur]).
Proof.
  intros Hc Hcur. rewrite sections_of_snoc. unfold flush.
  rewrite Hc, Hcur. cbn [List.filter].
  destruct (truthy (trim (concat cur)));
    [reflexivity | rewrite app_nil_r; reflexivity].
Qed.

Lemma fold_chunk_step_groups maxChars segs :
  forall a groups cur,
  chunks a = sections_of groups -> currentChunk a = concat cur ->
  exists groups',
    concat groups' = concat groups ++ cur ++ segs /\
    flush (fold_left (chunk_step maxChars) segs a) = sections_of groups'.
Proof.
  induction segs as [|seg segs IH]; intros a groups cur Hc Hcur.
  - exists (groups ++ [cur]). split.
    + rewrite concat_app. cbn [concat]. rewrite !app_nil_r. reflexivity.
    + apply flush_sections_of; assumption.
  - cbn [fold_left]. unfold chunk_step at 2.
    destruct seg as [|x seg]; cbn [truthy negb].
    + destruct (IH a groups (cur ++ [[]])) as (groups' & E & F);
        [exact Hc | rewrite concat_app, Hcur; cbn [concat];
                    rewrite !app_nil_r; reflexivity|].
      exists groups'. split; [|exact F].
      rewrite E, <- app_assoc. reflexivity.
    + destruct (_ >? _).
      * destruct (IH {| chunks := flush a; currentChunk := x :: seg |}
                     (groups ++ [cur]) [x :: seg])
          as (groups' & E & F).
        { cbn [chunks]. apply flush_sections_of; assumption. }
        { cbn [currentChunk concat]. rewrite app_nil_r. reflexivity. }
        exists groups'. split; [|exact F].
        rewrite E, concat_app. cbn [concat]. rewrite app_nil_r, <- app_assoc.
        reflexivity.
      * destruct (IH {| chunks := chunks a;
                        currentChunk := currentChunk a ++ x :: seg |}
                     groups (cur ++ [x :: seg]))
          as (groups' & E & F).
        { exact Hc. }
        { cbn [currentChunk]. rewrite concat_app, Hcur. cbn [concat].
          rewrite app_nil_r. reflexivity. }
        exists groups'. split; [|exact F].
        rewrite E, <- app_assoc. reflexivity.
Qed.

Lemma splitTextIntoChunks_groups text maxChars :
  exists groups,
    concat groups = split_delims (cleanTextForTTS text) /\
    splitTextIntoChunks text maxChars = sections_of groups.
Proof.
  unfold splitTextIntoChunks.
  destruct (fold_chunk_step_groups maxChars
              (split_delims (cleanTextForTTS text))
              {| chunks := []; currentChunk := [] |} [] [])
    as (groups & E & F); [reflexivity..|].
  exists groups. split; [exact E | exact F].
Qed.

(** C1 as amended. The sections of [splitTextIntoChunks] are made from the
    normalised text in this way and no other: every run of whitespace that
    directly follows a delimiter is deleted (the whole run, inside a section
    as well as between two sections), which gives the segments of the split;
    the list of segments is cut into groups of consecutive segments; and
    every group, joined, is trimmed, a blank one giving no section.  So
    whitespace is lost directly behind a delimiter and at the two ends of a
    section, and nowhere else; every other code unit, whitespace included,
    is kept once and in order. *)
Theorem splitTextIntoChunks_keeps_text text maxChars :
  (exists groups,
     concat groups = split_delims (cleanTextForTTS text) /\
     splitTextIntoChunks text maxChars = sections_of groups) /\
  concat (split_delims (cleanTextForTTS text))
    = squeeze false (cleanTextForTTS text) /\
  ws_erased (concat (splitTextIntoChunks text maxChars)) (cleanTextForTTS text) /\
  List.filter (fun c => negb (is_ws c)) (concat (splitTextIntoChunks text maxChars))
  = List.filter (fun c => negb (is_ws c)) (cleanTextForTTS text).
Proof.
  assert (H : ws_erased (concat (splitTextIntoChunks text maxChars))
                        (cleanTextForTTS text)).
  { unfold splitTextIntoChunks, split_delims.
    eapply ws_erased_trans.
    - apply (fold_chunk_step_erased maxChars _ {| chunks := []; currentChunk := [] |} []).
      constructor.
    - apply (split_go_erased (cleanTextForTTS text) false []). discriminate. }
  split; [apply splitTextIntoChunks_groups|].
  split; [apply (split_go_squeeze (cleanTextForTTS text) false [])|].
  split; [exact H | apply ws_erased_filter; exact H].
Qed.

(** ** Idempotence of the normaliser *)

(** Three periods are normalised to [. ..], and a second pass changes that
    to [. . .]. *)
Lemma cleanTextForTTS_not_idempotent :
  cleanTextForTTS (cleanTextForTTS (lit "...")) <> cleanTextForTTS (lit "...") /\
  cleanTextForTTS (lit "...") = lit ". .." /\
  cleanTextForTTS (lit ". ..") = lit ". . .".
Proof. repeat split. discriminate. Qed.

Section Spacing.

Variable p : Z.
Hypothesis p_not_ws : is_ws p = false.

Lemma p_not_space : (32 =? p) = false.
Proof. apply Z.eqb_neq. intros <-. discriminate p_not_ws. Qed.

Lemma ws_not_p d : is_ws d = true -> (d =? p) = false.
Proof. intros W. apply Z.eqb_neq. intros ->. congruence. Qed.

Lemma space_after_other at_end c s :
  (c =? p) = false ->
  space_after at_end p (c :: s) = c :: space_after at_end p s.
Proof. intros E. simpl. rewrite E. reflexivity. Qed.

Lemma space_after_lookahead at_end s :
  all_next (not_doubled p) s = true ->
  space_after at_end p s = insert_space at_end p s.
Proof.
  induction s as [|c rest IH]; [reflexivity|].
  intros H. simpl in H. apply andb_true_iff in H as [Hc Hrest].
  specialize (IH Hrest). simpl.
  unfold followed_by_ws, not_doubled in *.
  destruct (c =? p) eqn:Ec; simpl in *.
  - apply Z.eqb_eq in Ec. subst c.
    destruct rest as [|d rest']; simpl in *.
    + destruct at_end; reflexivity.
    + destruct (is_ws d) eqn:W; [f_equal; exact IH|].
      apply negb_true_iff in Hc.
      rewrite Hc in IH. do 2 f_equal. exact IH.
  - f_equal. exact IH.
Qed.

Lemma insert_space_head at_end s :
  head (insert_space at_end p s) = head s.
Proof.
  destruct s as [|c rest]; [reflexivity|]. simpl.
  destruct (followed_by_ws at_end p c (head rest)); reflexivity.
Qed.

(** After the rule, every occurrence of the mark is followed by
    whitespace. *)
Lemma insert_space_spaced at_end s : spaced at_end p (insert_space at_end p s).
Proof.
  unfold spaced. induction s as [|c rest IH]; [reflexivity|]. simpl.
  destruct (followed_by_ws at_end p c (head rest)) eqn:F; cbn [all_next head].
  - rewrite insert_space_head, F. exact IH.
  - rewrite IH. unfold followed_by_ws.
    rewrite p_not_space. change (is_ws 32) with true.
    rewrite orb_true_r. reflexivity.
Qed.

(** The rule keeps what holds of every unit and its successor, provided
    the inserted space is harmless. *)
Lemma insert_space_all_next (R : Z -> option Z -> bool) at_end s :
  R p (Some 32) = true -> (forall nx, R 32 nx = true) ->
  all_next R s = true -> all_next R (insert_space at_end p s) = true.
Proof.
  intros Rp Rs. induction s as [|c rest IH]; [reflexivity|]. simpl.
  intros H. apply andb_true_iff in H as [Hc Hrest].
  destruct (followed_by_ws at_end p c (head rest)) eqn:F; simpl.
  - rewrite insert_space_head, Hc. exact (IH Hrest).
  - unfold followed_by_ws in F. apply orb_false_iff in F as [F _].
    apply negb_false_iff, Z.eqb_eq in F. subst c.
    rewrite Rp, Rs. exact (IH Hrest).
Qed.

Lemma insert_space_Forall (P : Z -> Prop) at_end s :
  P 32 -> Forall P s -> Forall P (insert_space at_end p s).
Proof.
  intros P32. induction 1 as [|c rest Hc _ IH]; simpl; [constructor|].
  destruct (followed_by_ws at_end p c (head rest)); repeat constructor; assumption.
Qed.

(** Where every occurrence is already followed by whitespace, the rule
    changes nothing, except for the space it appends to a final mark. *)
Lemma space_after_spaced at_end s :
  spaced at_end p s -> space_after at_end p s = s.
Proof.
  unfold spaced. induction s as [|c rest IH]; [reflexivity|]. simpl.
  intros H. apply andb_true_iff in H as [Hc Hrest]. specialize (IH Hrest).
  unfold followed_by_ws in Hc.
  destruct (c =? p) eqn:Ec; simpl in Hc; [|f_equal; exact IH].
  destruct rest as [|d rest']; simpl in Hc.
  - destruct at_end; [discriminate | reflexivity].
  - rewrite Hc. f_equal. exact IH.
Qed.

Lemma space_after_final s :
  spaced false p s ->
  space_after true p s =
    s ++ (if bool_decide (last s = Some p) then [32] else []).
Proof.
  unfold spaced. induction s as [|c rest IH]; [reflexivity|].
  intros H. simpl in H. apply andb_true_iff in H as [Hc Hrest].
  specialize (IH Hrest). unfold followed_by_ws in Hc.
  destruct (c =? p) eqn:Ec; simpl in Hc.
  - apply Z.eqb_eq in Ec. subst c.
    destruct rest as [|d rest'].
    + simpl. rewrite Z.eqb_refl. rewrite bool_decide_eq_true_2; reflexivity.
    + simpl in Hc. change (space_after true p (p :: d :: rest'))
        with (if p =? p then if is_ws d then p :: space_after true p (d :: rest')
                             else p :: 32 :: d :: space_after true p rest'
              else p :: space_after true p (d :: rest')).
      rewrite Z.eqb_refl, Hc, IH. reflexivity.
  - rewrite space_after_other by exact Ec. rewrite IH.
    destruct rest as [|d rest']; [|reflexivity].
    simpl. rewrite bool_decide_eq_false_2; [reflexivity|].
    intros [= E]. subst c. rewrite Z.eqb_refl in Ec. discriminate.
Qed.

Lemma spaced_app_space strict s : spaced false p s -> spaced strict p (s ++ [32]).
Proof.
  unfold spaced. induction s as [|c rest IH]; simpl.
  - intros _. unfold followed_by_ws. rewrite p_not_space. reflexivity.
  - intros H. apply andb_true_iff in H as [Hc Hrest].
    rewrite (IH Hrest), andb_true_r.
    unfold followed_by_ws in *. destruct (c =? p); simpl in *; [|reflexivity].
    destruct rest; simpl in *; [reflexivity | exact Hc].
Qed.

Lemma spaced_relax strict s : spaced strict p s -> spaced false p s.
Proof.
  unfold spaced. induction s as [|c rest IH]; simpl; [reflexivity|].
  intros H. apply andb_true_iff in H as [Hc Hrest].
  rewrite (IH Hrest), andb_true_r.
  unfold followed_by_ws in *. destruct (c =? p); simpl in *; [|reflexivity].
  destruct (head rest); [exact Hc | reflexivity].
Qed.

(** A spaced text has no run of two marks, so the collapsing rules leave
    it as it is. *)
Lemma collapse_go_spaced strict k r s :
  (2 <= k)%nat -> spaced strict p s ->
  forall n, (n <= 1)%nat -> (n = 1%nat -> head s <> Some p) ->
  collapse_go p k r n s = replicate n p ++ s.
Proof.
  intros Hk. unfold spaced. induction s as [|d rest IH]; intros H n Hn Hhead.
  - simpl. unfold flush_run.
    destruct (Nat.leb_spec k n); [lia|]. rewrite app_nil_r. reflexivity.
  - simpl in H. apply andb_true_iff in H as [Hd Hrest]. simpl.
    destruct (d =? p) eqn:Ed.
    + apply Z.eqb_eq in Ed. subst d.
      assert (n = 0%nat) as -> by (destruct n as [|[|n]]; [reflexivity| |lia];
                                   exfalso; apply Hhead; reflexivity).
      rewrite (IH Hrest 1%nat) by
        (try lia; intros _ E; unfold followed_by_ws in Hd;
         rewrite Z.eqb_refl, E in Hd; simpl in Hd; congruence).
      reflexivity.
    + rewrite (IH Hrest 0%nat) by (try lia; discriminate).
      unfold flush_run. destruct (Nat.leb_spec k n); [lia|]. reflexivity.
Qed.

Lemma collapse_runs_spaced strict k r s :
  (2 <= k)%nat -> spaced strict p s -> collapse_runs p k r s = s.
Proof.
  intros Hk H. unfold collapse_runs.
  rewrite (collapse_go_spaced strict k r s Hk H 0%nat); [reflexivity|lia|lia].
Qed.

End Spacing.

(** What the one-unit replacements and the trimming keep. *)

Lemma replace_class_head cls r s :
  head (replace_class cls r s) = (fun c => if cls c then r else c) <$> head s.
Proof. destruct s; reflexivity. Qed.

Lemma replace_class_eqb (cls : Z -> bool) r p c :
  cls p = false -> (r =? p) = false ->
  ((if cls c then r else c) =? p) = (c =? p).
Proof.
  intros Hp Hr. destruct (cls c) eqn:E; [|reflexivity].
  rewrite Hr. symmetry. apply Z.eqb_neq. intros ->. congruence.
Qed.

Lemma replace_class_not_doubled cls r p s :
  cls p = false -> (r =? p) = false ->
  all_next (not_doubled p) (replace_class cls r s) = all_next (not_doubled p) s.
Proof.
  intros Hp Hr. induction s as [|c rest IH]; [reflexivity|].
  cbn [replace_class List.map all_next].
  fold (replace_class cls r rest). rewrite IH, replace_class_head.
  f_equal. unfold not_doubled. rewrite replace_class_eqb by assumption.
  destruct (head rest); simpl; [|reflexivity].
  rewrite replace_class_eqb by assumption. reflexivity.
Qed.

Lemma replace_class_spaced cls r strict p s :
  cls p = false -> (r =? p) = false -> is_ws r = false ->
  (forall c, cls c = true -> is_ws c = false) ->
  all_next (followed_by_ws strict p) (replace_class cls r s)
  = all_next (followed_by_ws strict p) s.
Proof.
  intros Hp Hr Wr Wc. induction s as [|c rest IH]; [reflexivity|].
  cbn [replace_class List.map all_next].
  fold (replace_class cls r rest). rewrite IH, replace_class_head.
  f_equal. unfold followed_by_ws. rewrite replace_class_eqb by assumption.
  destruct (head rest) as [d|]; simpl; [|reflexivity].
  destruct (cls d) eqn:E; [|reflexivity].
  rewrite Wr, (Wc d E). reflexivity.
Qed.

Lemma replace_class_Forall (P Q : Z -> Prop) (cls : Z -> bool) r s :
  (forall c, P c -> Q (if cls c then r else c)) ->
  Forall P s -> Forall Q (replace_class cls r s).
Proof.
  intros H. induction 1 as [|c rest Hc _ IH]; simpl; constructor; auto.
Qed.

Lemma replace_class_fixed cls r s :
  Forall (fun c => cls c = true -> c = r) s -> replace_class cls r s = s.
Proof.
  induction 1 as [|c rest Hc _ IH]; simpl; [reflexivity|].
  rewrite IH. destruct (cls c); [rewrite Hc|]; reflexivity.
Qed.

Lemma remove_class_fixed cls s :
  Forall (fun c => cls c = false) s -> remove_class cls s = s.
Proof.
  induction 1 as [|c rest Hc _ IH]; simpl; [reflexivity|].
  rewrite Hc. simpl. f_equal. exact IH.
Qed.

Lemma all_next_app_r R w s :
  all_next R (w ++ s) = true -> all_next R s = true.
Proof.
  induction w as [|c w IH]; simpl; [auto|].
  intros H. apply andb_true_iff in H as [_ H]. auto.
Qed.

Lemma spaced_app_l strict p s w : spaced strict p (s ++ w) -> spaced false p s.
Proof.
  unfold spaced. induction s as [|c rest IH]; simpl; [reflexivity|].
  intros H. apply andb_true_iff in H as [Hc Hrest].
  rewrite (IH Hrest), andb_true_r.
  unfold followed_by_ws in *. destruct (c =? p); simpl in *; [|reflexivity].
  destruct rest; simpl in *; [reflexivity | exact Hc].
Qed.

Lemma spaced_trim strict p s : spaced strict p s -> spaced false p (trim s).
Proof.
  intros H. unfold trim.
  destruct (trimStart_split s) as [w [E _]].
  destruct (trimEnd_split (trimStart s)) as [w' [E' _]].
  rewrite E in H. apply all_next_app_r in H. rewrite E' in H.
  exact (spaced_app_l _ _ _ _ H).
Qed.

Lemma Forall_trim (P : Z -> Prop) s : Forall P s -> Forall P (trim s).
Proof.
  intros H. unfold trim.
  destruct (trimStart_split s) as [w [E _]].
  destruct (trimEnd_split (trimStart s)) as [w' [E' _]].
  rewrite E in H. apply Forall_app in H as [_ H].
  rewrite E' in H. apply Forall_app in H as [H _]. exact H.
Qed.

Lemma trimEnd_blank w : blank w -> trimEnd w = [].
Proof.
  induction 1 as [|c w W _ IH]; simpl; [reflexivity|].
  rewrite IH, W. reflexivity.
Qed.

Lemma trimEnd_app_blank s w : blank w -> trimEnd (s ++ w) = trimEnd s.
Proof.
  intros B. induction s as [|c s IH]; simpl.
  - apply trimEnd_blank. exact B.
  - rewrite IH. reflexivity.
Qed.

Lemma trim_app_blank y w : trim y = y -> blank w -> trim (y ++ w) = y.
Proof.
  intros T B.
  assert (Hh : forall c, head y = Some c -> is_ws c = false)
    by (intros c; rewrite <- T; apply trim_head).
  assert (Hl : forall c, last y = Some c -> is_ws c = false)
    by (intros c; rewrite <- T; apply trim_last).
  unfold trim. destruct y as [|c y].
  - simpl. rewrite (trimStart_blank w B). reflexivity.
  - rewrite trimStart_fixed by (intros d [= <-]; apply Hh; reflexivity).
    rewrite trimEnd_app_blank by exact B. apply trimEnd_fixed. exact Hl.
Qed.

(** ** Normal forms *)

Lemma plain_space : plain 32.
Proof. repeat split; discriminate. Qed.

Lemma padded_normal y z :
  normal y -> padded y z ->
  Forall plain z /\ all_marks (fun p => spaced false p z) /\ trim z = y.
Proof.
  intros (Hp & (Hd & Hq & Hb & Hc) & Ht) [-> | ->].
  - repeat split; assumption.
  - repeat split.
    + apply Forall_app. split; [exact Hp | repeat constructor; apply plain_space].
    + apply spaced_app_space; [reflexivity | exact Hd].
    + apply spaced_app_space; [reflexivity | exact Hq].
    + apply spaced_app_space; [reflexivity | exact Hb].
    + apply spaced_app_space; [reflexivity | exact Hc].
    + apply trim_app_blank; [exact Ht | repeat constructor].
Qed.

Lemma padded_space_after p y z :
  is_ws p = false -> spaced false p y -> padded y z ->
  padded y (space_after true p z).
Proof.
  intros Wp Hy [-> | ->].
  - rewrite (space_after_final p y Hy).
    destruct (bool_decide (last y = Some p)); [right | left; rewrite app_nil_r];
      reflexivity.
  - rewrite (space_after_spaced p true (y ++ [32])); [right; reflexivity|].
    apply spaced_app_space; assumption.
Qed.

(** A normal form is a fixed point of the normaliser. *)
Lemma normal_fixed y : normal y -> cleanTextForTTS y = y.
Proof.
  intros N. pose proof N as (Hp & (Hd & Hq & Hb & Hc) & Ht).
  unfold cleanTextForTTS.
  rewrite (remove_class_fixed is_control y)
    by (revert Hp; apply List.Forall_impl; intros c Pc; apply Pc).
  rewrite (replace_class_fixed is_glyph 32 y)
    by (revert Hp; apply List.Forall_impl; intros c (_ & G & _) E; congruence).
  assert (P3 : padded y (space_after true bang
                          (space_after true qmark (space_after true dot y)))).
  { apply padded_space_after; [reflexivity | exact Hb|].
    apply padded_space_after; [reflexivity | exact Hq|].
    apply padded_space_after; [reflexivity | exact Hd|].
    left. reflexivity. }
  set (z := space_after true bang _) in *.
  destruct (padded_normal y z N P3) as (Zp & (Zd & Zq & Zb & Zc) & Zt).
  rewrite (space_after_spaced comma false z Zc).
  rewrite (collapse_runs_absent newline 3)
    by (first [discriminate
              | apply no_control_not; [reflexivity|]; revert Zp;
                apply List.Forall_impl; intros c Pc; apply Pc]).
  rewrite (collapse_runs_spaced bang eq_refl false 3 _ z) by (lia || exact Zb).
  rewrite (collapse_runs_spaced qmark eq_refl false 3 _ z) by (lia || exact Zq).
  rewrite (collapse_runs_spaced dot eq_refl false 4 _ z) by (lia || exact Zd).
  rewrite (replace_class_fixed is_dquote 34 z)
    by (revert Zp; apply List.Forall_impl; intros c Pc; apply Pc).
  rewrite (replace_class_fixed is_squote 39 z)
    by (revert Zp; apply List.Forall_impl; intros c Pc; apply Pc).
  exact Zt.
Qed.

Lemma not_doubled_insert_space q at_end p s :
  (32 =? q) = false ->
  all_next (not_doubled q) s = true ->
  all_next (not_doubled q) (insert_space at_end p s) = true.
Proof.
  intros Hq. apply insert_space_all_next.
  - unfold not_doubled. cbn [andb]. rewrite Hq, andb_false_r. reflexivity.
  - intros nx. unfold not_doubled. rewrite Hq. reflexivity.
Qed.

Lemma spaced_insert_space strict q at_end p s :
  (p =? q) = false -> (32 =? q) = false ->
  spaced strict q s -> spaced strict q (insert_space at_end p s).
Proof.
  intros Hp Hq. apply insert_space_all_next.
  - unfold followed_by_ws. rewrite Hp. reflexivity.
  - intros nx. unfold followed_by_ws. rewrite Hq. reflexivity.
Qed.

Lemma quotes_plain c :
  unadorned c ->
  plain (let c' := if is_dquote c then 34 else c in
         if is_squote c' then 39 else c').
Proof.
  intros [Hc Hg]. cbv zeta.
  destruct (is_dquote c) eqn:D.
  - repeat split; intros; try reflexivity; discriminate.
  - destruct (is_squote c) eqn:S.
    + repeat split; intros; try reflexivity; discriminate.
    + repeat split; intros; congruence.
Qed.

Lemma quotes_Forall_plain s :
  Forall unadorned s ->
  Forall plain (replace_class is_squote 39 (replace_class is_dquote 34 s)).
Proof.
  induction 1 as [|c rest Hc _ IH]; simpl.
  - constructor.
  - constructor; [apply (quotes_plain c Hc) | exact IH].
Qed.

(** The normaliser returns a normal form when no mark is doubled in the
    text, control characters aside. *)
Lemma cleanTextForTTS_normal text :
  no_doubled_marks (remove_class is_control text) = true ->
  normal (cleanTextForTTS text).
Proof.
  intros H. unfold no_doubled_marks in H. cbn [forallb] in H.
  rewrite !andb_true_iff in H. destruct H as (Nd & Nq & Nb & Nc & _).
  unfold cleanTextForTTS.
  set (t0 := remove_class is_control text) in *.
  set (t1 := replace_class is_glyph 32 t0).
  assert (U1 : Forall unadorned t1).
  { apply (replace_class_Forall (fun c => is_control c = false)).
    - intros c Hc. split; destruct (is_glyph c) eqn:G; auto.
    - apply remove_class_no_control. }
  assert (Nd1 : all_next (not_doubled dot) t1 = true)
    by (unfold t1; rewrite replace_class_not_doubled; auto).
  assert (Nq1 : all_next (not_doubled qmark) t1 = true)
    by (unfold t1; rewrite replace_class_not_doubled; auto).
  assert (Nb1 : all_next (not_doubled bang) t1 = true)
    by (unfold t1; rewrite replace_class_not_doubled; auto).
  assert (Nc1 : all_next (not_doubled comma) t1 = true)
    by (unfold t1; rewrite replace_class_not_doubled; auto).
  clearbody t1. clear Nd Nq Nb Nc.
  rewrite (space_after_lookahead dot true t1 Nd1).
  set (u1 := insert_space true dot t1).
  assert (Nq2 : all_next (not_doubled qmark) u1 = true)
    by (apply not_doubled_insert_space; auto).
  rewrite (space_after_lookahead qmark true u1 Nq2).
  set (u2 := insert_space true qmark u1).
  assert (Nb3 : all_next (not_doubled bang) u2 = true)
    by (do 2 (apply not_doubled_insert_space; auto)).
  rewrite (space_after_lookahead bang true u2 Nb3).
  set (u3 := insert_space true bang u2).
  assert (Nc4 : all_next (not_doubled comma) u3 = true)
    by (do 3 (apply not_doubled_insert_space; auto)).
  rewrite (space_after_lookahead comma false u3 Nc4).
  set (u4 := insert_space false comma u3).
  assert (Sd : spaced true dot u4).
  { do 3 (apply spaced_insert_space; [reflexivity..|]).
    apply insert_space_spaced. reflexivity. }
  assert (Sq : spaced true qmark u4).
  { do 2 (apply spaced_insert_space; [reflexivity..|]).
    apply insert_space_spaced. reflexivity. }
  assert (Sb : spaced true bang u4).
  { apply spaced_insert_space; [reflexivity..|].
    apply insert_space_spaced. reflexivity. }
  assert (Sc : spaced false comma u4)
    by (apply insert_space_spaced; reflexivity).
  assert (U4 : Forall unadorned u4)
    by (do 4 (apply insert_space_Forall; [split; reflexivity|]); exact U1).
  clearbody u4. clear - Sd Sq Sb Sc U4.
  rewrite (collapse_runs_absent newline 3)
    by (first [discriminate
              | apply no_control_not; [reflexivity|]; revert U4;
                apply List.Forall_impl; intros c Pc; apply Pc]).
  rewrite (collapse_runs_spaced bang eq_refl true 3 _ u4) by (lia || exact Sb).
  rewrite (collapse_runs_spaced qmark eq_refl true 3 _ u4) by (lia || exact Sq).
  rewrite (collapse_runs_spaced dot eq_refl true 4 _ u4) by (lia || exact Sd).
  set (t7 := replace_class is_squote 39 (replace_class is_dquote 34 u4)).
  assert (K : forall strict p,
            is_dquote p = false -> is_squote p = false ->
            (34 =? p) = false -> (39 =? p) = false ->
            spaced strict p u4 -> spaced strict p t7).
  { intros strict p D S E1 E2 Hs. unfold spaced, t7.
    rewrite replace_class_spaced, replace_class_spaced;
      auto using is_dquote_not_ws, is_squote_not_ws. }
  repeat split.
  - apply Forall_trim, quotes_Forall_plain, U4.
  - apply (spaced_trim true). apply K; auto.
  - apply (spaced_trim true). apply K; auto.
  - apply (spaced_trim true). apply K; auto.
  - apply (spaced_trim false). apply K; auto.
  - apply trim_trim.
Qed.

(** Where the slip does not show, the claim holds: the normaliser is
    idempotent on every text in which, control characters aside, none of
    the marks [.], [?], [!] and [,] is immediately followed by the same
    mark. *)
Lemma cleanTextForTTS_idempotent text :
  no_doubled_marks (remove_class is_control text) = true ->
  cleanTextForTTS (cleanTextForTTS text) = cleanTextForTTS text.
Proof. intros H. apply normal_fixed, cleanTextForTTS_normal, H. Qed.

Lemma cleanTextForTTS_idempotent_witness :
  no_doubled_marks (remove_class is_control (lit "Hello.World! How,are you?")) = true /\
  cleanTextForTTS (cleanTextForTTS (lit "Hello.World! How,are you?"))
  = cleanTextForTTS (lit "Hello.World! How,are you?").
Proof.
  split; [reflexivity|].
  apply (cleanTextForTTS_idempotent (lit "Hello.World! How,are you?")).
  reflexivity.
Defined.

(** *** The spacing rules as the spec words them *)

Lemma cleanText_lookahead_agrees text :
  no_doubled_marks (remove_class is_control text) = true ->
  cleanTextForTTS text = cleanText_lookahead text.
Proof.
  intros H. unfold no_doubled_marks in H. cbn [forallb] in H.
  rewrite !andb_true_iff in H. destruct H as (Nd & Nq & Nb & Nc & _).
  unfold cleanTextForTTS, cleanText_lookahead.
  set (t0 := remove_class is_control text) in *.
  set (t1 := replace_class is_glyph 32 t0).
  assert (Nd1 : all_next (not_doubled dot) t1 = true)
    by (unfold t1; rewrite replace_class_not_doubled; auto).
  assert (Nq1 : all_next (not_doubled qmark) t1 = true)
    by (unfold t1; rewrite replace_class_not_doubled; auto).
  assert (Nb1 : all_next (not_doubled bang) t1 = true)
    by (unfold t1; rewrite replace_class_not_doubled; auto).
  assert (Nc1 : all_next (not_doubled comma) t1 = true)
    by (unfold t1; rewrite replace_class_not_doubled; auto).
  clearbody t1. clear Nd Nq Nb Nc.
  rewrite (space_after_lookahead dot true t1 Nd1).
  set (u1 := insert_space true dot t1).
  assert (Nq2 : all_next (not_doubled qmark) u1 = true)
    by (apply not_doubled_insert_space; auto).
  rewrite (space_after_lookahead qmark true u1 Nq2).
  set (u2 := insert_space true qmark u1).
  assert (Nb3 : all_next (not_doubled bang) u2 = true)
    by (do 2 (apply not_doubled_insert_space; auto)).
  rewrite (space_after_lookahead bang true u2 Nb3).
  set (u3 := insert_space true bang u2).
  assert (Nc4 : all_next (not_doubled comma) u3 = true)
    by (do 3 (apply not_doubled_insert_space; auto)).
  rewrite (space_after_lookahead comma false u3 Nc4).
  reflexivity.
Qed.

Lemma cleanText_lookahead_normal text : normal (cleanText_lookahead text).
Proof.
  unfold cleanText_lookahead.
  set (t1 := replace_class is_glyph 32 (remove_class is_control text)).
  assert (U1 : Forall unadorned t1).
  { apply (replace_class_Forall (fun c => is_control c = false)).
    - intros c Hc. split; destruct (is_glyph c) eqn:G; auto.
    - apply remove_class_no_control. }
  clearbody t1.
  set (u4 := insert_space false comma
               (insert_space true bang
                  (insert_space true qmark (insert_space true dot t1)))).
  assert (Sd : spaced true dot u4).
  { do 3 (apply spaced_insert_space; [reflexivity..|]).
    apply insert_space_spaced. reflexivity. }
  assert (Sq : spaced true qmark u4).
  { do 2 (apply spaced_insert_space; [reflexivity..|]).
    apply insert_space_spaced. reflexivity. }
  assert (Sb : spaced true bang u4).
  { apply spaced_insert_space; [reflexivity..|].
    apply insert_space_spaced. reflexivity. }
  assert (Sc : spaced false comma u4)
    by (apply insert_space_spaced; reflexivity).
  assert (U4 : Forall unadorned u4)
    by (do 4 (apply insert_space_Forall; [split; reflexivity|]); exact U1).
  clearbody u4. clear - Sd Sq Sb Sc U4.
  rewrite (collapse_runs_absent newline 3)
    by (first [discriminate
              | apply no_control_not; [reflexivity|]; revert U4;
                apply List.Forall_impl; intros c Pc; apply Pc]).
  rewrite (collapse_runs_spaced bang eq_refl true 3 _ u4) by (lia || exact Sb).
  rewrite (collapse_runs_spaced qmark eq_refl true 3 _ u4) by (lia || exact Sq).
  rewrite (collapse_runs_spaced dot eq_refl true 4 _ u4) by (lia || exact Sd).
  set (t7 := replace_class is_squote 39 (replace_class is_dquote 34 u4)).
  assert (K : forall strict p,
            is_dquote p = false -> is_squote p = false ->
            (34 =? p) = false -> (39 =? p) = false ->
            spaced strict p u4 -> spaced strict p t7).
  { intros strict p D S E1 E2 Hs. unfold spaced, t7.
    rewrite replace_class_spaced, replace_class_spaced;
      auto using is_dquote_not_ws, is_squote_not_ws. }
  repeat split.
  - apply Forall_trim, quotes_Forall_plain, U4.
  - apply (spaced_trim true). apply K; auto.
  - apply (spaced_trim true). apply K; auto.
  - apply (spaced_trim true). apply K; auto.
  - apply (spaced_trim false). apply K; auto.
  - apply trim_trim.
Qed.

Lemma spaced_not_doubled strict p s :
  is_ws p = false -> spaced strict p s -> all_next (not_doubled p) s = true.
Proof.
  intros Hp. unfold spaced.
  induction s as [|c rest IH]; [reflexivity|]. cbn [all_next].
  intros H. apply andb_true_iff in H as [Hc Hrest].
  rewrite (IH Hrest), andb_true_r.
  unfold followed_by_ws in Hc. unfold not_doubled.
  destruct (c =? p); [|reflexivity]. cbn [negb orb andb] in *.
  destruct (head rest) as [d|]; [|reflexivity].
  destruct (Z.eqb_spec d p) as [->|]; [|reflexivity]. congruence.
Qed.

Lemma normal_no_doubled_marks y :
  normal y -> no_doubled_marks (remove_class is_control y) = true.
Proof.
  intros (Hp & (Hd & Hq & Hb & Hc) & _).
  rewrite (remove_class_fixed is_control y)
    by (revert Hp; apply List.Forall_impl; intros c Pc; apply Pc).
  unfold no_doubled_marks. cbn [forallb].
  rewrite (spaced_not_doubled false dot y eq_refl Hd),
          (spaced_not_doubled false qmark y eq_refl Hq),
          (spaced_not_doubled false bang y eq_refl Hb),
          (spaced_not_doubled false comma y eq_refl Hc).
  reflexivity.
Qed.

Lemma cleanText_lookahead_idempotent text :
  cleanText_lookahead (cleanText_lookahead text) = cleanText_lookahead text.
Proof.
  pose proof (cleanText_lookahead_normal text) as N.
  rewrite <- (cleanText_lookahead_agrees (cleanText_lookahead text))
    by (apply normal_no_doubled_marks, N).
  apply normal_fixed, N.
Qed.

(** C3. The normaliser is not idempotent: [...] is normalised to [. ..],
    which a second pass changes to [. . .].  The spacing rules are written
    with a group that uses up the code unit behind the mark, so the second
    of two adjacent marks is never looked at in the same pass.  With the
    rules read as the spec words them, every mark on its own, the
    normaliser is idempotent on every text, and the code agrees with that
    reading on every text without a doubled mark: the claim fails through
    this slip alone. *)
Theorem cleanTextForTTS_doubled_marks :
  cleanTextForTTS (lit "...") = lit ". .." /\
  cleanTextForTTS (cleanTextForTTS (lit "...")) = lit ". . ." /\
  cleanTextForTTS (cleanTextForTTS (lit "..."))
    <> cleanTextForTTS (lit "...") /\
  cleanText_lookahead (lit "...") = lit ". . ." /\
  (forall text,
     cleanText_lookahead (cleanText_lookahead text)
     = cleanText_lookahead text) /\
  (forall text,
     no_doubled_marks (remove_class is_control text) = true ->
     cleanTextForTTS text = cleanText_lookahead text).
Proof.
  split; [reflexivity|]. split; [reflexivity|]. split; [discriminate|].
  split; [reflexivity|].
  split; [exact cleanText_lookahead_idempotent
         | exact cleanText_lookahead_agrees].
Qed.

Lemma cleanTextForTTS_doubled_marks_witness :
  no_doubled_marks (remove_class is_control (lit "Hello.World! How,are you?"))
    = true /\
  cleanTextForTTS (lit "Hello.World! How,are you?")
  = cleanText_lookahead (lit "Hello.World! How,are you?").
Proof.
  split; [reflexivity|].
  apply (proj2 (proj2 (proj2 (proj2 (proj2 cleanTextForTTS_doubled_marks))))).
  reflexivity.
Defined.

(** ** The encoder writes the header and then the samples, in order *)

Lemma store_append off pre field n :
  off = length pre -> (length field <= n)%nat ->
  store off field (pre ++ replicate n 0)
  = Some ((pre ++ field) ++ replicate (n - length field) 0).
Proof.
  intros -> Hn. unfold store.
  rewrite decide_True by (rewrite length_app, length_replicate; lia).
  f_equal.
  replace n with (length field + (n - length field))%nat at 1 by lia.
  rewrite replicate_add.
  replace (length pre) with (length pre + 0)%nat by lia.
  rewrite list_inserts_app_r, list_inserts_0_r by (rewrite length_replicate; reflexivity).
  rewrite app_assoc. reflexivity.
Qed.

Lemma bind_Some {A B : Type} (x : A) (f : A -> option B) : Some x ≫= f = f x.
Proof. reflexivity. Qed.

Lemma writeString_from off todo :
  forall done pre n,
  (off + length done)%nat = length pre -> (length todo <= n)%nat ->
  for_each (seq (length done) (length todo))
    (fun i v => c ← (done ++ todo) !! i; setUint8 (off + i) c v)
    (pre ++ replicate n 0)
  = Some ((pre ++ List.map (fun c => c mod 256) todo)
          ++ replicate (n - length todo) 0).
Proof.
  unfold setUint8.
  induction todo as [|c todo IH]; intros done pre n Hoff Hn; simpl.
  - rewrite app_nil_r, Nat.sub_0_r. reflexivity.
  - rewrite list_lookup_middle by reflexivity. rewrite bind_Some.
    rewrite store_append by (simpl in *; lia). rewrite bind_Some.
    specialize (IH (done ++ [c]) (pre ++ [c mod 256]) (n - 1)%nat).
    rewrite <- !app_assoc in IH. simpl in IH.
    rewrite length_app in IH. simpl in IH.
    rewrite Nat.add_1_r in IH. simpl in Hn.
    rewrite <- !app_assoc. simpl.
    rewrite IH by (rewrite ?length_app; simpl; lia).
    replace (n - 1 - length todo)%nat with (n - S (length todo))%nat by lia.
    reflexivity.
Qed.

Lemma writeString_append off pre string n :
  off = length pre -> (length string <= n)%nat ->
  writeString off string (pre ++ replicate n 0)
  = Some ((pre ++ List.map (fun c => c mod 256) string)
          ++ replicate (n - length string) 0).
Proof.
  intros Hoff Hn. unfold writeString.
  apply (writeString_from off string [] pre n); simpl; lia.
Qed.

Lemma wav_header_written numChannels rate byteRate length
    (K : bytes -> option bytes) :
  (view ← writeString 0 (lit "RIFF") (replicate (44 + length) 0);
   view ← setUint32 4 (Z.of_nat (36 + length)) view;
   view ← writeString 8 (lit "WAVE") view;
   view ← writeString 12 (lit "fmt ") view;
   view ← setUint32 16 16 view;
   view ← setUint16 20 1 view;
   view ← setUint16 22 (Z.of_nat numChannels) view;
   view ← setUint32 24 rate view;
   view ← setUint32 28 byteRate view;
   view ← setUint16 32 (Z.of_nat (numChannels * 2)) view;
   view ← setUint16 34 (Z.of_nat 16) view;
   view ← writeString 36 (lit "data") view;
   view ← setUint32 40 (Z.of_nat length) view;
   K view)
  = K (wav_header_with numChannels rate byteRate length
       ++ replicate length 0).
Proof.
  unfold setUint16, setUint32.
  change (replicate (44 + length) 0) with ([] ++ replicate (44 + length) 0).
  repeat (first [rewrite writeString_append by (first [reflexivity | simpl; lia])
                |rewrite store_append by (first [reflexivity | simpl; lia])];
          rewrite ?bind_Some).
  f_equal.
  match goal with
  | |- ?pre ++ replicate ?n 0 = _ =>
      change pre with (wav_header_with numChannels rate byteRate length);
      replace n with length by (simpl; lia)
  end.
  reflexivity.
Qed.

Lemma sample_bytes_length x : length (sample_bytes x) = 2%nat.
Proof. reflexivity. Qed.

Lemma flat_map_sample_bytes_length xs :
  length (flat_map sample_bytes xs) = (2 * length xs)%nat.
Proof. induction xs as [|x xs IH]; simpl in *; lia. Qed.

Lemma frame_samples_length b i : length (frame_samples b i) = numberOfChannels b.
Proof. unfold frame_samples. rewrite length_map, length_seq. reflexivity. Qed.

Lemma interleaved_length b :
  length (interleaved b) = (buf_length b * numberOfChannels b)%nat.
Proof.
  unfold interleaved. generalize 0%nat.
  induction (buf_length b) as [|n IH]; intros i0; simpl; [reflexivity|].
  rewrite length_app, frame_samples_length, IH. reflexivity.
Qed.

Section Loops.

Variable buffer : AudioBuffer.
Hypothesis buffer_wf : wf_buffer buffer.

Local Abbreviation numChannels := (numberOfChannels buffer).

Lemma channel_loop i k :
  forall c0 pre n,
  (c0 + k <= numChannels)%nat ->
  length pre = (44 + i * (numChannels * 2) + c0 * 2)%nat ->
  (2 * k <= n)%nat ->
  for_each (seq c0 k) (write_sample buffer i) (pre ++ replicate n 0)
  = Some ((pre ++ flat_map sample_bytes
             (List.map (fun channel =>
                intSample (sample_at (default [] (getChannelData buffer channel)) i))
                (seq c0 k)))
          ++ replicate (n - 2 * k) 0).
Proof.
  induction k as [|k IH]; intros c0 pre n Hc Hpre Hn.
  - simpl. rewrite app_nil_r, Nat.sub_0_r. reflexivity.
  - assert (W : write_sample buffer i c0 (pre ++ replicate n 0)
                = Some ((pre ++ sample_bytes (intSample (sample_at
                           (default [] (getChannelData buffer c0)) i)))
                        ++ replicate (n - 2) 0)).
    { unfold write_sample, getChannelData.
      destruct (lookup_lt_is_Some_2 (channels buffer) c0) as [data Hdata].
      { destruct buffer_wf as [-> _]. lia. }
      rewrite Hdata, bind_Some. unfold setInt16.
      rewrite store_append by (simpl; lia). reflexivity. }
    cbn [seq for_each List.map flat_map].
    rewrite W, bind_Some.
    rewrite IH by (rewrite ?length_app, ?sample_bytes_length; lia).
    rewrite <- !app_assoc.
    replace (n - 2 - 2 * k)%nat with (n - 2 * S k)%nat by lia.
    reflexivity.
Qed.

Lemma frame_loop k :
  forall i0 pre n,
  length pre = (44 + i0 * (numChannels * 2))%nat ->
  (k * (numChannels * 2) <= n)%nat ->
  for_each (seq i0 k)
    (fun i view => for_each (seq 0 numChannels) (write_sample buffer i) view)
    (pre ++ replicate n 0)
  = Some ((pre ++ flat_map sample_bytes
                    (flat_map (frame_samples buffer) (seq i0 k)))
          ++ replicate (n - k * (numChannels * 2)) 0).
Proof.
  induction k as [|k IH]; intros i0 pre n Hpre Hn; simpl.
  - rewrite app_nil_r, Nat.sub_0_r. reflexivity.
  - rewrite (channel_loop i0 numChannels 0 pre n) by lia.
    rewrite bind_Some.
    rewrite IH by (rewrite ?length_app, ?flat_map_sample_bytes_length,
                     ?length_map, ?length_seq; lia).
    unfold frame_samples at 2.
    rewrite flat_map_app, <- !app_assoc.
    replace (n - 2 * numChannels - k * (numChannels * 2))%nat
      with (n - (numChannels * 2 + k * (numChannels * 2)))%nat by lia.
    reflexivity.
Qed.

(** The blob is the header followed by the samples, two bytes each. *)
Lemma audioBufferToWav_bytes :
  audioBufferToWav buffer
  = Some (header_of buffer ++ flat_map sample_bytes (interleaved buffer)).
Proof.
  unfold audioBufferToWav, header_of. cbv zeta.
  change (16 / 8)%nat with 2%nat.
  set (len := (buf_length buffer * (numChannels * 2))%nat).
  set (rate := ToInteger (sampleRate buffer)).
  set (byteRate := ToInteger (sampleRate buffer
                              * inject_Z (Z.of_nat (numChannels * 2)))).
  rewrite (wav_header_written numChannels rate byteRate len).
  set (hdr := wav_header_with numChannels rate byteRate len).
  assert (Hlen : length hdr = 44%nat) by reflexivity.
  clearbody hdr.
  change (fun (i : nat) (view : bytes) =>
            for_each (seq 0 numChannels)
              (fun channel view0 =>
                 data ← getChannelData buffer channel;
                 setInt16 (44 + i * (numChannels * 2) + channel * 2)
                          (intSample (sample_at data i)) view0) view)
    with (fun (i : nat) (view : bytes) =>
            for_each (seq 0 numChannels) (write_sample buffer i) view).
  rewrite (frame_loop (buf_length buffer) 0 hdr len) by (unfold len; lia).
  unfold len. rewrite Nat.sub_diag. simpl replicate. rewrite app_nil_r.
  reflexivity.
Qed.

End Loops.

(** C6. The blob of the encoder has exactly [44 + frameCount *
    channelCount * 2] bytes, for every buffer; for two mono frames [1.0] and
    [-1.0] at 24000 Hz it has 48 bytes, bytes 44-45 hold 32767 and bytes
    46-47 hold -32768, both little-endian. *)
Theorem audioBufferToWav_size :
  (forall buffer, wf_buffer buffer ->
     exists blob, audioBufferToWav buffer = Some blob /\
       length blob = (44 + buf_length buffer * numberOfChannels buffer * 2)%nat) /\
  (exists blob, audioBufferToWav two_frames = Some blob /\
     length blob = 48%nat /\
     drop 44 blob = le16 32767 ++ le16 (-32768) /\
     le16 32767 = [255; 127] /\ le16 (-32768) = [0; 128]).
Proof.
  split.
  - intros buffer Hwf. eexists. split; [apply audioBufferToWav_bytes, Hwf|].
    rewrite length_app, flat_map_sample_bytes_length, interleaved_length.
    change (length (header_of buffer)) with 44%nat. lia.
  - eexists. split; [reflexivity|]. repeat split.
Qed.

Lemma audioBufferToWav_size_witness :
  wf_buffer two_frames /\
  exists blob, audioBufferToWav two_frames = Some blob /\
    length blob = (44 + buf_length two_frames * numberOfChannels two_frames * 2)%nat.
Proof.
  assert (W : wf_buffer two_frames) by (split; [reflexivity | repeat constructor]).
  split; [exact W|].
  exact (proj1 audioBufferToWav_size two_frames W).
Defined.

(** ** Reading the blob back *)

Lemma le16_value v :
  0 <= v < 65536 -> (v mod 65536) mod 256 + 256 * ((v mod 65536) / 256) = v.
Proof. intros H. rewrite (Z.mod_small v 65536) by lia. Z.div_mod_to_equations. lia. Qed.

Lemma le32_value v :
  0 <= v < 4294967296 ->
  let u := v mod 4294967296 in
  (u mod 256 + 256 * ((u / 256) mod 256))
  + 65536 * ((u / 65536) mod 256 + 256 * (u / 16777216)) = v.
Proof.
  intros H u. subst u. rewrite (Z.mod_small v 4294967296) by lia.
  Z.div_mod_to_equations. lia.
Qed.

Lemma getInt16_sample pre x rest :
  getInt16 (pre ++ sample_bytes x ++ rest) (length pre) = Some (stored_int16 x).
Proof.
  unfold getInt16, getUint16.
  rewrite (lookup_app_r pre _ (length pre)) by lia. rewrite Nat.sub_diag.
  rewrite (lookup_app_r pre _ (S (length pre))) by lia.
  replace (S (length pre) - length pre)%nat with 1%nat by lia.
  cbn [sample_bytes le16 app lookup list_lookup mbind option_bind].
  unfold stored_int16. cbv zeta.
  set (u := truncate x mod 65536).
  assert (Hu : 0 <= u < 65536) by (apply Z.mod_pos_bound; lia).
  replace (u mod 256 + 256 * (u / 256)) with u
    by (Z.div_mod_to_equations; lia).
  reflexivity.
Qed.

Lemma mapM_getInt16 xs :
  forall pre j, length pre = (44 + 2 * j)%nat ->
  mapM (fun k => getInt16 (pre ++ flat_map sample_bytes xs) (44 + 2 * k))
       (seq j (length xs))
  = Some (List.map stored_int16 xs).
Proof.
  induction xs as [|x xs IH]; intros pre j Hpre; [reflexivity|].
  cbn [length seq flat_map List.map mapM].
  rewrite <- Hpre at 1. rewrite getInt16_sample, bind_Some.
  rewrite (app_assoc pre).
  rewrite (IH (pre ++ sample_bytes x) (S j))
    by (rewrite length_app, sample_bytes_length; lia).
  reflexivity.
Qed.

Lemma parse_wav_encoded (C : nat) rate byteRate xs :
  Z.of_nat C < 65536 -> 0 <= rate < 4294967296 ->
  Z.of_nat (2 * length xs) < 4294967296 ->
  parse_wav (wav_header_with C rate byteRate (2 * length xs)
             ++ flat_map sample_bytes xs)
  = Some {| wav_channels := Z.of_nat C; wav_rate := rate; wav_bits := 16;
            wav_samples := List.map stored_int16 xs |}.
Proof.
  intros HC Hrate Hlen. unfold parse_wav.
  set (hdr := wav_header_with C rate byteRate (2 * length xs)).
  set (view := hdr ++ flat_map sample_bytes xs).
  assert (E1 : mapM (getUint8 view) (seq 0 4) = Some (lit "RIFF")) by reflexivity.
  assert (E2 : mapM (getUint8 view) (seq 8 4) = Some (lit "WAVE")) by reflexivity.
  assert (E3 : getUint16 view 20 = Some 1) by reflexivity.
  assert (E4 : getUint16 view 22 = Some (Z.of_nat C)).
  { transitivity (Some ((Z.of_nat C mod 65536) mod 256
                        + 256 * ((Z.of_nat C mod 65536) / 256)));
      [reflexivity|]. rewrite le16_value by lia. reflexivity. }
  assert (E5 : getUint32 view 24 = Some rate).
  { transitivity (Some (let u := rate mod 4294967296 in
                        (u mod 256 + 256 * ((u / 256) mod 256))
                        + 65536 * ((u / 65536) mod 256 + 256 * (u / 16777216))));
      [reflexivity|]. rewrite le32_value by lia. reflexivity. }
  assert (E6 : getUint16 view 34 = Some 16) by reflexivity.
  assert (E7 : getUint32 view 40 = Some (Z.of_nat (2 * length xs))).
  { transitivity (Some (let u := Z.of_nat (2 * length xs) mod 4294967296 in
                        (u mod 256 + 256 * ((u / 256) mod 256))
                        + 65536 * ((u / 65536) mod 256 + 256 * (u / 16777216))));
      [reflexivity|]. rewrite le32_value by lia. reflexivity. }
  rewrite E1, bind_Some, E2, bind_Some, E3, bind_Some, E4, bind_Some,
          E5, bind_Some, E6, bind_Some, E7, bind_Some.
  rewrite bool_decide_eq_true_2 by reflexivity.
  rewrite bool_decide_eq_true_2 by reflexivity.
  cbn [forallb id andb negb Z.eqb Pos.eqb].
  rewrite Nat2Z.id.
  replace (2 * length xs / 2)%nat with (length xs)
    by (rewrite Nat.mul_comm, Nat.div_mul; [reflexivity | discriminate]).
  unfold view.
  rewrite (mapM_getInt16 xs hdr 0) by reflexivity.
  reflexivity.
Qed.

(** ** Quantisation *)

Lemma quot_bounds n d :
  0 < d ->
  (0 <= n -> d * Z.quot n d <= n < d * Z.quot n d + d) /\
  (n <= 0 -> d * Z.quot n d - d < n <= d * Z.quot n d).
Proof. intros Hd. Z.quot_rem_to_equations. nia. Qed.

Lemma quantised_cases q :
  (-1 <= q)%Q -> (q <= 1)%Q ->
  let a := Qnum q in
  let b := Z.pos (Qden q) in
  (0 <= a /\ b * quantised q <= a * 32767 < b * quantised q + b) \/
  (a < 0 /\ b * quantised q - b < a * 32768 <= b * quantised q).
Proof.
  destruct q as [a b]. unfold Qle. cbn [Qnum Qden]. intros Hlo Hhi.
  unfold quantised, intSample, Math_min, Math_max, num_neg, num_scale.
  destruct (Qle_bool 1 (a # b)) eqn:E1.
  - apply Qle_bool_iff in E1. unfold Qle in E1. cbn [Qnum Qden] in E1.
    assert (a = Z.pos b) by lia. subst a.
    left. split; [lia|]. change (truncate _) with 32767. lia.
  - destruct (Qle_bool (-1) (a # b)) eqn:E2.
    2:{ exfalso. apply not_true_iff_false in E2. apply E2.
        apply Qle_bool_iff. unfold Qle. cbn [Qnum Qden]. lia. }
    destruct (Qle_bool 0 (a # b)) eqn:E3.
    + apply Qle_bool_iff in E3. unfold Qle in E3. cbn [Qnum Qden] in E3.
      cbn [negb truncate Qmult inject_Z Qnum Qden]. rewrite Pos.mul_1_r.
      left. split; [lia|].
      apply (quot_bounds (a * 32767) (Z.pos b)); lia.
    + apply not_true_iff_false in E3.
      assert (a < 0).
      { destruct (Z_lt_le_dec a 0) as [L|L]; [exact L|].
        exfalso. apply E3. apply Qle_bool_iff. unfold Qle. cbn [Qnum Qden]. lia. }
      cbn [negb truncate Qmult inject_Z Qnum Qden]. rewrite Pos.mul_1_r.
      right. split; [lia|].
      apply (quot_bounds (a * 32768) (Z.pos b)); lia.
Qed.

Lemma quantised_range q :
  (-1 <= q)%Q -> (q <= 1)%Q -> -32768 <= quantised q <= 32767.
Proof.
  intros Hlo Hhi. pose proof (quantised_cases q Hlo Hhi) as H. cbv zeta in H.
  destruct q as [a b]. unfold Qle in Hlo, Hhi. cbn [Qnum Qden] in *.
  destruct H as [[Ha H] | [Ha H]]; nia.
Qed.

Lemma quantised_error q :
  (-1 <= q)%Q -> (q <= 1)%Q ->
  (Qabs (inject_Z (quantised q) - 32767 * q) <= 1)%Q.
Proof.
  intros Hlo Hhi. pose proof (quantised_cases q Hlo Hhi) as H. cbv zeta in H.
  apply Qabs_Qle_condition.
  destruct q as [a b]. unfold Qle in Hlo, Hhi. cbn [Qnum Qden] in *.
  unfold Qle, Qminus, Qplus, Qopp, Qmult, inject_Z. cbn [Qnum Qden].
  rewrite !Pos2Z.inj_mul.
  destruct H as [[Ha H] | [Ha H]]; split; nia.
Qed.

(** A sample decoded from the 16-bit value [m] is stored as [m] when [m] is
    not positive, and as [m - 1] when it is. *)
Lemma quantised_pcm q m :
  -32768 <= m <= 32767 -> (q == m # 32768)%Q ->
  quantised q = if m <=? 0 then m else m - 1.
Proof.
  intros Hm E.
  assert (Hlo : (-1 <= q)%Q)
    by (rewrite E; unfold Qle; cbn [Qnum Qden]; lia).
  assert (Hhi : (q <= 1)%Q)
    by (rewrite E; unfold Qle; cbn [Qnum Qden]; lia).
  pose proof (quantised_cases q Hlo Hhi) as H. cbv zeta in H.
  destruct q as [a b]. unfold Qeq in E. cbn [Qnum Qden] in *.
  destruct (Z.leb_spec m 0); destruct H as [[Ha H] | [Ha H]]; nia.
Qed.

Lemma stored_int16_quantised q :
  (-1 <= q)%Q -> (q <= 1)%Q ->
  stored_int16 (intSample (Fin q)) = quantised q.
Proof.
  intros Hlo Hhi. pose proof (quantised_range q Hlo Hhi) as R.
  unfold stored_int16. fold (quantised q). cbv zeta.
  destruct (Z_lt_le_dec (quantised q) 0).
  - replace (quantised q mod 65536) with (quantised q + 65536)
      by (apply Z.mod_unique with (q := -1); lia).
    destruct (Z.ltb_spec (quantised q + 65536) 32768); lia.
  - rewrite Z.mod_small by lia.
    destruct (Z.ltb_spec (quantised q) 32768); lia.
Qed.

(** Measured on the scale of the decoder, where one step is 1/32768, the
    stored integer is less than two steps from the sample. *)
Lemma quantised_error_decoder_scale q :
  (-1 <= q)%Q -> (q <= 1)%Q ->
  (Qabs (inject_Z (quantised q) - 32768 * q) < 2)%Q.
Proof.
  intros Hlo Hhi. pose proof (quantised_cases q Hlo Hhi) as H. cbv zeta in H.
  apply Qabs_Qlt_condition.
  destruct q as [a b]. unfold Qle in Hlo, Hhi. cbn [Qnum Qden] in *.
  unfold Qlt, Qminus, Qplus, Qopp, Qmult, inject_Z. cbn [Qnum Qden].
  rewrite !Pos2Z.inj_mul.
  destruct H as [[Ha H] | [Ha H]]; split; nia.
Qed.

Lemma ToInteger_bounds q N :
  (0 <= q)%Q -> (q < inject_Z N)%Q -> 0 <= ToInteger q < N.
Proof.
  destruct q as [a b]. unfold Qle, Qlt, ToInteger, truncate, inject_Z.
  cbn [Qnum Qden]. intros H0 H1.
  Z.quot_rem_to_equations. nia.
Qed.

Lemma ToInteger_inject_Z z : ToInteger (inject_Z z) = z.
Proof. unfold ToInteger, truncate, inject_Z. cbn [Qnum Qden]. apply Z.quot_1_r. Qed.

Lemma ToInteger_inject_Z_mul z k :
  ToInteger (inject_Z z * inject_Z k) = z * k.
Proof.
  unfold ToInteger, truncate, inject_Z, Qmult. cbn [Qnum Qden Pos.mul].
  apply Z.quot_1_r.
Qed.

(** For an integral rate the header is [wav_header]. *)
Lemma header_of_integral b z :
  sampleRate b = inject_Z z ->
  header_of b
  = wav_header (numberOfChannels b) z (buf_length b * (numberOfChannels b * 2)).
Proof.
  intros E. unfold header_of, wav_header, wav_header_with.
  rewrite E, ToInteger_inject_Z, ToInteger_inject_Z_mul. reflexivity.
Qed.

(** ** Where a sample lies in the interleaved order *)

Lemma lookup_map {A B : Type} (f : A -> B) (l : list A) (i : nat) :
  List.map f l !! i = f <$> l !! i.
Proof.
  revert i. induction l as [|x l IH]; intros [|i]; simpl; auto.
Qed.

Lemma lookup_blocks {A : Type} (g : nat -> list A) (C n : nat) :
  (forall j, length (g j) = C) ->
  forall s i ch, (i < n)%nat -> (ch < C)%nat ->
  flat_map g (seq s n) !! (i * C + ch)%nat = g (s + i)%nat !! ch.
Proof.
  intros Hg. induction n as [|n IH]; intros s i ch Hi Hch; [lia|].
  simpl. destruct i as [|i].
  - rewrite lookup_app_l by (rewrite Hg; simpl; lia).
    rewrite Nat.add_0_r. reflexivity.
  - rewrite lookup_app_r by (rewrite Hg; simpl; lia).
    rewrite Hg. replace (S i * C + ch - C)%nat with (i * C + ch)%nat by (simpl; lia).
    rewrite IH by lia.
    replace (s + S i)%nat with (S s + i)%nat by lia. reflexivity.
Qed.

Lemma interleaved_lookup b i channel data :
  wf_buffer b ->
  getChannelData b channel = Some data -> (i < buf_length b)%nat ->
  interleaved b !! (i * numberOfChannels b + channel)%nat
  = Some (intSample (sample_at data i)).
Proof.
  intros [Hn _] Hdata Hi. unfold interleaved.
  assert (Hch : (channel < numberOfChannels b)%nat)
    by (rewrite <- Hn; apply lookup_lt_Some with (x := data); exact Hdata).
  rewrite (lookup_blocks (frame_samples b) (numberOfChannels b))
    by (auto using frame_samples_length).
  unfold frame_samples. rewrite lookup_map, lookup_seq_lt by exact Hch.
  simpl. rewrite Hdata. reflexivity.
Qed.

(** ** Round trip through the container *)

(** The round trip for any buffer of samples of [-1, 1]. *)
Lemma audioBufferToWav_read_back buffer :
  wf_buffer buffer -> header_fits buffer -> unit_range buffer ->
  exists blob info,
    audioBufferToWav buffer = Some blob /\
    parse_wav blob = Some info /\
    wav_rate info = ToInteger (sampleRate buffer) /\
    wav_channels info = Z.of_nat (numberOfChannels buffer) /\
    length (wav_samples info)
      = (buf_length buffer * numberOfChannels buffer)%nat /\
    forall i channel data q,
      getChannelData buffer channel = Some data ->
      data !! i = Some (Fin q) ->
      exists v,
        wav_samples info !! (i * numberOfChannels buffer + channel)%nat = Some v /\
        -32768 <= v <= 32767 /\
        (Qabs (inject_Z v - 32768 * q) < 2)%Q /\
        (Qabs (inject_Z v - 32767 * q) <= 1)%Q /\
        forall m, -32768 <= m <= 32767 -> (q == m # 32768)%Q ->
                  v = m \/ v = m - 1.
Proof.
  intros Hwf (HC & Hrate & Hsize) Hunit.
  exists (header_of buffer ++ flat_map sample_bytes (interleaved buffer)).
  eexists. split; [apply audioBufferToWav_bytes, Hwf|].
  unfold header_of.
  replace (buf_length buffer * (numberOfChannels buffer * 2))%nat
    with (2 * length (interleaved buffer))%nat
    by (rewrite interleaved_length; lia).
  split.
  { apply parse_wav_encoded; [exact HC | |rewrite interleaved_length; lia].
    apply ToInteger_bounds; apply Hrate. }
  cbn [wav_rate wav_channels wav_samples].
  split; [reflexivity|]. split; [reflexivity|].
  split; [rewrite length_map; apply interleaved_length|].
  intros i channel data q Hdata Hq.
  assert (Hin : In data (channels buffer))
    by (apply list_elem_of_In, list_elem_of_lookup; exists channel; exact Hdata).
  assert (Hi : (i < buf_length buffer)%nat).
  { destruct Hwf as [_ Hlen]. rewrite List.Forall_forall in Hlen.
    rewrite <- (Hlen data Hin). apply lookup_lt_Some with (x := Fin q). exact Hq. }
  assert (Hr : (-1 <= q)%Q /\ (q <= 1)%Q).
  { unfold unit_range in Hunit. rewrite List.Forall_forall in Hunit.
    specialize (Hunit data Hin). rewrite List.Forall_forall in Hunit.
    destruct (Hunit (Fin q)) as [q' [[= <-] Hr]]; [|exact Hr].
    apply list_elem_of_In, list_elem_of_lookup. exists i. exact Hq. }
  destruct Hr as [Hlo Hhi].
  exists (quantised q). split.
  { rewrite lookup_map, (interleaved_lookup buffer i channel data Hwf Hdata Hi).
    unfold sample_at. rewrite Hq. simpl.
    rewrite stored_int16_quantised by assumption. reflexivity. }
  split; [apply quantised_range; assumption|].
  split; [apply quantised_error_decoder_scale; assumption|].
  split; [apply quantised_error; assumption|].
  intros m Hm E. rewrite (quantised_pcm q m Hm E).
  destruct (m <=? 0); [left | right]; reflexivity.
Qed.

(** ** The buffers of the pipeline *)

(** [generateTTS] feeds the encoder with what [decodeAudioData] makes of the
    16-bit samples of the service; such a buffer meets the conditions of the
    round trip, and every 16-bit sample [m] comes back as [m] or [m - 1]. *)

Lemma Int16Array_range data :
  Forall (fun b => 0 <= b < 256) data ->
  forall ints, Int16Array data = Some ints ->
  Forall (fun m => -32768 <= m <= 32767) ints.
Proof.
  assert (H : forall n data, (length data <= n)%nat ->
            Forall (fun b => 0 <= b < 256) data ->
            forall ints, Int16Array data = Some ints ->
            Forall (fun m => -32768 <= m <= 32767) ints).
  { clear data. induction n as [|n IH]; intros data Hn Hb ints E.
    - destruct data; [injection E as <-; constructor | simpl in Hn; lia].
    - destruct data as [|lo [|hi rest]]; simpl in E.
      + injection E as <-. constructor.
      + discriminate.
      + destruct (Int16Array rest) as [r|] eqn:R; [|discriminate].
        injection E as <-.
        inversion Hb as [|? ? Hlo Hb']; subst.
        inversion Hb' as [|? ? Hhi Hb'']; subst.
        constructor.
        * unfold int16_of. destruct (Z.ltb_spec (lo + 256 * hi) 32768); lia.
        * apply (IH rest); [simpl in Hn; lia | exact Hb'' | exact R]. }
  intros Hb ints E. exact (H (length data) data (le_n _) Hb ints E).
Qed.

Lemma decodeAudioData_inv data rate numChannels b :
  decodeAudioData data rate numChannels = Some b ->
  exists dataInt16,
    Int16Array data = Some dataInt16 /\ numChannels <> 0%nat /\
    numberOfChannels b = numChannels /\ sampleRate b = rate /\
    buf_length b = (length dataInt16 / numChannels)%nat /\
    channels b =
      List.map (fun channel =>
        List.map (fun i =>
          match dataInt16 !! (i * numChannels + channel)%nat with
          | Some v => Fin (v # 32768)
          | None => NaN
          end) (seq 0 (length dataInt16 / numChannels)))
        (seq 0 numChannels).
Proof.
  unfold decodeAudioData. intros E.
  destruct (Int16Array data) as [ints|]; [|discriminate].
  rewrite bind_Some in E.
  destruct (decide _) as [|Hn]; [discriminate|].
  injection E as <-. exists ints. cbn. repeat split. lia.
Qed.

Lemma decodeAudioData_sample data rate numChannels b dataInt16 i channel :
  decodeAudioData data rate numChannels = Some b ->
  Int16Array data = Some dataInt16 ->
  (i < buf_length b)%nat -> (channel < numChannels)%nat ->
  exists m samples,
    dataInt16 !! (i * numChannels + channel)%nat = Some m /\
    getChannelData b channel = Some samples /\
    samples !! i = Some (Fin (m # 32768)).
Proof.
  intros E Hints Hi Hch.
  destruct (decodeAudioData_inv _ _ _ _ E)
    as (ints & Hints' & Hn & _ & _ & Hlen & Hchans).
  rewrite Hints in Hints'. injection Hints' as <-.
  rewrite Hlen in Hi.
  assert (Hidx : (i * numChannels + channel < length dataInt16)%nat).
  { pose proof (Nat.Div0.mul_div_le (length dataInt16) numChannels). nia. }
  destruct (lookup_lt_is_Some_2 dataInt16 _ Hidx) as [m Hm].
  exists m. eexists. split; [exact Hm|].
  unfold getChannelData. rewrite Hchans.
  rewrite lookup_map, lookup_seq_lt by exact Hch. simpl. split; [reflexivity|].
  rewrite lookup_map, lookup_seq_lt by exact Hi. simpl. rewrite Hm. reflexivity.
Qed.

Lemma decodeAudioData_wf data rate numChannels b :
  decodeAudioData data rate numChannels = Some b -> wf_buffer b.
Proof.
  intros E.
  destruct (decodeAudioData_inv _ _ _ _ E)
    as (ints & _ & _ & HC & _ & Hlen & Hchans).
  split.
  - rewrite Hchans, length_map, length_seq. congruence.
  - rewrite Hchans. apply List.Forall_forall. intros ch Hin.
    apply in_map_iff in Hin as (c & <- & _).
    rewrite length_map, length_seq. congruence.
Qed.

Lemma decodeAudioData_unit_range data rate numChannels b :
  Forall (fun b => 0 <= b < 256) data ->
  decodeAudioData data rate numChannels = Some b -> unit_range b.
Proof.
  intros Hb E.
  destruct (decodeAudioData_inv _ _ _ _ E)
    as (ints & Hints & _ & HC & _ & Hlen & Hchans).
  pose proof (Int16Array_range data Hb ints Hints) as R.
  rewrite List.Forall_forall in R.
  unfold unit_range. apply List.Forall_forall. intros samples Hin.
  apply list_elem_of_In, list_elem_of_lookup in Hin as [channel Hsamples].
  assert (Hch : (channel < numChannels)%nat).
  { apply lookup_lt_Some in Hsamples.
    rewrite Hchans, length_map, length_seq in Hsamples. exact Hsamples. }
  apply List.Forall_forall. intros x Hx.
  apply list_elem_of_In, list_elem_of_lookup in Hx as [i Hx].
  assert (Hi : (i < buf_length b)%nat).
  { apply lookup_lt_Some in Hx.
    rewrite Hchans, lookup_map, lookup_seq_lt in Hsamples by exact Hch.
    injection Hsamples as <-.
    rewrite length_map, length_seq in Hx. congruence. }
  destruct (decodeAudioData_sample _ _ _ _ _ i channel E Hints Hi Hch)
    as (m & samples' & Hm & Hs' & Hsi).
  unfold getChannelData in Hs'. rewrite Hsamples in Hs'. injection Hs' as <-.
  rewrite Hx in Hsi. injection Hsi as ->.
  assert (Hr : -32768 <= m <= 32767).
  { apply R. apply list_elem_of_In, list_elem_of_lookup. eexists. exact Hm. }
  exists (m # 32768)%Q. split; [reflexivity|].
  unfold Qle. cbn [Qnum Qden]. lia.
Qed.

Lemma decodeAudioData_read_back data rate numChannels b dataInt16 :
  Forall (fun b => 0 <= b < 256) data ->
  decodeAudioData data rate numChannels = Some b ->
  Int16Array data = Some dataInt16 ->
  header_fits b ->
  exists blob info,
    audioBufferToWav b = Some blob /\ parse_wav blob = Some info /\
    wav_rate info = ToInteger rate /\
    wav_channels info = Z.of_nat numChannels /\
    forall k m,
      (k < buf_length b * numChannels)%nat -> dataInt16 !! k = Some m ->
      exists v, wav_samples info !! k = Some v /\ (v = m \/ v = m - 1).
Proof.
  intros Hb E Hints Hfits.
  destruct (decodeAudioData_inv _ _ _ _ E)
    as (ints & _ & Hn & HC & Hrate & _ & _).
  destruct (audioBufferToWav_read_back b (decodeAudioData_wf _ _ _ _ E) Hfits
              (decodeAudioData_unit_range _ _ _ _ Hb E))
    as (blob & info & Henc & Hparse & Hr & Hc & _ & Hsamples).
  exists blob, info. rewrite Hr, Hc, HC, Hrate. repeat split; try assumption.
  intros k m Hk Hm.
  assert (Hi : (k / numChannels < buf_length b)%nat)
    by (apply Nat.Div0.div_lt_upper_bound; lia).
  assert (Hch : (k mod numChannels < numChannels)%nat)
    by (apply Nat.mod_upper_bound; exact Hn).
  assert (Hk' : k = (k / numChannels * numChannels + k mod numChannels)%nat)
    by (rewrite (Nat.div_mod_eq k numChannels) at 1; lia).
  destruct (decodeAudioData_sample _ _ _ _ _ _ _ E Hints Hi Hch)
    as (m' & samples & Hm' & Hs & Hsi).
  rewrite <- Hk', Hm in Hm'. injection Hm' as <-.
  destruct (Hsamples _ _ _ _ Hs Hsi) as (v & Hv & _ & _ & Hpcm).
  rewrite HC, <- Hk' in Hv. exists v. split; [exact Hv|].
  apply Hpcm; [|reflexivity].
  pose proof (Int16Array_range data Hb dataInt16 Hints) as R.
  rewrite List.Forall_forall in R. apply R.
  apply list_elem_of_In, list_elem_of_lookup. eexists. exact Hm.
Qed.

(** Against C7 as stated: a sample of 65535/65536 is stored as 32766,
    which is one and a half 16-bit steps from the sample on the scale of
    the decoder; and a rate of 22050.5 Hz is read back as 22050. *)
Lemma audioBufferToWav_loses_more_than_one_step :
  wf_buffer fractional_rate /\ unit_range fractional_rate /\
  exists blob info,
    audioBufferToWav fractional_rate = Some blob /\
    parse_wav blob = Some info /\
    wav_samples info = [32766] /\
    (1 < Qabs (inject_Z 32766 - 32768 * (65535 # 65536)))%Q /\
    wav_rate info = 22050 /\
    ~ (inject_Z (wav_rate info) == sampleRate fractional_rate)%Q.
Proof.
  split; [split; [reflexivity | repeat constructor]|].
  split.
  { repeat constructor. eexists. split; [reflexivity|].
    split; unfold Qle; cbn; lia. }
  eexists. eexists. split; [reflexivity|]. split; [reflexivity|].
  split; [reflexivity|]. split; [reflexivity|]. split; [reflexivity|].
  cbn [wav_rate]. intros E. unfold Qeq in E. vm_compute in E. discriminate E.
Qed.

(** C7 as amended. Encoding a buffer of samples of [-1, 1] and reading the
    container back with the standard 44-byte header layout gives the
    channel count of the buffer, the integer part of its sample rate (the
    rate itself when that is integral) and one 16-bit sample per sample of
    the buffer, in interleaved order.  The sample read back is less than
    two 16-bit steps from the original on the scale 1/32768 of the decoder,
    and within one step at the full scale [0x7FFF] of the encoder; a sample
    that was decoded from a 16-bit value [m] comes back as [m] or [m - 1].
    The second part is the round trip for the buffers of the program, which
    [decodeAudioData] makes from 16-bit samples at an integral rate: the
    rate is read back as it is and every sample within one step. *)
Theorem audioBufferToWav_round_trip :
  (forall buffer,
     wf_buffer buffer -> header_fits buffer -> unit_range buffer ->
     exists blob info,
       audioBufferToWav buffer = Some blob /\
       parse_wav blob = Some info /\
       wav_rate info = ToInteger (sampleRate buffer) /\
       (forall r, sampleRate buffer = inject_Z r -> wav_rate info = r) /\
       wav_channels info = Z.of_nat (numberOfChannels buffer) /\
       length (wav_samples info)
         = (buf_length buffer * numberOfChannels buffer)%nat /\
       forall i channel data q,
         getChannelData buffer channel = Some data ->
         data !! i = Some (Fin q) ->
         exists v,
           wav_samples info !! (i * numberOfChannels buffer + channel)%nat
             = Some v /\
           -32768 <= v <= 32767 /\
           (Qabs (inject_Z v - 32768 * q) < 2)%Q /\
           (Qabs (inject_Z v - 32767 * q) <= 1)%Q /\
           forall m, -32768 <= m <= 32767 -> (q == m # 32768)%Q ->
                     v = m \/ v = m - 1) /\
  (forall data rate numChannels buffer dataInt16,
     supported rate numChannels ->
     Forall (fun b => 0 <= b < 256) data ->
     decodeAudioData data (inject_Z rate) numChannels = Some buffer ->
     Int16Array data = Some dataInt16 ->
     header_fits buffer ->
     exists blob info,
       audioBufferToWav buffer = Some blob /\ parse_wav blob = Some info /\
       wav_rate info = rate /\ wav_channels info = Z.of_nat numChannels /\
       forall k m,
         (k < buf_length buffer * numChannels)%nat -> dataInt16 !! k = Some m ->
         exists v, wav_samples info !! k = Some v /\ Z.abs (v - m) <= 1).
Proof.
  split.
  - intros buffer Hwf Hfits Hunit.
    destruct (audioBufferToWav_read_back buffer Hwf Hfits Hunit)
      as (blob & info & Henc & Hparse & Hr & Hrest).
    exists blob, info. split; [exact Henc|]. split; [exact Hparse|].
    split; [exact Hr|]. split; [|exact Hrest].
    intros r E. rewrite Hr, E. apply ToInteger_inject_Z.
  - intros data rate numChannels buffer dataInt16 _ Hb E Hints Hfits.
    destruct (decodeAudioData_read_back _ _ _ _ _ Hb E Hints Hfits)
      as (blob & info & Henc & Hparse & Hr & Hc & Hs).
    exists blob, info. split; [exact Henc|]. split; [exact Hparse|].
    split; [rewrite Hr; apply ToInteger_inject_Z|]. split; [exact Hc|].
    intros k m Hk Hm. destruct (Hs k m Hk Hm) as (v & Hv & Hvm).
    exists v. split; [exact Hv | lia].
Qed.

Lemma audioBufferToWav_round_trip_witness :
  (wf_buffer stereo_frames /\ header_fits stereo_frames /\
   unit_range stereo_frames /\
   exists blob info,
     audioBufferToWav stereo_frames = Some blob /\
     parse_wav blob = Some info /\
     wav_rate info = ToInteger 24000 /\
     (forall r, sampleRate stereo_frames = inject_Z r -> wav_rate info = r) /\
     wav_channels info = 2 /\
     length (wav_samples info) = 4%nat /\
     forall i channel data q,
       getChannelData stereo_frames channel = Some data ->
       data !! i = Some (Fin q) ->
       exists v,
         wav_samples info !! (i * 2 + channel)%nat = Some v /\
         -32768 <= v <= 32767 /\
         (Qabs (inject_Z v - 32768 * q) < 2)%Q /\
         (Qabs (inject_Z v - 32767 * q) <= 1)%Q /\
         forall m, -32768 <= m <= 32767 -> (q == m # 32768)%Q ->
                   v = m \/ v = m - 1) /\
  (supported 24000 1 /\
   Forall (fun b => 0 <= b < 256) pcm_bytes /\
   decodeAudioData pcm_bytes (inject_Z 24000) 1 = Some pcm_buffer /\
   Int16Array pcm_bytes = Some [32767; -32768; 1; -1] /\
   header_fits pcm_buffer /\
   exists blob info,
     audioBufferToWav pcm_buffer = Some blob /\ parse_wav blob = Some info /\
     wav_rate info = 24000 /\ wav_channels info = 1 /\
     forall k m,
       (k < 4 * 1)%nat -> [32767; -32768; 1; -1] !! k = Some m ->
       exists v, wav_samples info !! k = Some v /\ Z.abs (v - m) <= 1).
Proof.
  split.
  - assert (W : wf_buffer stereo_frames)
      by (split; [reflexivity | repeat constructor]).
    assert (F : header_fits stereo_frames)
      by (unfold header_fits, Qle, Qlt; cbn; lia).
    assert (U : unit_range stereo_frames)
      by (repeat constructor; eexists; (split; [reflexivity|]);
          split; unfold Qle; cbn; lia).
    split; [exact W|]. split; [exact F|]. split; [exact U|].
    exact (proj1 audioBufferToWav_round_trip stereo_frames W F U).
  - assert (S : supported 24000 1) by (unfold supported; lia).
    assert (B : Forall (fun b => 0 <= b < 256) pcm_bytes)
      by (repeat constructor; lia).
    assert (D : decodeAudioData pcm_bytes (inject_Z 24000) 1 = Some pcm_buffer)
      by reflexivity.
    assert (I : Int16Array pcm_bytes = Some [32767; -32768; 1; -1])
      by reflexivity.
    assert (F : header_fits pcm_buffer)
      by (unfold header_fits, Qle, Qlt; cbn; lia).
    split; [exact S|]. split; [exact B|]. split; [exact D|].
    split; [exact I|]. split; [exact F|].
    exact (proj2 audioBufferToWav_round_trip pcm_bytes 24000 1%nat pcm_buffer
             [32767; -32768; 1; -1] S B D I F).
Defined.

(** ** The synthesis request *)

Lemma remove_class_app cls s t :
  remove_class cls (s ++ t) = remove_class cls s ++ remove_class cls t.
Proof. apply List.filter_app. Qed.

(** C9. The text that [generateTTS] sends to the synthesis service is the
    fixed instruction followed by the input without its code units in
    U+0000-U+001F and U+007F-U+009F, cut to its first 4000 code units: what
    the sanitised text holds beyond them never reaches the service, and the
    service is asked for nothing else.  That this text is what the service
    receives is observed on the service: one that rejects every request
    with the request it was given makes [generateTTS] reject with exactly
    this text, and whatever a service does with this request and the chosen
    voice, a rejection of it is the rejection of [generateTTS]. *)
Theorem generateTTS_request text :
  textWithInstruction text
    = instruction ++ take 4000 (List.filter (fun c => negb (is_control c)) text) /\
  (length (sanitizedText text) <= 4000)%nat /\
  Forall (fun c => is_control c = false) (sanitizedText text) /\
  remove_class is_control text
    = sanitizedText text ++ drop 4000 (remove_class is_control text) /\
  (forall more, (4000 <= length (remove_class is_control text))%nat ->
     textWithInstruction (text ++ more) = textWithInstruction text) /\
  (forall speech speech' atob createObjectURL voiceName,
     speech (textWithInstruction text) voiceName
       = speech' (textWithInstruction text) voiceName ->
     generateTTS speech atob createObjectURL text voiceName
       = generateTTS speech' atob createObjectURL text voiceName) /\
  (forall atob createObjectURL voiceName,
     generateTTS (fun request _ => Thrown (Error request))
                 atob createObjectURL text voiceName
     = Thrown (Error (textWithInstruction text))) /\
  (forall speech atob createObjectURL voiceName e,
     speech (textWithInstruction text) voiceName = Thrown e ->
     generateTTS speech atob createObjectURL text voiceName = Thrown e).
Proof.
  split; [reflexivity|].
  split; [unfold sanitizedText, substring0; rewrite length_take; lia|].
  split; [apply Forall_take, remove_class_no_control|].
  split; [symmetry; apply take_drop|].
  split; [|split; [|split]].
  - intros more Hlen. unfold textWithInstruction, sanitizedText, substring0.
    rewrite remove_class_app, take_app_le by exact Hlen. reflexivity.
  - intros speech speech' atob createObjectURL voiceName E.
    unfold generateTTS. rewrite E. reflexivity.
  - intros atob createObjectURL voiceName. reflexivity.
  - intros speech atob createObjectURL voiceName e E.
    unfold generateTTS. rewrite E. reflexivity.
Qed.

Lemma generateTTS_request_witness :
  (4000 <= length (remove_class is_control (replicate 4000 (65 : Z) ++ lit "tail")))%nat /\
  textWithInstruction ((replicate 4000 (65 : Z) ++ lit "tail") ++ lit "more")
    = textWithInstruction (replicate 4000 (65 : Z) ++ lit "tail") /\
  generateTTS (fun _ _ => Returned None) Returned (fun _ => []) (lit "Hi") Kore
    = generateTTS (fun request _ =>
                     if bool_decide (request = textWithInstruction (lit "Hi"))
                     then Returned None else Thrown (Rejected 503))
                  Returned (fun _ => []) (lit "Hi") Kore /\
  generateTTS (fun request voiceName =>
                 match voiceName with
                 | Kore => if bool_decide
                                (request = instruction ++ lit "Hi")
                           then Thrown (Rejected 429) else Returned None
                 | _ => Returned None
                 end)
              Returned (fun _ => []) (lit "Hi") Kore
    = Thrown (Rejected 429).
Proof.
  assert (H : (4000 <= length (remove_class is_control
                                 (replicate 4000 (65 : Z) ++ lit "tail")))%nat)
    by (apply Nat.leb_le; vm_compute; reflexivity).
  split; [exact H|]. split; [|split].
  - exact (proj1 (proj2 (proj2 (proj2 (proj2
             (generateTTS_request (replicate 4000 (65 : Z) ++ lit "tail"))))))
             (lit "more") H).
  - apply (proj1 (proj2 (proj2 (proj2 (proj2 (proj2
             (generateTTS_request (lit "Hi")))))))).
    rewrite bool_decide_eq_true_2 by reflexivity. reflexivity.
  - apply (proj2 (proj2 (proj2 (proj2 (proj2 (proj2 (proj2
             (generateTTS_request (lit "Hi"))))))))).
    rewrite bool_decide_eq_true_2 by reflexivity. reflexivity.
Defined.

(** ** Failures of the generation *)

Section Failure.

Import App.

Lemma map_chunk_compose chunkId f g prev :
  (forall c, id (f c) = id c) ->
  map_chunk chunkId g (map_chunk chunkId f prev)
  = map_chunk chunkId (fun c => g (f c)) prev.
Proof.
  intros Hid. unfold map_chunk. cbn [chunks originalFileName selectedVoice
    lastPlayedChunkId lastPlayedTime currentPage playbackRate isAutoNext].
  f_equal. rewrite List.map_map. apply List.map_ext. intros c.
  destruct (bool_decide (id c = chunkId)) eqn:E.
  - rewrite Hid, E. reflexivity.
  - rewrite E. reflexivity.
Qed.

Lemma map_chunk_failure chunkId f prev :
  (forall c, status (f c) = error /\ id (f c) = id c) ->
  Forall2 (section_after_failure chunkId)
          (chunks prev) (chunks (map_chunk chunkId f prev)).
Proof.
  intros Hf. unfold map_chunk. cbn [chunks].
  induction (chunks prev) as [|c l IH]; simpl; constructor; [|exact IH].
  unfold section_after_failure.
  destruct (bool_decide (id c = chunkId)); [apply Hf | reflexivity].
Qed.

(** C8. A synthesis response without audio makes [generateTTS] throw, and a
    failure of the reflow or of the synthesis inside [handleGenerateTTS] is
    caught there: the handler returns [false] instead of throwing, and its
    state updates, applied to whatever the state is, leave every section
    with another id as it was and put the section of this id in status
    [error]. *)
Theorem generation_failure_contained
    (generateText : str -> outcome (option str))
    (generateSpeech : str -> VoiceName -> outcome (option str))
    (atob : str -> outcome str) (createObjectURL : bytes -> str) :
  (forall text voiceName,
     generateSpeech (textWithInstruction text) voiceName = Returned None \/
     generateSpeech (textWithInstruction text) voiceName = Returned (Some []) ->
     generateTTS generateSpeech atob createObjectURL text voiceName
       = Thrown (Error no_audio_message)) /\
  (forall state chunkId autoPlayAfter chunk,
     List.find (fun c => bool_decide (id c = chunkId)) (chunks state) = Some chunk ->
     status chunk <> ready ->
     (exists e, restructureTextWithAI generateText (content chunk) = Thrown e) \/
     (exists restructured e,
        restructureTextWithAI generateText (content chunk) = Returned restructured /\
        generateTTS generateSpeech atob createObjectURL restructured
                    (selectedVoice state) = Thrown e) ->
     let run := handleGenerateTTS (restructureTextWithAI generateText)
                  (generateTTS generateSpeech atob createObjectURL)
                  state chunkId autoPlayAfter in
     snd run = Returned false /\
     forall prev,
       Forall2 (section_after_failure chunkId)
               (chunks prev) (chunks (run_effects (fst run) prev))).
Proof.
  split.
  - intros text voiceName [E | E]; unfold generateTTS; rewrite E; reflexivity.
  - intros state chunkId autoPlayAfter chunk Hfind Hstatus Hfail run.
    subst run. unfold handleGenerateTTS. rewrite Hfind.
    assert (Hbody :
      forall t : task bool,
        t = try_catch
              (bind (perform (SetState (map_chunk chunkId (with_status analyzing))))
                 (fun _ =>
               bind (await (restructureTextWithAI generateText (content chunk)))
                 (fun restructuredContent =>
               bind (perform (SetState (map_chunk chunkId
                               (with_content restructuredContent generating))))
                 (fun _ =>
               bind (await (generateTTS generateSpeech atob createObjectURL
                              restructuredContent (selectedVoice state)))
                 (fun result =>
               bind (perform (SetState (map_chunk chunkId
                               (with_audio ready (snd result)))))
                 (fun _ =>
               bind (if autoPlayAfter
                     then perform (HandlePlay (snd result) chunkId) else ret tt)
                 (fun _ => ret true)))))))
              (fun err =>
               bind (perform (ConsoleError err)) (fun _ =>
               bind (perform (SetState (map_chunk chunkId (with_status error))))
                 (fun _ => ret false))) ->
        snd t = Returned false /\
        forall prev,
          Forall2 (section_after_failure chunkId)
                  (chunks prev) (chunks (run_effects (fst t) prev))).
    { intros t ->.
      destruct Hfail as [[e E] | (restructured & e & E1 & E2)].
      - rewrite E.
        cbn [try_catch bind perform await ret fst snd app run_effects
             fold_left apply_effect].
        split; [reflexivity|]. intros prev.
        rewrite map_chunk_compose by reflexivity.
        apply map_chunk_failure. intros c. split; reflexivity.
      - rewrite E1.
        cbn [try_catch bind perform await ret fst snd app run_effects
             fold_left apply_effect].
        rewrite E2.
        cbn [try_catch bind perform await ret fst snd app run_effects
             fold_left apply_effect].
        split; [reflexivity|]. intros prev.
        rewrite !map_chunk_compose by reflexivity.
        apply map_chunk_failure. intros c. split; reflexivity. }
    destruct (status chunk) eqn:S; try (apply Hbody; reflexivity).
    contradiction.
Qed.

Lemma generation_failure_contained_witness :
  generateTTS silent_speech Returned (fun _ => []) (lit "One.") Puck
    = Thrown (Error no_audio_message) /\
  List.find (fun c => bool_decide (id c = lit "a")) (chunks demo_state)
    = Some demo_chunk /\
  status demo_chunk <> ready /\
  snd demo_run = Returned false /\
  Forall2 (section_after_failure (lit "a"))
          (chunks demo_state) (chunks (run_effects (fst demo_run) demo_state)).
Proof.
  destruct (generation_failure_contained
              (fun _ => Returned None) silent_speech Returned (fun _ => []))
    as [Hthrow Hcatch].
  assert (T : generateTTS silent_speech Returned (fun _ => []) (lit "One.") Puck
              = Thrown (Error no_audio_message))
    by (apply Hthrow; left; reflexivity).
  assert (F : List.find (fun c => bool_decide (id c = lit "a")) (chunks demo_state)
              = Some demo_chunk) by reflexivity.
  assert (S : status demo_chunk <> ready) by discriminate.
  split; [exact T|]. split; [exact F|]. split; [exact S|].
  destruct (Hcatch demo_state (lit "a") true demo_chunk F S) as [Hret Hstate].
  - right. exists (lit "One."), (Error no_audio_message).
    split; [reflexivity | exact T].
  - split; [exact Hret | apply Hstate].
Defined.

End Failure.

(** * Further properties of the code *)

(** ** What a spacing rule does to any text *)

Lemma space_after_inserted at_end q :
  forall n s, (length s <= n)%nat -> inserted q s (space_after at_end q s).
Proof.
  induction n as [|n IH]; intros s Hn.
  - destruct s; [constructor | simpl in Hn; lia].
  - destruct s as [|c rest]; [constructor|]. simpl in Hn.
    cbn [space_after]. destruct (Z.eqb_spec c q) as [->|Hc].
    + destruct rest as [|d rest'].
      * destruct at_end;
          [apply inserted_add | apply inserted_keep]; constructor.
      * destruct (is_ws d).
        -- apply inserted_keep. apply IH. simpl in *. lia.
        -- apply inserted_add. apply inserted_keep. apply IH. simpl in *. lia.
    + apply inserted_keep. apply IH. lia.
Qed.

Lemma inserted_head q s o : inserted q s o -> head o = head s.
Proof. destruct 1; reflexivity. Qed.

Lemma inserted_Forall (P : Z -> Prop) q s o :
  P 32 -> inserted q s o -> Forall P s -> Forall P o.
Proof.
  intros P32. induction 1 as [|c s o _ IH|s o _ IH]; intros H.
  - constructor.
  - inversion H; subst. constructor; auto.
  - inversion H; subst. repeat constructor; auto.
Qed.

Lemma inserted_all_next (R : Z -> option Z -> bool) q s o :
  R q (Some 32) = true -> (forall nx, R 32 nx = true) ->
  inserted q s o -> all_next R s = true -> all_next R o = true.
Proof.
  intros Rq Rs. induction 1 as [|c s o I IH|s o I IH]; cbn [all_next head].
  - reflexivity.
  - intros H. apply andb_true_iff in H as [Hc Hs].
    rewrite (inserted_head _ _ _ I), Hc. exact (IH Hs).
  - intros H. apply andb_true_iff in H as [_ Hs].
    rewrite Rq, Rs. exact (IH Hs).
Qed.

Lemma inserted_tame p q s o :
  (q =? p) = false -> (32 =? p) = false ->
  inserted q s o -> tame p s = true -> tame p o = true.
Proof.
  intros Hq H32. induction 1 as [|c s o I IH|s o I IH]; cbn [tame].
  - reflexivity.
  - intros H. apply andb_true_iff in H as [Hc Hs].
    rewrite (IH Hs), andb_true_r.
    unfold tame_at in *. destruct (Z.eqb_spec c p) as [->|Hcp].
    2:{ destruct o; reflexivity. }
    inversion I as [|b r o1 I1|r o1 I1]; subst; try reflexivity.
    + destruct (Z.eqb_spec b p) as [->|Hbp]; [|reflexivity].
      cbn [andb negb orb] in *.
      pose proof (inserted_head _ _ _ I1) as Hh.
      destruct r, o1; try discriminate; try reflexivity.
      simpl in Hh. injection Hh as ->. exact Hc.
    + rewrite Hq. reflexivity.
  - intros H. apply andb_true_iff in H as [_ Hs].
    rewrite (IH Hs). unfold tame_at. rewrite Hq, H32.
    destruct o; reflexivity.
Qed.

Lemma inserted_ws_erased q s o : inserted q s o -> ws_erased s o.
Proof.
  induction 1; [constructor | constructor; assumption|].
  apply we_keep. apply we_drop; [reflexivity | assumption].
Qed.

Section Taming.

Variable p : Z.
Hypothesis p_not_ws : is_ws p = false.

Lemma space_after_head at_end s : head (space_after at_end p s) = head s.
Proof.
  apply inserted_head with (q := p).
  apply (space_after_inserted at_end p (length s)). lia.
Qed.

(** A mark at the head of what a spacing rule returns is followed by
    whitespace, or it is the whole result. *)
Lemma space_after_head_spaced at_end s :
  match space_after at_end p s with
  | a :: b :: _ => (a =? p) = true -> is_ws b = true
  | _ => True
  end.
Proof.
  destruct s as [|c rest]; [exact I|]. cbn [space_after].
  destruct (Z.eqb_spec c p) as [->|Hc].
  - destruct rest as [|d rest'].
    + destruct at_end; [reflexivity | exact I].
    + destruct (is_ws d) eqn:W; [|reflexivity].
      pose proof (space_after_head at_end (d :: rest')) as Hh.
      destruct (space_after at_end p (d :: rest')) as [|x o]; [exact I|].
      injection Hh as ->. intros _. exact W.
  - destruct (space_after at_end p rest); [exact I|].
    intros E. apply Z.eqb_eq in E. contradiction.
Qed.

Lemma tame_at_head a t t' :
  head t = head t' -> head (tail t) = head (tail t') ->
  tame_at p a t = tame_at p a t'.
Proof.
  destruct t as [|b [|c r]], t' as [|b' [|c' r']]; simpl;
    intros H1 H2; try discriminate; try reflexivity;
    injection H1 as ->; try injection H2 as ->; reflexivity.
Qed.

(** After its spacing rule a mark is tame, whatever the text was. *)
Lemma space_after_tame at_end :
  forall n s, (length s <= n)%nat -> tame p (space_after at_end p s) = true.
Proof.
  induction n as [|n IH]; intros s Hn.
  - destruct s; [reflexivity | simpl in Hn; lia].
  - destruct s as [|c rest]; [reflexivity|]. simpl in Hn.
    cbn [space_after]. destruct (Z.eqb_spec c p) as [->|Hc].
    + destruct rest as [|d rest'].
      * destruct at_end; cbn; rewrite ?andb_true_r, ?orb_true_r; reflexivity.
      * destruct (is_ws d) eqn:W.
        -- cbn [tame]. rewrite (IH (d :: rest')) by (simpl in *; lia).
           rewrite andb_true_r.
           pose proof (space_after_head at_end (d :: rest')) as Hh.
           destruct (space_after at_end p (d :: rest')) as [|x o];
             [reflexivity|]. injection Hh as ->.
           unfold tame_at. rewrite (ws_not_p p p_not_ws d W), andb_false_r.
           reflexivity.
        -- cbn [tame]. rewrite (IH rest') by (simpl in *; lia).
           rewrite andb_true_r.
           assert (H32 : (32 =? p) = false) by (apply p_not_space; exact p_not_ws).
           unfold tame_at at 1 2. rewrite H32, andb_false_r. cbn [negb orb andb].
           pose proof (space_after_head_spaced at_end rest') as Hs.
           unfold tame_at.
           destruct (space_after at_end p rest') as [|x [|y o]]; try reflexivity.
           ++ rewrite orb_true_r. reflexivity.
           ++ destruct (x =? p) eqn:Ex.
              ** rewrite (Hs eq_refl), orb_true_r. reflexivity.
              ** rewrite andb_false_r. reflexivity.
    + cbn [tame]. rewrite (IH rest) by lia. rewrite andb_true_r.
      unfold tame_at. apply Z.eqb_neq in Hc. rewrite Hc.
      destruct (space_after at_end p rest); reflexivity.
Qed.

Lemma tame_tail a s : tame p (a :: s) = true -> tame p s = true.
Proof. cbn [tame]. intros H. apply andb_true_iff in H as [_ H]. exact H. Qed.

(** On a text where the mark is tame, its spacing rule leaves every
    occurrence followed by whitespace or last. *)
Lemma space_after_tame_spaced at_end :
  forall n s, (length s <= n)%nat -> tame p s = true ->
  spaced false p (space_after at_end p s).
Proof.
  unfold spaced. induction n as [|n IH]; intros s Hn Ht.
  - destruct s; [reflexivity | simpl in Hn; lia].
  - destruct s as [|c rest]; [reflexivity|]. simpl in Hn.
    cbn [space_after]. destruct (Z.eqb_spec c p) as [->|Hc].
    + destruct rest as [|d rest'].
      * unfold followed_by_ws.
        destruct at_end; cbn [all_next head]; rewrite ?orb_true_r;
          try reflexivity; change (is_ws 32) with true;
          rewrite ?orb_true_r; reflexivity.
      * destruct (is_ws d) eqn:W.
        -- cbn [all_next]. rewrite (IH (d :: rest')) by
             (first [simpl in *; lia | exact (tame_tail _ _ Ht)]).
           rewrite andb_true_r, space_after_head. cbn [head].
           unfold followed_by_ws. rewrite W, orb_true_r. reflexivity.
        -- cbn [all_next head].
           rewrite (IH rest') by
             (first [simpl in *; lia | exact (tame_tail _ _ (tame_tail _ _ Ht))]).
           rewrite andb_true_r, space_after_head.
           unfold followed_by_ws at 1 2.
           rewrite (p_not_space p p_not_ws). cbn [negb orb andb is_ws].
           change (is_ws 32) with true. rewrite orb_true_r. cbn [andb].
           unfold followed_by_ws.
           destruct (Z.eqb_spec d p) as [->|Hd]; [|reflexivity].
           cbn [tame] in Ht. apply andb_true_iff in Ht as [Ht _].
           unfold tame_at in Ht. rewrite Z.eqb_refl in Ht. cbn in Ht.
           destruct rest'; [reflexivity | exact Ht].
    + cbn [all_next]. rewrite (IH rest) by
        (first [lia | exact (tame_tail _ _ Ht)]).
      rewrite andb_true_r. unfold followed_by_ws.
      apply Z.eqb_neq in Hc. rewrite Hc. reflexivity.
Qed.

(** A tame mark has no run of three, so a rule that collapses runs of
    three or more leaves the text as it is. *)
Lemma collapse_go_tame k r s :
  (3 <= k)%nat ->
  forall n, (n <= 2)%nat -> tame p (replicate n p ++ s) = true ->
  collapse_go p k r n s = replicate n p ++ s.
Proof.
  intros Hk. induction s as [|d rest IH]; intros n Hn Ht.
  - simpl. unfold flush_run.
    destruct (Nat.leb_spec k n); [lia|]. rewrite app_nil_r. reflexivity.
  - simpl. destruct (Z.eqb_spec d p) as [->|Hd].
    + assert (n <= 1)%nat.
      { destruct n as [|[|[|n]]]; try lia. exfalso.
        cbn in Ht. rewrite Z.eqb_refl, p_not_ws in Ht. discriminate. }
      rewrite (IH (S n)) by
        (first [lia | rewrite replicate_S_end, <- app_assoc; exact Ht]).
      rewrite replicate_S_end, <- app_assoc. reflexivity.
    + rewrite (IH 0%nat) by
        (first [lia
               | simpl; clear - Ht; induction n as [|n IHn];
                 [exact (tame_tail _ _ Ht) | apply IHn; exact (tame_tail _ _ Ht)]]).
      unfold flush_run. destruct (Nat.leb_spec k n); [lia|]. reflexivity.
Qed.

Lemma collapse_runs_tame k r s :
  (3 <= k)%nat -> tame p s = true -> collapse_runs p k r s = s.
Proof.
  intros Hk Ht. unfold collapse_runs.
  rewrite (collapse_go_tame k r s Hk 0%nat); [reflexivity | lia | exact Ht].
Qed.

End Taming.

Lemma replace_class_tame cls r p s :
  cls p = false -> (r =? p) = false -> is_ws r = false ->
  (forall c, cls c = true -> is_ws c = false) ->
  tame p (replace_class cls r s) = tame p s.
Proof.
  intros Hp Hr Wr Wc. induction s as [|a t IH]; [reflexivity|].
  cbn [replace_class List.map tame]. fold (replace_class cls r t).
  rewrite IH. f_equal. unfold tame_at.
  destruct t as [|b u]; [reflexivity|].
  cbn [replace_class List.map]. rewrite !replace_class_eqb by assumption.
  f_equal. destruct u as [|c v]; [reflexivity|]. cbn [List.map].
  destruct (cls c) eqn:E; [|reflexivity]. rewrite Wr, (Wc c E). reflexivity.
Qed.

Lemma tame_app_r p w s : tame p (w ++ s) = true -> tame p s = true.
Proof.
  induction w as [|c w IH]; simpl; [auto|].
  intros H. apply andb_true_iff in H as [_ H]. auto.
Qed.

Lemma tame_app_l p s w : tame p (s ++ w) = true -> tame p s = true.
Proof.
  induction s as [|a t IH]; [reflexivity|]. cbn [app tame].
  intros H. apply andb_true_iff in H as [Ha Ht].
  rewrite (IH Ht), andb_true_r. unfold tame_at in *.
  destruct t as [|b [|c u]]; try reflexivity.
  - destruct ((a =? p) && (b =? p)); reflexivity || (simpl; reflexivity).
  - exact Ha.
Qed.

Lemma tame_trim p s : tame p s = true -> tame p (trim s) = true.
Proof.
  intros H. unfold trim.
  destruct (trimStart_split s) as [w [E _]].
  destruct (trimEnd_split (trimStart s)) as [w' [E' _]].
  rewrite E in H. apply tame_app_r in H. rewrite E' in H.
  exact (tame_app_l _ _ _ H).
Qed.

Lemma inserted_spacing at_end q s : inserted q s (space_after at_end q s).
Proof. apply (space_after_inserted at_end q (length s)). lia. Qed.

(** Each of the four marks is tame after the four spacing rules. *)
Lemma spacing_rules_tame s :
  tame dot (spacing_rules s) = true /\ tame qmark (spacing_rules s) = true /\
  tame bang (spacing_rules s) = true.
Proof.
  unfold spacing_rules.
  set (u1 := space_after true dot s).
  set (u2 := space_after true qmark u1).
  set (u3 := space_after true bang u2).
  assert (D1 : tame dot u1 = true)
    by (apply (space_after_tame dot eq_refl true (length s)); lia).
  assert (Q2 : tame qmark u2 = true)
    by (apply (space_after_tame qmark eq_refl true (length u1)); lia).
  assert (B3 : tame bang u3 = true)
    by (apply (space_after_tame bang eq_refl true (length u2)); lia).
  repeat split.
  - apply (inserted_tame dot comma u3); [reflexivity..|apply inserted_spacing|].
    apply (inserted_tame dot bang u2); [reflexivity..|apply inserted_spacing|].
    apply (inserted_tame dot qmark u1); [reflexivity..|apply inserted_spacing|].
    exact D1.
  - apply (inserted_tame qmark comma u3); [reflexivity..|apply inserted_spacing|].
    apply (inserted_tame qmark bang u2); [reflexivity..|apply inserted_spacing|].
    exact Q2.
  - apply (inserted_tame bang comma u3); [reflexivity..|apply inserted_spacing|].
    exact B3.
Qed.

Lemma spacing_rules_Forall (P : Z -> Prop) s :
  P 32 -> Forall P s -> Forall P (spacing_rules s).
Proof.
  intros P32 H. unfold spacing_rules.
  repeat (eapply inserted_Forall; [exact P32 | apply inserted_spacing|]).
  exact H.
Qed.

Lemma unadorned_glyph_control text :
  Forall unadorned (replace_class is_glyph 32 (remove_class is_control text)).
Proof.
  apply (replace_class_Forall (fun c => is_control c = false)).
  - intros c Hc. split; destruct (is_glyph c) eqn:G; auto.
  - apply remove_class_no_control.
Qed.

Lemma collapsing_is_identity s :
  Forall unadorned s ->
  collapse_runs dot 4 [dot; dot; dot]
    (collapse_runs qmark 3 [qmark; qmark]
       (collapse_runs bang 3 [bang; bang]
          (collapse_runs newline 3 [newline; newline] (spacing_rules s))))
  = spacing_rules s.
Proof.
  intros U. destruct (spacing_rules_tame s) as (D & Q & B).
  rewrite (collapse_runs_absent newline 3)
    by (first [discriminate
              | apply no_control_not; [reflexivity|];
                apply (spacing_rules_Forall (fun c => is_control c = false));
                [reflexivity|]; revert U; apply List.Forall_impl;
                intros c Pc; apply Pc]).
  rewrite (collapse_runs_tame bang eq_refl 3) by (lia || exact B).
  rewrite (collapse_runs_tame qmark eq_refl 3) by (lia || exact Q).
  rewrite (collapse_runs_tame dot eq_refl 4) by (lia || exact D).
  reflexivity.
Qed.

Lemma cleanTextForTTS_uncollapsed text :
  cleanTextForTTS text = cleanText_without_collapsing text.
Proof.
  unfold cleanTextForTTS, cleanText_without_collapsing.
  pose proof (collapsing_is_identity _ (unadorned_glyph_control text)) as H.
  unfold spacing_rules in *. rewrite H. reflexivity.
Qed.

(** X2. For every text the four collapsing replacements of the normaliser
    (three or more line feeds, three or more [!], three or more [?], four
    or more [.]) change nothing: the normaliser returns what it would
    return without them.  No line feed reaches them, and the spacing rules
    that run first leave no run of three marks. *)
Theorem cleanTextForTTS_never_collapses text :
  cleanTextForTTS text = cleanText_without_collapsing text.
Proof. exact (cleanTextForTTS_uncollapsed text). Qed.

Lemma cleanTextForTTS_plain text : Forall plain (cleanTextForTTS text).
Proof.
  rewrite cleanTextForTTS_uncollapsed. unfold cleanText_without_collapsing.
  apply Forall_trim, quotes_Forall_plain.
  apply spacing_rules_Forall; [split; reflexivity|].
  apply unadorned_glyph_control.
Qed.

(** X1. Whatever the text, the normalised text holds no code unit of
    U+0000-U+001F or U+007F-U+009F (so no tab and no line feed), none of the
    eighteen decorative glyphs, none of the four quotation marks that the
    quote rules replace (U+FF02, U+201E, U+2018, U+2019), and no whitespace
    at either end.  Other quotation marks are not touched: the curly double
    quotes U+201C and U+201D are in neither class, and a text between them
    comes back as it is. *)
Theorem cleanTextForTTS_alphabet text :
  Forall plain (cleanTextForTTS text) /\
  trim (cleanTextForTTS text) = cleanTextForTTS text /\
  Forall (fun c => c <> 9 /\ c <> newline /\ c <> 13) (cleanTextForTTS text) /\
  Forall (fun c => c <> 65282 /\ c <> 8222 /\ c <> 8216 /\ c <> 8217)
         (cleanTextForTTS text) /\
  is_dquote 8220 = false /\ is_dquote 8221 = false /\
  cleanTextForTTS ([8220] ++ lit "Hi" ++ [8221]) = [8220] ++ lit "Hi" ++ [8221].
Proof.
  pose proof (cleanTextForTTS_plain text) as P.
  split; [exact P|]. split; [|split; [|split]].
  - unfold cleanTextForTTS. apply trim_trim.
  - revert P. apply List.Forall_impl. intros c (Hc & _).
    repeat split; intros ->; discriminate Hc.
  - revert P. apply List.Forall_impl. intros c (_ & _ & Hd & Hs).
    repeat split; intros ->;
      first [specialize (Hd eq_refl); discriminate Hd
            | specialize (Hs eq_refl); discriminate Hs].
  - repeat split.
Qed.

(** ** The second pass of the normaliser *)

Lemma comma_tame_after_spacing s : tame comma (spacing_rules s) = true.
Proof.
  unfold spacing_rules.
  apply (space_after_tame comma eq_refl false
           (length (space_after true bang
                      (space_after true qmark (space_after true dot s))))).
  lia.
Qed.

Lemma quotes_tame p s :
  is_dquote p = false -> is_squote p = false ->
  (34 =? p) = false -> (39 =? p) = false ->
  tame p (replace_class is_squote 39 (replace_class is_dquote 34 s)) = tame p s.
Proof.
  intros D S E1 E2.
  rewrite !replace_class_tame; auto using is_dquote_not_ws, is_squote_not_ws.
Qed.

(** Every mark is tame in the normalised text. *)
Lemma cleanTextForTTS_tame text :
  all_marks (fun p => tame p (cleanTextForTTS text) = true).
Proof.
  rewrite cleanTextForTTS_uncollapsed. unfold cleanText_without_collapsing.
  set (t1 := replace_class is_glyph 32 (remove_class is_control text)).
  destruct (spacing_rules_tame t1) as (D & Q & B).
  pose proof (comma_tame_after_spacing t1) as C.
  repeat split; apply tame_trim; rewrite quotes_tame by reflexivity; assumption.
Qed.

Lemma spaced_inserted strict p q s o :
  (q =? p) = false -> (32 =? p) = false ->
  inserted q s o -> spaced strict p s -> spaced strict p o.
Proof.
  intros Hq H32. apply inserted_all_next.
  - unfold followed_by_ws. rewrite Hq. reflexivity.
  - intros nx. unfold followed_by_ws. rewrite H32. reflexivity.
Qed.

(** The spacing rules on a text whose marks are tame: every mark ends up
    followed by whitespace, or last. *)
Lemma spacing_rules_spaced s :
  all_marks (fun p => tame p s = true) ->
  all_marks (fun p => spaced false p (spacing_rules s)).
Proof.
  intros (D & Q & B & C). unfold spacing_rules.
  set (u1 := space_after true dot s).
  set (u2 := space_after true qmark u1).
  set (u3 := space_after true bang u2).
  set (u4 := space_after false comma u3).
  assert (I1 : inserted dot s u1) by apply inserted_spacing.
  assert (I2 : inserted qmark u1 u2) by apply inserted_spacing.
  assert (I3 : inserted bang u2 u3) by apply inserted_spacing.
  assert (I4 : inserted comma u3 u4) by apply inserted_spacing.
  assert (Sd : spaced false dot u1)
    by (apply (space_after_tame_spaced dot eq_refl true (length s)); [lia | exact D]).
  assert (Sq : spaced false qmark u2).
  { apply (space_after_tame_spaced qmark eq_refl true (length u1)); [lia|].
    apply (inserted_tame qmark dot s); auto. }
  assert (Sb : spaced false bang u3).
  { apply (space_after_tame_spaced bang eq_refl true (length u2)); [lia|].
    apply (inserted_tame bang qmark u1); auto.
    apply (inserted_tame bang dot s); auto. }
  assert (Sc : spaced false comma u4).
  { apply (space_after_tame_spaced comma eq_refl false (length u3)); [lia|].
    apply (inserted_tame comma bang u2); auto.
    apply (inserted_tame comma qmark u1); auto.
    apply (inserted_tame comma dot s); auto. }
  repeat split.
  - apply (spaced_inserted false dot comma u3); auto.
    apply (spaced_inserted false dot bang u2); auto.
    apply (spaced_inserted false dot qmark u1); auto.
  - apply (spaced_inserted false qmark comma u3); auto.
    apply (spaced_inserted false qmark bang u2); auto.
  - apply (spaced_inserted false bang comma u3); auto.
  - exact Sc.
Qed.

(** The normaliser maps a text of plain code units with tame marks to a
    normal form. *)
Lemma tame_normalised y :
  Forall plain y -> all_marks (fun p => tame p y = true) ->
  normal (cleanTextForTTS y).
Proof.
  intros P T. rewrite cleanTextForTTS_uncollapsed.
  unfold cleanText_without_collapsing.
  rewrite (remove_class_fixed is_control y)
    by (revert P; apply List.Forall_impl; intros c Pc; apply Pc).
  rewrite (replace_class_fixed is_glyph 32 y)
    by (revert P; apply List.Forall_impl; intros c (_ & G & _) E; congruence).
  destruct (spacing_rules_spaced y T) as (Sd & Sq & Sb & Sc).
  assert (U : Forall unadorned (spacing_rules y)).
  { apply spacing_rules_Forall; [split; reflexivity|].
    revert P. apply List.Forall_impl. intros c (Hc & Hg & _). split; assumption. }
  set (u := spacing_rules y) in *.
  assert (K : forall p,
            is_dquote p = false -> is_squote p = false ->
            (34 =? p) = false -> (39 =? p) = false ->
            spaced false p u ->
            spaced false p (trim (replace_class is_squote 39
                                    (replace_class is_dquote 34 u)))).
  { intros p D S E1 E2 Hs. apply (spaced_trim false). unfold spaced.
    rewrite replace_class_spaced, replace_class_spaced;
      auto using is_dquote_not_ws, is_squote_not_ws. }
  repeat split.
  - apply Forall_trim, quotes_Forall_plain, U.
  - apply K; auto.
  - apply K; auto.
  - apply K; auto.
  - apply K; auto.
  - apply trim_trim.
Qed.

(** X3. Two passes of the normaliser always reach a fixed point: a third
    pass returns what the second returned, for every text.  (One pass is not
    enough: three periods need two.) *)
Theorem cleanTextForTTS_stable_after_two text :
  cleanTextForTTS (cleanTextForTTS (cleanTextForTTS text))
  = cleanTextForTTS (cleanTextForTTS text).
Proof.
  apply normal_fixed, tame_normalised.
  - apply cleanTextForTTS_plain.
  - apply cleanTextForTTS_tame.
Qed.

(** ** The chunker at the ends of its range *)

Lemma flush_new_segment a seg :
  flush {| chunks := flush a; currentChunk := seg |}
  = flush a ++ List.filter truthy [trim seg].
Proof.
  unfold flush at 1. cbn [chunks currentChunk List.filter].
  destruct (truthy (trim seg)); [reflexivity | rewrite app_nil_r; reflexivity].
Qed.

Lemma fold_chunk_step_nonpositive maxChars segs :
  maxChars <= 0 ->
  forall a,
  flush (fold_left (chunk_step maxChars) segs a)
  = flush a ++ List.filter truthy (List.map trim segs).
Proof.
  intros Hm. induction segs as [|seg segs IH]; intros a.
  - simpl. rewrite app_nil_r. reflexivity.
  - cbn [fold_left List.map]. rewrite IH. unfold chunk_step.
    destruct seg as [|x seg]; [reflexivity|].
    cbn [truthy negb].
    destruct (Z.gtb_spec (Z.of_nat (length (currentChunk a))
                          + Z.of_nat (length (x :: seg))) maxChars) as [_|Hle];
      [|simpl in Hle; lia].
    rewrite flush_new_segment, <- app_assoc.
    change (trim (x :: seg) :: List.map trim segs)
      with ([trim (x :: seg)] ++ List.map trim segs).
    rewrite List.filter_app. reflexivity.
Qed.

(** X4. With a limit of zero or less the chunker still returns: every
    accumulation overflows, so each segment of the delimiter split (the
    pieces of text and the delimiters, separately) becomes a section of its
    own, trimmed, blank segments being dropped. *)
Theorem splitTextIntoChunks_nonpositive text maxChars :
  maxChars <= 0 ->
  splitTextIntoChunks text maxChars
  = List.filter truthy (List.map trim (split_delims (cleanTextForTTS text))).
Proof.
  intros Hm. unfold splitTextIntoChunks.
  rewrite (fold_chunk_step_nonpositive maxChars _ Hm). reflexivity.
Qed.

Lemma splitTextIntoChunks_nonpositive_witness :
  0 <= 0 /\
  splitTextIntoChunks (lit "Hi there. Bye!") 0
  = [lit "Hi there"; lit "."; lit "Bye"; lit "!"].
Proof.
  split; [lia|].
  rewrite (splitTextIntoChunks_nonpositive (lit "Hi there. Bye!") 0) by lia.
  reflexivity.
Defined.

Lemma ws_erased_length a b : ws_erased a b -> (length a <= length b)%nat.
Proof. induction 1; simpl; lia. Qed.

Lemma fold_chunk_step_fits maxChars segs :
  forall cur,
  strlen cur + strlen (concat segs) <= maxChars ->
  fold_left (chunk_step maxChars) segs {| chunks := []; currentChunk := cur |}
  = {| chunks := []; currentChunk := cur ++ concat segs |}.
Proof.
  unfold strlen. induction segs as [|seg segs IH]; intros cur H.
  - simpl. rewrite app_nil_r. reflexivity.
  - cbn [fold_left concat] in *. rewrite length_app in H.
    destruct seg as [|x seg]; [apply IH; simpl in *; lia|].
    unfold chunk_step at 2. cbn [currentChunk chunks].
    cbn [truthy negb].
    destruct (Z.gtb_spec (Z.of_nat (length cur) + Z.of_nat (length (x :: seg)))
                         maxChars) as [Hgt|_]; [lia|].
    rewrite IH by (rewrite length_app; lia).
    rewrite <- app_assoc. reflexivity.
Qed.

(** X5. A text whose normalised form is not longer than the limit gives at
    most one section: the segments of the whole normalised text, joined and
    trimmed (nothing, when that is empty). *)
Theorem splitTextIntoChunks_fits text maxChars :
  strlen (cleanTextForTTS text) <= maxChars ->
  splitTextIntoChunks text maxChars
  = List.filter truthy [trim (concat (split_delims (cleanTextForTTS text)))].
Proof.
  intros H. unfold splitTextIntoChunks.
  rewrite fold_chunk_step_fits.
  - unfold flush. cbn [chunks currentChunk app List.filter].
    destruct (truthy (trim _)); reflexivity.
  - pose proof (ws_erased_length _ _
        (split_go_erased (cleanTextForTTS text) false [] ltac:(discriminate))) as L.
    unfold split_delims, strlen in *. simpl in *. lia.
Qed.

Lemma splitTextIntoChunks_fits_witness :
  strlen (cleanTextForTTS (lit "One. Two? Three!")) <= 3000 /\
  splitTextIntoChunks (lit "One. Two? Three!") 3000 = [lit "One.Two?Three!"].
Proof.
  assert (H : strlen (cleanTextForTTS (lit "One. Two? Three!")) <= 3000)
    by (vm_compute; discriminate).
  split; [exact H|].
  rewrite (splitTextIntoChunks_fits (lit "One. Two? Three!") 3000 H).
  reflexivity.
Defined.

(** ** Quantisation of any sample *)

Lemma quantised_high q : (1 <= q)%Q -> quantised q = 32767.
Proof.
  intros H. unfold quantised, intSample, Math_min, Math_max.
  apply Qle_bool_iff in H. rewrite H. reflexivity.
Qed.

Lemma quantised_low q : (q <= -1)%Q -> quantised q = -32768.
Proof.
  intros H. destruct q as [a b]. unfold Qle in H. cbn [Qnum Qden] in H.
  unfold quantised, intSample, Math_min, Math_max, num_neg, num_scale.
  destruct (Qle_bool 1 (a # b)) eqn:E1.
  { apply Qle_bool_iff in E1. unfold Qle in E1. cbn [Qnum Qden] in E1. lia. }
  destruct (Qle_bool (-1) (a # b)) eqn:E2; [|reflexivity].
  apply Qle_bool_iff in E2. unfold Qle in E2. cbn [Qnum Qden] in E2.
  assert (a = - Z.pos b) by lia. subst a.
  destruct (Qle_bool 0 (- Z.pos b # b)) eqn:E3.
  { apply Qle_bool_iff in E3. unfold Qle in E3. cbn [Qnum Qden] in E3. lia. }
  cbn [negb truncate Qmult inject_Z Qnum Qden]. rewrite Pos.mul_1_r.
  replace (- Z.pos b * 32768) with (-32768 * Z.pos b) by lia.
  apply Z.quot_mul. discriminate.
Qed.

Lemma quantised_bounds q : -32768 <= quantised q <= 32767.
Proof.
  destruct (Qlt_le_dec q 1) as [H1|H1]; [|rewrite quantised_high by exact H1; lia].
  destruct (Qlt_le_dec (-1) q) as [H2|H2]; [|rewrite quantised_low by exact H2; lia].
  apply quantised_range; apply Qlt_le_weak; assumption.
Qed.

Lemma quantised_monotone q1 q2 :
  (q1 <= q2)%Q -> quantised q1 <= quantised q2.
Proof.
  intros H.
  pose proof (quantised_bounds q1) as B1. pose proof (quantised_bounds q2) as B2.
  destruct (Qlt_le_dec q2 1) as [H2|H2];
    [|rewrite (quantised_high q2) by exact H2; lia].
  destruct (Qlt_le_dec (-1) q1) as [H1|H1];
    [|rewrite (quantised_low q1) by exact H1; lia].
  assert (L1 : (q1 <= 1)%Q) by (apply Qlt_le_weak, (Qle_lt_trans _ q2); assumption).
  assert (L2 : (-1 <= q2)%Q) by (apply Qlt_le_weak, (Qlt_le_trans _ q1); assumption).
  pose proof (quantised_cases q1 (Qlt_le_weak _ _ H1) L1) as C1.
  pose proof (quantised_cases q2 L2 (Qlt_le_weak _ _ H2)) as C2.
  cbv zeta in C1, C2.
  destruct q1 as [a1 b1], q2 as [a2 b2]. unfold Qle in H. cbn [Qnum Qden] in *.
  set (T1 := quantised (a1 # b1)) in *. set (T2 := quantised (a2 # b2)) in *.
  clearbody T1 T2.
  destruct (Z_lt_le_dec T2 T1) as [Hlt|]; [exfalso|assumption].
  assert (P : 0 < Z.pos b1 * Z.pos b2) by lia.
  assert (M : Z.pos b1 * Z.pos b2 * (T2 + 1) <= Z.pos b1 * Z.pos b2 * T1)
    by (apply Z.mul_le_mono_nonneg_l; lia).
  destruct C1 as [[A1 C1] | [A1 C1]], C2 as [[A2 C2] | [A2 C2]].
  - assert (Z.pos b2 * (Z.pos b1 * T1) <= Z.pos b2 * (a1 * 32767))
      by (apply Z.mul_le_mono_nonneg_l; lia).
    assert (Z.pos b1 * (a2 * 32767) < Z.pos b1 * (Z.pos b2 * T2 + Z.pos b2))
      by (apply Z.mul_lt_mono_pos_l; lia).
    lia.
  - assert (0 <= a1 * Z.pos b2) by (apply Z.mul_nonneg_nonneg; lia).
    assert (a2 * Z.pos b1 < 0) by (apply Z.mul_neg_pos; lia).
    lia.
  - assert (T1 <= 0) by nia. assert (0 <= T2) by nia. lia.
  - assert (Z.pos b2 * (Z.pos b1 * T1 - Z.pos b1) < Z.pos b2 * (a1 * 32768))
      by (apply Z.mul_lt_mono_pos_l; lia).
    assert (Z.pos b1 * (a2 * 32768) <= Z.pos b1 * (Z.pos b2 * T2))
      by (apply Z.mul_le_mono_nonneg_l; lia).
    lia.
Qed.

(** X6. The encoder saturates instead of wrapping around: every finite
    sample is stored as an integer of [-32768, 32767], a sample of 1 or more
    as 32767, a sample of -1 or less as -32768, a sample that is not a
    number as 0; and a larger sample is never stored as a smaller
    integer. *)
Theorem intSample_saturates :
  (forall q, -32768 <= quantised q <= 32767 /\
             stored_int16 (intSample (Fin q)) = quantised q) /\
  (forall q, (1 <= q)%Q -> quantised q = 32767) /\
  (forall q, (q <= -1)%Q -> quantised q = -32768) /\
  stored_int16 (intSample NaN) = 0 /\
  (forall q1 q2, (q1 <= q2)%Q -> quantised q1 <= quantised q2).
Proof.
  split; [|split; [exact quantised_high|split; [exact quantised_low|
            split; [reflexivity | exact quantised_monotone]]]].
  intros q. pose proof (quantised_bounds q) as B. split; [exact B|].
  unfold stored_int16. fold (quantised q). cbv zeta.
  destruct (Z_lt_le_dec (quantised q) 0).
  - replace (quantised q mod 65536) with (quantised q + 65536)
      by (apply Z.mod_unique with (q := -1); lia).
    destruct (Z.ltb_spec (quantised q + 65536) 32768); lia.
  - rewrite Z.mod_small by lia.
    destruct (Z.ltb_spec (quantised q) 32768); lia.
Qed.

Lemma intSample_saturates_witness :
  (1 <= 5 # 2)%Q /\ quantised (5 # 2) = 32767 /\
  (-7 # 3 <= -1)%Q /\ quantised (-7 # 3) = -32768 /\
  (1 # 3 <= 1 # 2)%Q /\ quantised (1 # 3) <= quantised (1 # 2).
Proof.
  assert (H1 : (1 <= 5 # 2)%Q) by (unfold Qle; simpl; lia).
  assert (H2 : (-7 # 3 <= -1)%Q) by (unfold Qle; simpl; lia).
  assert (H3 : (1 # 3 <= 1 # 2)%Q) by (unfold Qle; simpl; lia).
  split; [exact H1|]. split; [exact (proj1 (proj2 intSample_saturates) _ H1)|].
  split; [exact H2|].
  split; [exact (proj1 (proj2 (proj2 intSample_saturates)) _ H2)|].
  split; [exact H3|].
  exact (proj2 (proj2 (proj2 (proj2 intSample_saturates))) _ _ H3).
Defined.

(** ** The header of the container *)

Lemma getUint16_le16 pre v post off :
  length pre = off ->
  getUint16 (pre ++ le16 v ++ post) off = Some (v mod 65536).
Proof.
  intros <-. unfold getUint16.
  rewrite (lookup_app_r pre _ (length pre)) by lia. rewrite Nat.sub_diag.
  rewrite (lookup_app_r pre _ (S (length pre))) by lia.
  replace (S (length pre) - length pre)%nat with 1%nat by lia.
  cbn [le16 app lookup list_lookup mbind option_bind].
  f_equal. pose proof (Z.mod_pos_bound v 65536 ltac:(lia)).
  Z.div_mod_to_equations. lia.
Qed.

Lemma getUint32_le32 pre v post off :
  length pre = off ->
  getUint32 (pre ++ le32 v ++ post) off = Some (v mod 4294967296).
Proof.
  intros <-. unfold getUint32, getUint16.
  rewrite (lookup_app_r pre _ (length pre)) by lia. rewrite Nat.sub_diag.
  rewrite (lookup_app_r pre _ (S (length pre))) by lia.
  rewrite (lookup_app_r pre _ (S (S (length pre)))) by lia.
  rewrite (lookup_app_r pre _ (S (S (S (length pre))))) by lia.
  replace (S (length pre) - length pre)%nat with 1%nat by lia.
  replace (S (S (length pre)) - length pre)%nat with 2%nat by lia.
  replace (S (S (S (length pre))) - length pre)%nat with 3%nat by lia.
  cbn [le32 app lookup list_lookup mbind option_bind].
  f_equal. pose proof (Z.mod_pos_bound v 4294967296 ltac:(lia)).
  Z.div_mod_to_equations. lia.
Qed.

Lemma wav_header_fields (C : nat) rate byteRate (len : nat) body :
  let view := wav_header_with C rate byteRate len ++ body in
  getUint32 view 4 = Some (Z.of_nat (36 + len) mod 4294967296) /\
  getUint32 view 16 = Some 16 /\
  getUint16 view 20 = Some 1 /\
  getUint16 view 22 = Some (Z.of_nat C mod 65536) /\
  getUint32 view 24 = Some (rate mod 4294967296) /\
  getUint32 view 28 = Some (byteRate mod 4294967296) /\
  getUint16 view 32 = Some (Z.of_nat (C * 2) mod 65536) /\
  getUint16 view 34 = Some 16 /\
  getUint32 view 40 = Some (Z.of_nat len mod 4294967296).
Proof.
  intros view. unfold view, wav_header_with.
  repeat split; try reflexivity.
  - apply (getUint32_le32 (lit "RIFF")); reflexivity.
  - rewrite <- !app_assoc.
    rewrite (app_assoc (lit "RIFF")), (app_assoc (_ ++ _) (lit "WAVE")),
      (app_assoc (_ ++ _) (lit "fmt ")), (app_assoc (_ ++ _) (le32 16)),
      (app_assoc (_ ++ _) (le16 1)).
    apply getUint16_le16; reflexivity.
  - rewrite <- !app_assoc.
    rewrite (app_assoc (lit "RIFF")), (app_assoc (_ ++ _) (lit "WAVE")),
      (app_assoc (_ ++ _) (lit "fmt ")), (app_assoc (_ ++ _) (le32 16)),
      (app_assoc (_ ++ _) (le16 1)), (app_assoc (_ ++ _) (le16 (Z.of_nat C))).
    apply getUint32_le32; reflexivity.
  - rewrite <- !app_assoc.
    rewrite (app_assoc (lit "RIFF")), (app_assoc (_ ++ _) (lit "WAVE")),
      (app_assoc (_ ++ _) (lit "fmt ")), (app_assoc (_ ++ _) (le32 16)),
      (app_assoc (_ ++ _) (le16 1)), (app_assoc (_ ++ _) (le16 (Z.of_nat C))),
      (app_assoc (_ ++ _) (le32 rate)).
    apply getUint32_le32; reflexivity.
  - rewrite <- !app_assoc.
    rewrite (app_assoc (lit "RIFF")), (app_assoc (_ ++ _) (lit "WAVE")),
      (app_assoc (_ ++ _) (lit "fmt ")), (app_assoc (_ ++ _) (le32 16)),
      (app_assoc (_ ++ _) (le16 1)), (app_assoc (_ ++ _) (le16 (Z.of_nat C))),
      (app_assoc (_ ++ _) (le32 rate)),
      (app_assoc (_ ++ _) (le32 byteRate)).
    apply getUint16_le16; reflexivity.
  - rewrite <- !app_assoc.
    rewrite (app_assoc (lit "RIFF")), (app_assoc (_ ++ _) (lit "WAVE")),
      (app_assoc (_ ++ _) (lit "fmt ")), (app_assoc (_ ++ _) (le32 16)),
      (app_assoc (_ ++ _) (le16 1)), (app_assoc (_ ++ _) (le16 (Z.of_nat C))),
      (app_assoc (_ ++ _) (le32 rate)),
      (app_assoc (_ ++ _) (le32 byteRate)),
      (app_assoc (_ ++ _) (le16 (Z.of_nat (C * 2)))),
      (app_assoc (_ ++ _) (le16 16)), (app_assoc (_ ++ _) (lit "data")).
    apply getUint32_le32; reflexivity.
Qed.

(** X7. The header the encoder writes agrees with the blob it heads: the
    RIFF size field holds the length of the blob less 8, the data size field
    the length less 44, the format chunk announces 16 bytes of PCM (code 1)
    at 16 bits, the channel count is that of the buffer and the block
    alignment is two bytes per channel.  The rate field holds the integer
    part of the sample rate and the byte rate field the integer part of the
    rate times the block alignment: for an integral rate these are the rate
    and the rate times the block alignment, for a fractional one the two
    are rounded down separately (22050.5 Hz mono gives 22050 and 44101).
    This holds whenever the values fit the widths of their fields; no write
    fails. *)
Theorem audioBufferToWav_header :
  (forall buffer,
     wf_buffer buffer -> fields_fit buffer ->
     exists blob, audioBufferToWav buffer = Some blob /\
       getUint32 blob 4 = Some (Z.of_nat (length blob) - 8) /\
       getUint32 blob 40 = Some (Z.of_nat (length blob) - 44) /\
       getUint32 blob 16 = Some 16 /\
       getUint16 blob 20 = Some 1 /\
       getUint16 blob 34 = Some 16 /\
       getUint16 blob 22 = Some (Z.of_nat (numberOfChannels buffer)) /\
       getUint32 blob 24 = Some (ToInteger (sampleRate buffer)) /\
       getUint16 blob 32 = Some (Z.of_nat (numberOfChannels buffer) * 2) /\
       getUint32 blob 28
         = Some (ToInteger (sampleRate buffer
                            * inject_Z (Z.of_nat (numberOfChannels buffer * 2)))) /\
       forall r, sampleRate buffer = inject_Z r ->
         getUint32 blob 24 = Some r /\
         getUint32 blob 28
           = Some (r * (Z.of_nat (numberOfChannels buffer) * 2))) /\
  (exists blob, audioBufferToWav fractional_rate = Some blob /\
     getUint32 blob 24 = Some 22050 /\ getUint16 blob 32 = Some 2 /\
     getUint32 blob 28 = Some 44101).
Proof.
  split; [|eexists; split; [reflexivity|]; repeat split].
  intros buffer Hwf (HC & Hr & Hrate & Hlen).
  eexists. split; [apply audioBufferToWav_bytes, Hwf|].
  unfold header_of.
  set (C := numberOfChannels buffer) in *.
  set (len := (buf_length buffer * (C * 2))%nat) in *.
  set (rate := ToInteger (sampleRate buffer)).
  set (byteRate := ToInteger (sampleRate buffer * inject_Z (Z.of_nat (C * 2)))).
  assert (Br : 0 <= rate < 4294967296)
    by (apply ToInteger_bounds; apply Hr).
  assert (Bb : 0 <= byteRate < 4294967296).
  { apply ToInteger_bounds; [|exact Hrate].
    destruct Hr as [Hr0 _]. destruct (sampleRate buffer) as [a b].
    unfold Qle, Qmult, inject_Z in *. cbn [Qnum Qden] in *. nia. }
  destruct (wav_header_fields C rate byteRate len
              (flat_map sample_bytes (interleaved buffer)))
    as (F4 & F16 & F20 & F22 & F24 & F28 & F32 & F34 & F40).
  rewrite F4, F16, F20, F22, F24, F28, F32, F34, F40.
  rewrite length_app, flat_map_sample_bytes_length, interleaved_length.
  change (length (wav_header_with _ _ _ _)) with 44%nat. fold C.
  rewrite !Z.mod_small by lia.
  split; [f_equal; unfold len; lia|].
  split; [f_equal; unfold len; lia|].
  do 5 (split; [reflexivity|]).
  split; [f_equal; lia|]. split; [reflexivity|].
  intros r E. subst rate byteRate. rewrite E.
  rewrite ToInteger_inject_Z, ToInteger_inject_Z_mul.
  split; f_equal; lia.
Qed.

Lemma audioBufferToWav_header_witness :
  wf_buffer stereo_frames /\ fields_fit stereo_frames /\
  sampleRate stereo_frames = inject_Z 24000 /\
  exists blob, audioBufferToWav stereo_frames = Some blob /\
    getUint32 blob 4 = Some (Z.of_nat (length blob) - 8) /\
    getUint32 blob 40 = Some (Z.of_nat (length blob) - 44) /\
    getUint32 blob 24 = Some 24000 /\
    getUint32 blob 28 = Some (24000 * (Z.of_nat 2 * 2)).
Proof.
  assert (W : wf_buffer stereo_frames)
    by (split; [reflexivity | repeat constructor]).
  assert (F : fields_fit stereo_frames)
    by (unfold fields_fit, Qle, Qlt; cbn; lia).
  assert (R : sampleRate stereo_frames = inject_Z 24000) by reflexivity.
  split; [exact W|]. split; [exact F|]. split; [exact R|].
  destruct (proj1 audioBufferToWav_header stereo_frames W F)
    as (blob & E & H4 & H40 & _ & _ & _ & _ & _ & _ & _ & Hint).
  destruct (Hint 24000 R) as [H24 H28].
  exists blob. auto.
Defined.

(** ** The decoder on any payload *)

Lemma pair_ind {A : Type} (P : list A -> Prop) :
  P [] -> (forall x, P [x]) ->
  (forall x y l, P l -> P (x :: y :: l)) -> forall l, P l.
Proof.
  intros H0 H1 H2.
  assert (H : forall l, P l /\ forall x, P (x :: l)).
  { induction l as [|y l [IH1 IH2]]; split; auto. }
  intros l. apply H.
Qed.

Lemma Int16Array_length data :
  forall ints, Int16Array data = Some ints ->
  length data = (2 * length ints)%nat.
Proof.
  induction data as [|x|lo hi rest IH] using pair_ind; intros ints E;
    simpl in E.
  - injection E as <-. reflexivity.
  - discriminate.
  - destruct (Int16Array rest) as [r|]; [|discriminate].
    injection E as <-. simpl. rewrite (IH r eq_refl). lia.
Qed.

Lemma Int16Array_is_Some data :
  is_Some (Int16Array data) <-> Nat.Even (length data).
Proof.
  induction data as [|x|lo hi rest IH] using pair_ind.
  - split; intros _; [exists 0%nat; reflexivity | eexists; reflexivity].
  - split; intros H.
    + destruct H as [? H]. discriminate.
    + destruct H as [k H]. simpl in H. lia.
  - cbn [Int16Array length]. split; intros H.
    + destruct (Int16Array rest) as [r|] eqn:R;
        [|destruct H as [? H]; discriminate].
      destruct (proj1 IH (ex_intro _ r eq_refl)) as [k Hk].
      exists (S k). lia.
    + destruct H as [k Hk].
      destruct (proj2 IH) as [r R]; [exists (k - 1)%nat; lia|].
      rewrite R. eexists. reflexivity.
Qed.

Lemma Int16Array_lookup data :
  forall ints k m, Int16Array data = Some ints -> ints !! k = Some m ->
  exists lo hi,
    data !! (2 * k)%nat = Some lo /\ data !! (2 * k + 1)%nat = Some hi /\
    m = int16_of lo hi.
Proof.
  induction data as [|x|lo hi rest IH] using pair_ind; intros ints k m E Hk;
    simpl in E.
  - injection E as <-. discriminate.
  - discriminate.
  - destruct (Int16Array rest) as [r|]; [|discriminate].
    injection E as <-. destruct k as [|k].
    + injection Hk as <-. exists lo, hi. auto.
    + destruct (IH r k m eq_refl Hk) as (lo' & hi' & H1 & H2 & ->).
      exists lo', hi'.
      replace (2 * S k)%nat with (S (S (2 * k))) by lia.
      replace (S (S (2 * k)) + 1)%nat with (S (S (2 * k + 1))) by lia.
      auto.
Qed.

Lemma decodeAudioData_is_Some data rate numChannels :
  is_Some (decodeAudioData data rate numChannels) <->
  Nat.Even (length data) /\ (0 < numChannels <= length data / 2)%nat.
Proof.
  unfold decodeAudioData. split.
  - intros [b E].
    destruct (Int16Array data) as [ints|] eqn:I; [|discriminate].
    rewrite bind_Some in E. destruct (decide _) as [|Hn]; [discriminate|].
    split; [apply Int16Array_is_Some; rewrite I; eexists; reflexivity|].
    rewrite (Int16Array_length _ _ I).
    rewrite Nat.mul_comm, Nat.div_mul by discriminate.
    assert (numChannels <> 0 /\ length ints / numChannels <> 0)%nat as [H1 H2]
      by lia.
    split; [lia|].
    destruct (Nat.le_gt_cases numChannels (length ints)) as [|Hlt];
      [assumption|]. rewrite Nat.div_small in H2 by exact Hlt. lia.
  - intros [Heven [Hpos Hle]].
    destruct (proj2 (Int16Array_is_Some data) Heven) as [ints I].
    rewrite I, bind_Some.
    rewrite (Int16Array_length _ _ I) in Hle.
    rewrite Nat.mul_comm, Nat.div_mul in Hle by discriminate.
    destruct (decide _) as [[H|H]|Hn]; [lia| |eexists; reflexivity].
    exfalso. apply Nat.div_small_iff in H; lia.
Qed.

(** X8. For an integral rate and a channel count that every
    implementation of [createBuffer] accepts (8000 to 96000 Hz, at most 32
    channels; the program asks for 24000 Hz and one channel),
    [decodeAudioData] returns a buffer exactly when the payload has an
    even number of bytes and holds at least one 16-bit sample per channel
    (at least one channel); otherwise it throws.  The buffer has the
    requested channel count and rate and [bytes / 2 / channels] frames,
    rounded down, so a last incomplete frame is dropped; sample [i] of
    channel [c] is the little-endian signed 16-bit value at bytes
    [2 (i * channels + c)] and the next one, divided by 32768. *)
Theorem decodeAudioData_frames data rate numChannels :
  supported rate numChannels ->
  (is_Some (decodeAudioData data (inject_Z rate) numChannels) <->
     Nat.Even (length data) /\ (0 < numChannels <= length data / 2)%nat) /\
  forall b, decodeAudioData data (inject_Z rate) numChannels = Some b ->
    wf_buffer b /\ numberOfChannels b = numChannels /\
    sampleRate b = inject_Z rate /\
    buf_length b = (length data / 2 / numChannels)%nat /\
    forall i channel,
      (i < buf_length b)%nat -> (channel < numChannels)%nat ->
      exists samples lo hi,
        getChannelData b channel = Some samples /\
        data !! (2 * (i * numChannels + channel))%nat = Some lo /\
        data !! (2 * (i * numChannels + channel) + 1)%nat = Some hi /\
        samples !! i = Some (Fin (int16_of lo hi # 32768)).
Proof.
  intros _. split; [apply decodeAudioData_is_Some|].
  intros b E.
  destruct (decodeAudioData_inv _ _ _ _ E)
    as (ints & I & Hn & HC & Hrate & Hlen & _).
  split; [exact (decodeAudioData_wf _ _ _ _ E)|].
  split; [exact HC|]. split; [exact Hrate|].
  split.
  { rewrite Hlen, (Int16Array_length _ _ I).
    rewrite (Nat.mul_comm 2), Nat.div_mul by discriminate. reflexivity. }
  intros i channel Hi Hch.
  destruct (decodeAudioData_sample _ _ _ _ _ _ _ E I Hi Hch)
    as (m & samples & Hm & Hs & Hsi).
  destruct (Int16Array_lookup _ _ _ _ I Hm) as (lo & hi & H1 & H2 & ->).
  exists samples, lo, hi. auto.
Qed.

Lemma decodeAudioData_frames_witness :
  supported 24000 1 /\
  decodeAudioData pcm_bytes (inject_Z 24000) 1 = Some pcm_buffer /\
  wf_buffer pcm_buffer /\ buf_length pcm_buffer = (length pcm_bytes / 2 / 1)%nat.
Proof.
  assert (S : supported 24000 1) by (unfold supported; lia).
  assert (E : decodeAudioData pcm_bytes (inject_Z 24000) 1 = Some pcm_buffer)
    by reflexivity.
  split; [exact S|]. split; [exact E|].
  destruct (proj2 (decodeAudioData_frames pcm_bytes 24000 1 S) pcm_buffer E)
    as (W & _ & _ & L & _).
  split; [exact W | exact L].
Defined.

(** ** The blob of [generateTTS] *)

Lemma flat_map_singleton {A B : Type} (f : A -> B) (l : list A) :
  flat_map (fun x => [f x]) l = List.map f l.
Proof. induction l as [|x l IH]; simpl; congruence. Qed.

Lemma decodeAudioData_mono data rate b ints :
  decodeAudioData data rate 1 = Some b -> Int16Array data = Some ints ->
  buf_length b = length ints /\
  interleaved b = List.map (fun m => intSample (Fin (m # 32768))) ints.
Proof.
  intros E I.
  destruct (decodeAudioData_inv _ _ _ _ E)
    as (ints' & I' & _ & HC & _ & Hlen & Hch).
  rewrite I in I'. injection I' as <-.
  rewrite Nat.div_1_r in Hlen, Hch. split; [exact Hlen|].
  unfold interleaved, frame_samples, getChannelData.
  rewrite HC, Hch, Hlen. cbn [seq List.map lookup list_lookup default].
  rewrite (flat_map_singleton
             (fun i => intSample (sample_at _ i)) (seq 0 (length ints))).
  apply list_eq. intros i. rewrite !lookup_map.
  destruct (ints !! i) as [m|] eqn:Hm.
  - assert (Hi : (i < length ints)%nat) by (eapply lookup_lt_Some; exact Hm).
    rewrite lookup_seq_lt by exact Hi. cbn [fmap option_fmap option_map].
    unfold sample_at, id. rewrite lookup_map, lookup_seq_lt by exact Hi.
    cbn [fmap option_fmap option_map default from_option].
    match goal with |- context [ints !! ?k] => replace k with i by lia end.
    rewrite Hm. reflexivity.
  - assert (Hi : (length ints <= i)%nat) by (apply lookup_ge_None; exact Hm).
    rewrite lookup_seq_ge by exact Hi. reflexivity.
Qed.

Lemma sample_bytes_requantised m :
  -32768 <= m <= 32767 ->
  sample_bytes (intSample (Fin (m # 32768))) = le16 (requantised m).
Proof.
  intros Hm. unfold sample_bytes. fold (quantised (m # 32768)).
  rewrite (quantised_pcm (m # 32768) m Hm) by reflexivity. reflexivity.
Qed.

Lemma decode_bytes (atob : str -> outcome str) payload decodedData :
  decode atob payload = Returned decodedData ->
  exists bin, atob payload = Returned bin /\
    decodedData = List.map (fun c => c mod 256) bin /\
    Forall (fun b => 0 <= b < 256) decodedData.
Proof.
  unfold decode. destruct (atob payload) as [bin|e]; [|discriminate].
  cbn [obind]. intros E. injection E as <-. exists bin.
  split; [reflexivity|]. split; [reflexivity|].
  apply List.Forall_forall. intros b Hin.
  apply in_map_iff in Hin as (c & <- & _). apply Z.mod_pos_bound. lia.
Qed.

Section Synthesis.

Variable generateSpeech : str -> VoiceName -> outcome (option str).
Variable atob : str -> outcome str.
Variable createObjectURL : bytes -> str.

Lemma generateTTS_inv text voiceName blob url :
  generateTTS generateSpeech atob createObjectURL text voiceName
    = Returned (blob, url) ->
  exists payload bin ints,
    generateSpeech (textWithInstruction text) voiceName
      = Returned (Some payload) /\
    payload <> [] /\
    atob payload = Returned bin /\
    Int16Array (List.map (fun c => c mod 256) bin) = Some ints /\
    ints <> [] /\
    blob = wav_header 1 24000 (length bin)
           ++ flat_map (fun m => le16 (requantised m)) ints /\
    url = createObjectURL blob.
Proof.
  unfold generateTTS.
  destruct (generateSpeech _ _) as [[payload|]|e]; cbn [obind];
    try discriminate.
  destruct payload as [|c payload]; [discriminate|]. cbn [truthy negb].
  set (p := c :: payload).
  destruct (decode atob p) as [decodedData|e] eqn:D; cbn [obind];
    [|discriminate].
  destruct (decode_bytes _ _ _ D) as (bin & Hbin & Hdata & Hrange).
  destruct (decodeAudioData decodedData 24000 1) as [b|] eqn:E;
    cbn [or_throw obind]; [|discriminate].
  destruct (decodeAudioData_inv _ _ _ _ E)
    as (ints & I & _ & _ & Hrate & Hlen & _).
  destruct (decodeAudioData_mono _ _ _ _ E I) as [Hframes Hsamples].
  pose proof (decodeAudioData_wf _ _ _ _ E) as Hwf.
  destruct (decodeAudioData_inv _ _ _ _ E) as (_ & _ & _ & HC & _).
  rewrite (audioBufferToWav_bytes b Hwf). cbn [or_throw obind].
  rewrite (header_of_integral b 24000 Hrate).
  remember (wav_header _ _ _ ++ _) as wavBlob eqn:Hblob.
  intros R. injection R as <- <-. subst wavBlob.
  exists p, bin, ints. split; [reflexivity|]. split; [discriminate|].
  split; [exact Hbin|]. split; [rewrite <- Hdata; exact I|].
  split.
  { intros ->. unfold decodeAudioData in E. rewrite I, bind_Some in E.
    destruct (decide _) as [|Hn]; [discriminate|]. apply Hn. right.
    reflexivity. }
  split; [|reflexivity].
  rewrite HC, Hframes, Hsamples. f_equal.
  - f_equal. pose proof (Int16Array_length _ _ I) as L.
    rewrite Hdata, length_map in L. lia.
  - pose proof (Int16Array_range _ Hrange _ I) as R.
    clear -R. induction R as [|m l Hm _ IH]; [reflexivity|].
    cbn [List.map flat_map]. rewrite IH, sample_bytes_requantised by exact Hm.
    reflexivity.
Qed.

End Synthesis.

(** X9. What [generateTTS] returns is determined by the binary payload of
    the response: the blob is the 44-byte header of a mono 16-bit PCM
    stream at 24000 Hz followed by the samples of the payload, two bytes
    each, so it is 44 bytes longer than the payload; the URL is the one the
    browser gives for that blob.  The samples are not copied unchanged:
    a positive sample [m] is stored as [m - 1], a sample that is zero or
    negative as it is. *)
Theorem generateTTS_blob
    (generateSpeech : str -> VoiceName -> outcome (option str))
    (atob : str -> outcome str) (createObjectURL : bytes -> str)
    text voiceName blob url :
  generateTTS generateSpeech atob createObjectURL text voiceName
    = Returned (blob, url) ->
  exists payload bin ints,
    generateSpeech (textWithInstruction text) voiceName
      = Returned (Some payload) /\
    atob payload = Returned bin /\
    Int16Array (List.map (fun c => c mod 256) bin) = Some ints /\
    blob = wav_header 1 24000 (length bin)
           ++ flat_map (fun m => le16 (requantised m)) ints /\
    length blob = (44 + length bin)%nat /\
    url = createObjectURL blob.
Proof.
  intros E.
  destruct (generateTTS_inv _ _ _ _ _ _ _ E)
    as (payload & bin & ints & Hs & _ & Ha & I & _ & Hblob & Hurl).
  exists payload, bin, ints. repeat split; try assumption.
  rewrite Hblob, length_app. change (length (wav_header _ _ _)) with 44%nat.
  f_equal. pose proof (Int16Array_length _ _ I) as L.
  rewrite length_map in L. rewrite L. clear.
  induction ints as [|m l IH]; simpl in *; lia.
Qed.

Lemma generateTTS_blob_witness :
  generateTTS pcm_speech pcm_atob blob_url (lit "Hi") Puck
    = Returned (pcm_wav, lit "blob:1") /\
  length pcm_wav = (44 + length pcm_bytes)%nat.
Proof.
  assert (E : generateTTS pcm_speech pcm_atob blob_url (lit "Hi") Puck
              = Returned (pcm_wav, lit "blob:1")) by reflexivity.
  split; [exact E|].
  destruct (generateTTS_blob pcm_speech pcm_atob blob_url _ _ _ _ E)
    as (payload & bin & ints & _ & Ha & _ & _ & L & _).
  injection Ha as <-. exact L.
Defined.

(** X10. [generateTTS] returns exactly when the response carries a
    non-empty payload whose decoding has a positive, even number of bytes.
    A rejection of the service and a failure of [atob] are passed on as they
    are; a payload that decodes to no bytes or to an odd number of bytes
    makes it throw while building the audio buffer. *)
Theorem generateTTS_returns
    (generateSpeech : str -> VoiceName -> outcome (option str))
    (atob : str -> outcome str) (createObjectURL : bytes -> str)
    text voiceName :
  let request := textWithInstruction text in
  let result := generateTTS generateSpeech atob createObjectURL text voiceName in
  ((exists r, result = Returned r) <->
   exists payload bin,
     generateSpeech request voiceName = Returned (Some payload) /\
     payload <> [] /\ atob payload = Returned bin /\
     bin <> [] /\ Nat.Even (length bin)) /\
  (forall e, generateSpeech request voiceName = Thrown e ->
     result = Thrown e) /\
  (forall payload e,
     generateSpeech request voiceName = Returned (Some payload) ->
     payload <> [] -> atob payload = Thrown e -> result = Thrown e) /\
  (forall payload bin,
     generateSpeech request voiceName = Returned (Some payload) ->
     payload <> [] -> atob payload = Returned bin ->
     bin = [] \/ Nat.Odd (length bin) -> result = Thrown DecodeError).
Proof.
  intros request result. subst request result.
  split; [split|split; [|split]].
  - intros [[blob url] E].
    destruct (generateTTS_inv _ _ _ _ _ _ _ E)
      as (payload & bin & ints & Hs & Hp & Ha & I & Hn & _).
    exists payload, bin. repeat split; try assumption.
    + intros ->. simpl in I. injection I as <-. apply Hn. reflexivity.
    + pose proof (proj1 (Int16Array_is_Some _) (ex_intro _ ints I)) as Hev.
      rewrite length_map in Hev. exact Hev.
  - intros (payload & bin & Hs & Hp & Ha & Hb & Hev).
    unfold generateTTS. rewrite Hs. cbn [obind].
    destruct payload as [|c payload]; [congruence|]. cbn [truthy negb].
    unfold decode. rewrite Ha. cbn [obind].
    destruct (proj2 (decodeAudioData_is_Some
                       (List.map (fun c => c mod 256) bin) 24000 1))
      as [b E].
    { rewrite length_map. split; [exact Hev|].
      destruct Hev as [k Hk]. destruct bin as [|x [|y bin]]; [congruence| |].
      - simpl in Hk. lia.
      - split; [lia|]. change (1 <= S (S (length bin)) / 2)%nat.
        apply Nat.div_le_lower_bound; lia. }
    rewrite E. cbn [or_throw obind].
    rewrite (audioBufferToWav_bytes b (decodeAudioData_wf _ _ _ _ E)).
    eexists. reflexivity.
  - intros e Hs. unfold generateTTS. rewrite Hs. reflexivity.
  - intros payload e Hs Hp Ha. unfold generateTTS. rewrite Hs. cbn [obind].
    destruct payload as [|c payload]; [congruence|]. cbn [truthy negb].
    unfold decode. rewrite Ha. reflexivity.
  - intros payload bin Hs Hp Ha Hbad. unfold generateTTS. rewrite Hs.
    cbn [obind].
    destruct payload as [|c payload]; [congruence|]. cbn [truthy negb].
    unfold decode. rewrite Ha. cbn [obind].
    destruct (decodeAudioData (List.map (fun c => c mod 256) bin) 24000 1)
      as [b|] eqn:E; [|reflexivity].
    exfalso.
    destruct (proj1 (decodeAudioData_is_Some _ _ _) (ex_intro _ b E))
      as [Hev [_ Hle]].
    rewrite length_map in Hev, Hle.
    destruct Hbad as [-> | Hodd]; [simpl in Hle; lia|].
    destruct Hev as [k Hk], Hodd as [k' Hk']. lia.
Qed.

Lemma generateTTS_returns_witness :
  (forall e, pcm_speech (textWithInstruction (lit "Hi")) Puck = Thrown e ->
     generateTTS pcm_speech pcm_atob blob_url (lit "Hi") Puck = Thrown e) /\
  pcm_speech (textWithInstruction (lit "Hi")) Puck
    = Returned (Some (lit "/38AgAEA//8=")) /\
  lit "/38AgAEA//8=" <> [] /\
  (fun _ : str => Returned [255; 127; 0]) (lit "/38AgAEA//8=")
    = Returned [255; 127; 0] /\
  generateTTS pcm_speech (fun _ => Returned [255; 127; 0]) blob_url
    (lit "Hi") Puck = Thrown DecodeError.
Proof.
  split;
    [exact (proj1 (proj2 (generateTTS_returns pcm_speech pcm_atob blob_url
                            (lit "Hi") Puck)))|].
  assert (Hp : lit "/38AgAEA//8=" <> []) by discriminate.
  split; [reflexivity|]. split; [exact Hp|]. split; [reflexivity|].
  apply (proj2 (proj2 (proj2 (generateTTS_returns pcm_speech
            (fun _ => Returned [255; 127; 0]) blob_url (lit "Hi") Puck)))
           (lit "/38AgAEA//8=") [255; 127; 0] eq_refl Hp eq_refl).
  right. exists 1%nat. reflexivity.
Defined.

(** ** Every path of the section handler *)

Section Paths.

Import App.

Variable restructure : str -> outcome str.
Variable synthesise : str -> VoiceName -> outcome (bytes * str).

Lemma handleGenerateTTS_paths state chunkId autoPlayAfter chunk :
  List.find (fun c => bool_decide (id c = chunkId)) (chunks state)
    = Some chunk ->
  status chunk <> ready ->
  handleGenerateTTS restructure synthesise state chunkId autoPlayAfter
  = match restructure (content chunk) with
    | Thrown e =>
        ([SetState (map_chunk chunkId (with_status analyzing));
          ConsoleError e;
          SetState (map_chunk chunkId (with_status error))], Returned false)
    | Returned t =>
        match synthesise t (selectedVoice state) with
        | Thrown e =>
            ([SetState (map_chunk chunkId (with_status analyzing));
              SetState (map_chunk chunkId (with_content t generating));
              ConsoleError e;
              SetState (map_chunk chunkId (with_status error))],
             Returned false)
        | Returned result =>
            ([SetState (map_chunk chunkId (with_status analyzing));
              SetState (map_chunk chunkId (with_content t generating));
              SetState (map_chunk chunkId (with_audio ready (snd result)))]
             ++ (if autoPlayAfter
                 then [HandlePlay (snd result) chunkId] else []),
             Returned true)
        end
    end.
Proof.
  intros Hfind Hstatus. unfold handleGenerateTTS. rewrite Hfind.
  destruct (status chunk); try contradiction;
    destruct (restructure (content chunk)) as [t|e]; try reflexivity;
    cbn [try_catch bind perform await ret fst snd app];
    destruct (synthesise t (selectedVoice state)) as [result|e];
    try reflexivity; destruct autoPlayAfter; reflexivity.
Qed.

Lemma map_chunk_touches chunkId f prev :
  (forall c, id (f c) = id c /\ fileName (f c) = fileName c /\
             index (f c) = index c /\ progress (f c) = progress c) ->
  Forall2 (touches_only chunkId)
          (chunks prev) (chunks (map_chunk chunkId f prev)).
Proof.
  intros Hf. unfold map_chunk. cbn [chunks].
  induction (chunks prev) as [|c l IH]; simpl; constructor; [|exact IH].
  unfold touches_only.
  destruct (bool_decide (id c = chunkId)) eqn:E.
  - apply bool_decide_eq_true in E. destruct (Hf c) as (H1 & H2 & H3 & H4).
    repeat split; try assumption. intros Hne. contradiction.
  - repeat split; reflexivity.
Qed.

Lemma touches_only_refl chunkId l : Forall2 (touches_only chunkId) l l.
Proof.
  induction l as [|c l IH]; constructor; [|exact IH].
  repeat split; reflexivity.
Qed.

Lemma map_chunk_success chunkId t url prev :
  Forall2 (section_after_success chunkId t url)
    (chunks prev)
    (chunks (map_chunk chunkId
               (fun c => with_audio ready url
                           (with_content t generating
                              (with_status analyzing c))) prev)).
Proof.
  unfold map_chunk. cbn [chunks].
  induction (chunks prev) as [|c l IH]; simpl; constructor; [|exact IH].
  unfold section_after_success.
  destruct (bool_decide (id c = chunkId)); reflexivity.
Qed.

End Paths.

Section Generation.

Import App.

Lemma restructureTextWithAI_cases generateText text restructured :
  restructureTextWithAI generateText text = Returned restructured ->
  (text <> [] -> restructured <> []) /\
  (forall t, generateText (reflow_request ++ text) = Returned (Some t) ->
     t <> [] -> restructured = t) /\
  (generateText (reflow_request ++ text) = Returned None \/
   generateText (reflow_request ++ text) = Returned (Some []) ->
   restructured = text).
Proof.
  unfold restructureTextWithAI.
  destruct (generateText (reflow_request ++ text)) as [[t|]|e];
    cbn [obind]; [| |discriminate].
  - destruct t as [|c t]; cbn [truthy]; intros E; injection E as <-.
    + split; [auto|]. split; [|reflexivity].
      intros t E Ht. injection E as <-. contradiction.
    + split; [discriminate|]. split.
      * intros t' E _. injection E as <-. reflexivity.
      * intros [E|E]; discriminate.
  - intros E; injection E as <-. split; [auto|]. split; [|reflexivity].
    intros t E. discriminate.
Qed.

(** X11. When the reflow and the synthesis both succeed for a section that
    exists and is not ready, [handleGenerateTTS] returns [true]; its state
    updates, applied to whatever the state is, give the section of this id
    the reflowed text, the status [ready] and the address of the audio and
    leave every other section as it was; playback is requested exactly when
    [autoPlayAfter] is set, for this section and this address.  The
    reflowed text is the text of the response when there is one, and the
    section's own text otherwise, so a section that had text never ends up
    without. *)
Theorem generation_success
    (generateText : str -> outcome (option str))
    (synthesise : str -> VoiceName -> outcome (bytes * str))
    state chunkId autoPlayAfter chunk restructured blob url :
  List.find (fun c => bool_decide (id c = chunkId)) (chunks state)
    = Some chunk ->
  status chunk <> ready ->
  restructureTextWithAI generateText (content chunk) = Returned restructured ->
  synthesise restructured (selectedVoice state) = Returned (blob, url) ->
  let run := handleGenerateTTS (restructureTextWithAI generateText) synthesise
               state chunkId autoPlayAfter in
  snd run = Returned true /\
  (forall prev,
     Forall2 (section_after_success chunkId restructured url)
             (chunks prev) (chunks (run_effects (fst run) prev))) /\
  (forall u i, In (HandlePlay u i) (fst run) <->
               autoPlayAfter = true /\ u = url /\ i = chunkId) /\
  (content chunk <> [] -> restructured <> []) /\
  (forall t, generateText (reflow_request ++ content chunk)
               = Returned (Some t) -> t <> [] -> restructured = t).
Proof.
  intros Hfind Hstatus Hre Hsyn run. subst run.
  rewrite (handleGenerateTTS_paths _ _ _ _ _ _ Hfind Hstatus), Hre, Hsyn.
  cbn [fst snd].
  destruct (restructureTextWithAI_cases _ _ _ Hre) as (Hne & Hresp & _).
  split; [reflexivity|]. split; [|split; [|split; assumption]].
  - intros prev. unfold run_effects. rewrite fold_left_app.
    cbn [fold_left apply_effect].
    rewrite !map_chunk_compose by reflexivity.
    assert (E : forall s, chunks (fold_left apply_effect
                            (if autoPlayAfter
                             then [HandlePlay url chunkId] else []) s)
                          = chunks s)
      by (intros s; destruct autoPlayAfter; reflexivity).
    rewrite E. apply map_chunk_success.
  - intros u i. rewrite in_app_iff. split.
    + intros [H|H].
      * simpl in H. destruct H as [H|[H|[H|[]]]]; discriminate.
      * destruct autoPlayAfter; [|destruct H].
        destruct H as [H|[]]. injection H as <- <-. auto.
    + intros (-> & -> & ->). right. left. reflexivity.
Qed.

Lemma generation_success_witness :
  List.find (fun c => bool_decide (id c = lit "a")) (chunks demo_state)
    = Some demo_chunk /\
  status demo_chunk <> ready /\
  restructureTextWithAI (fun _ => Returned None) (content demo_chunk)
    = Returned (lit "One.") /\
  generateTTS pcm_speech pcm_atob blob_url (lit "One.")
    (selectedVoice demo_state) = Returned (pcm_wav, lit "blob:1") /\
  snd demo_success = Returned true /\
  Forall2 (section_after_success (lit "a") (lit "One.") (lit "blob:1"))
    (chunks demo_state) (chunks (run_effects (fst demo_success) demo_state)).
Proof.
  assert (F : List.find (fun c => bool_decide (id c = lit "a"))
                (chunks demo_state) = Some demo_chunk) by reflexivity.
  assert (S : status demo_chunk <> ready) by discriminate.
  assert (R : restructureTextWithAI (fun _ => Returned None)
                (content demo_chunk) = Returned (lit "One.")) by reflexivity.
  assert (T : generateTTS pcm_speech pcm_atob blob_url (lit "One.")
                (selectedVoice demo_state) = Returned (pcm_wav, lit "blob:1"))
    by reflexivity.
  split; [exact F|]. split; [exact S|]. split; [exact R|]. split; [exact T|].
  destruct (generation_success (fun _ => Returned None)
              (generateTTS pcm_speech pcm_atob blob_url)
              demo_state (lit "a") true demo_chunk (lit "One.") pcm_wav
              (lit "blob:1") F S R T) as (Hret & Hstate & _).
  split; [exact Hret | apply Hstate].
Defined.

Lemma handleGenerateTTS_skips state chunkId autoPlayAfter :
  let found := List.find (fun c => bool_decide (id c = chunkId))
                 (chunks state) in
  found = None \/ (exists chunk, found = Some chunk /\ status chunk = ready) ->
  exists es,
    (forall restructure synthesise,
       handleGenerateTTS restructure synthesise state chunkId autoPlayAfter
       = (es, Returned true)) /\
    (forall prev, run_effects es prev = prev) /\
    (autoPlayAfter = false -> es = []) /\
    (forall e, In e es -> exists url, e = HandlePlay url chunkId).
Proof.
  intros found H. subst found.
  destruct H as [Hfind | (chunk & Hfind & Hready)].
  - exists []. split; [|split; [|split]]; try reflexivity.
    + intros r s. unfold handleGenerateTTS. rewrite Hfind. reflexivity.
    + intros e [].
  - exists (match audioUrl chunk with
            | Some url =>
                if autoPlayAfter && truthy url
                then [HandlePlay url chunkId] else []
            | None => []
            end).
    split; [|split; [|split]].
    + intros r s. unfold handleGenerateTTS. rewrite Hfind, Hready.
      destruct (audioUrl chunk) as [url|]; [|reflexivity].
      destruct (autoPlayAfter && truthy url); reflexivity.
    + intros prev. destruct (audioUrl chunk) as [url|];
        [destruct (autoPlayAfter && truthy url)|]; reflexivity.
    + intros ->. destruct (audioUrl chunk); reflexivity.
    + intros e He. destruct (audioUrl chunk) as [url|]; [|destruct He].
      destruct (autoPlayAfter && truthy url); [|destruct He].
      destruct He as [<-|[]]. exists url. reflexivity.
Qed.

Lemma find_cases state chunkId :
  let found := List.find (fun c => bool_decide (id c = chunkId))
                 (chunks state) in
  (found = None \/ (exists chunk, found = Some chunk /\ status chunk = ready))
  \/ exists chunk, found = Some chunk /\ status chunk <> ready.
Proof.
  intros found. destruct found as [chunk|] eqn:Hfind; [|left; left; reflexivity].
  assert (status chunk = ready \/ status chunk <> ready) as [Hready|Hstatus]
    by (destruct (status chunk); auto; right; discriminate).
  - left. right. exists chunk. auto.
  - right. exists chunk. auto.
Qed.

Lemma handleGenerateTTS_total restructure synthesise state chunkId autoPlayAfter :
  exists ok,
    snd (handleGenerateTTS restructure synthesise state chunkId autoPlayAfter)
    = Returned ok.
Proof.
  destruct (find_cases state chunkId) as [H | (chunk & Hfind & Hstatus)].
  - destruct (handleGenerateTTS_skips state chunkId autoPlayAfter H)
      as (es & E & _). rewrite E. eexists. reflexivity.
  - rewrite (handleGenerateTTS_paths _ _ _ _ _ _ Hfind Hstatus).
    destruct (restructure (content chunk)) as [t|e];
      [destruct (synthesise t (selectedVoice state)) as [r|e]|];
      eexists; reflexivity.
Qed.

Lemma handleGenerateTTS_touches restructure synthesise state chunkId
    autoPlayAfter prev :
  Forall2 (touches_only chunkId) (chunks prev)
    (chunks (run_effects
               (fst (handleGenerateTTS restructure synthesise state chunkId
                       autoPlayAfter)) prev)).
Proof.
  destruct (find_cases state chunkId) as [H | (chunk & Hfind & Hstatus)].
  - destruct (handleGenerateTTS_skips state chunkId autoPlayAfter H)
      as (es & E & Hes & _). rewrite E. cbn [fst]. rewrite Hes.
    apply touches_only_refl.
  - rewrite (handleGenerateTTS_paths _ _ _ _ _ _ Hfind Hstatus).
    destruct (restructure (content chunk)) as [t|e];
      [destruct (synthesise t (selectedVoice state)) as [r|e]|];
      cbn [fst]; unfold run_effects; rewrite ?fold_left_app;
      cbn [fold_left apply_effect].
    + assert (E : forall s, chunks (fold_left apply_effect
                              (if autoPlayAfter
                               then [HandlePlay (snd r) chunkId] else []) s)
                            = chunks s)
        by (intros s; destruct autoPlayAfter; reflexivity).
      rewrite E, !map_chunk_compose by reflexivity.
      apply map_chunk_touches. intros c. repeat split; reflexivity.
    + rewrite !map_chunk_compose by reflexivity.
      apply map_chunk_touches. intros c. repeat split; reflexivity.
    + rewrite !map_chunk_compose by reflexivity.
      apply map_chunk_touches. intros c. repeat split; reflexivity.
Qed.

Lemma handleGenerateTTS_no_play restructure synthesise state chunkId u i :
  ~ In (HandlePlay u i)
       (fst (handleGenerateTTS restructure synthesise state chunkId false)).
Proof.
  destruct (find_cases state chunkId) as [H | (chunk & Hfind & Hstatus)].
  - destruct (handleGenerateTTS_skips state chunkId false H)
      as (es & E & _ & Hes & _). rewrite E, (Hes eq_refl). intros [].
  - rewrite (handleGenerateTTS_paths _ _ _ _ _ _ Hfind Hstatus).
    destruct (restructure (content chunk)) as [t|e];
      [destruct (synthesise t (selectedVoice state)) as [r|e]|];
      cbn [fst app In]; intuition discriminate.
Qed.

Lemma handleGenerateTTS_failed restructure synthesise state chunkId
    autoPlayAfter prev :
  snd (handleGenerateTTS restructure synthesise state chunkId autoPlayAfter)
    = Returned false ->
  Forall2 (section_after_failure chunkId) (chunks prev)
    (chunks (run_effects
               (fst (handleGenerateTTS restructure synthesise state chunkId
                       autoPlayAfter)) prev)).
Proof.
  destruct (find_cases state chunkId) as [H | (chunk & Hfind & Hstatus)].
  - destruct (handleGenerateTTS_skips state chunkId autoPlayAfter H)
      as (es & E & _). rewrite E. discriminate.
  - rewrite (handleGenerateTTS_paths _ _ _ _ _ _ Hfind Hstatus).
    destruct (restructure (content chunk)) as [t|e];
      [destruct (synthesise t (selectedVoice state)) as [r|e]|];
      cbn [fst snd]; intros Hfalse; try discriminate;
      unfold run_effects; cbn [fold_left apply_effect];
      rewrite !map_chunk_compose by reflexivity;
      apply map_chunk_failure; intros c; split; reflexivity.
Qed.

(** X12. Whatever the services do, [handleGenerateTTS] does not throw: it
    returns [true] or [false].  Its state updates keep the list of sections
    in place, with the id, file name, index and progress of every section,
    and change no section of another id.  When the section is missing or
    already [ready] the handler updates nothing and answers [true],
    whatever the services would have answered: at most it asks for the
    playback of this section, and only when [autoPlayAfter] is set.  The
    answer is [false] only after a failed service call, with the section
    left in status [error]. *)
Theorem handleGenerateTTS_frame
    (restructure : str -> outcome str)
    (synthesise : str -> VoiceName -> outcome (bytes * str))
    state chunkId autoPlayAfter :
  let run := handleGenerateTTS restructure synthesise
               state chunkId autoPlayAfter in
  let found := List.find (fun c => bool_decide (id c = chunkId))
                 (chunks state) in
  (exists ok, snd run = Returned ok) /\
  (forall prev,
     Forall2 (touches_only chunkId)
             (chunks prev) (chunks (run_effects (fst run) prev))) /\
  (found = None \/ (exists chunk, found = Some chunk /\ status chunk = ready) ->
   snd run = Returned true /\
   (forall e, In e (fst run) ->
      autoPlayAfter = true /\ exists url, e = HandlePlay url chunkId) /\
   forall restructure' synthesise',
     handleGenerateTTS restructure' synthesise' state chunkId autoPlayAfter
     = run) /\
  (snd run = Returned false ->
   forall prev,
     Forall2 (section_after_failure chunkId)
             (chunks prev) (chunks (run_effects (fst run) prev))).
Proof.
  intros run found. subst run found.
  split; [apply handleGenerateTTS_total|].
  split; [intros prev; apply handleGenerateTTS_touches|].
  split.
  - intros H.
    destruct (handleGenerateTTS_skips state chunkId autoPlayAfter H)
      as (es & E & _ & Hquiet & Hes).
    rewrite (E restructure synthesise). cbn [fst snd].
    split; [reflexivity|]. split; [|intros r s; apply E].
    intros e He. split; [|exact (Hes e He)].
    destruct autoPlayAfter; [reflexivity|].
    rewrite (Hquiet eq_refl) in He. destruct He.
  - intros Hfalse prev. apply handleGenerateTTS_failed. exact Hfalse.
Qed.

Lemma handleGenerateTTS_frame_witness :
  List.find (fun c => bool_decide (id c = lit "b")) (chunks demo_state)
    <> None /\
  snd (handleGenerateTTS (fun _ => Thrown DecodeError)
         (fun _ _ => Thrown DecodeError) demo_state (lit "b") true)
    = Returned true /\
  snd demo_run = Returned false /\
  Forall2 (section_after_failure (lit "a"))
    (chunks demo_state) (chunks (run_effects (fst demo_run) demo_state)).
Proof.
  split; [discriminate|].
  split.
  - apply (proj1 (proj2 (proj2 (handleGenerateTTS_frame
             (fun _ => Thrown DecodeError) (fun _ _ => Thrown DecodeError)
             demo_state (lit "b") true)))).
    right. eexists. split; reflexivity.
  - assert (F : snd demo_run = Returned false) by reflexivity.
    split; [exact F|].
    exact (proj2 (proj2 (proj2 (handleGenerateTTS_frame
             (restructureTextWithAI (fun _ => Returned None))
             (generateTTS silent_speech Returned (fun _ => []))
             demo_state (lit "a") true))) F demo_state).
Defined.

End Generation.

(** ** The pages of the section list *)

Section Pages.

Import App Component.

Lemma totalPages_value state :
  totalPages state = (Z.of_nat (length (chunks state)) + 9) / 10.
Proof.
  unfold totalPages, Qceiling, Qfloor, Qopp. cbn [Qnum Qden].
  Z.div_mod_to_equations. lia.
Qed.

Lemma slice_window {A : Type} (l : list A) (a : nat) :
  slice l (Z.of_nat a) (Z.of_nat a + 10) = take 10 (drop a l).
Proof.
  unfold slice.
  destruct (Z.ltb_spec (Z.of_nat a) 0) as [|_]; [lia|].
  destruct (Z.ltb_spec (Z.of_nat a + 10) 0) as [|_]; [lia|].
  destruct (Nat.le_gt_cases (length l) a) as [Hge|Hlt].
  - rewrite (Z.min_r (Z.of_nat a)) by lia. rewrite Nat2Z.id.
    rewrite (drop_ge l (length l)) by lia. rewrite (drop_ge l a) by lia.
    rewrite !take_nil. reflexivity.
  - rewrite (Z.min_l (Z.of_nat a)) by lia. rewrite Nat2Z.id.
    destruct (Z.le_ge_cases (Z.of_nat a + 10) (Z.of_nat (length l))).
    + rewrite (Z.min_l (Z.of_nat a + 10)) by lia. f_equal. lia.
    + rewrite (Z.min_r (Z.of_nat a + 10)) by lia.
      rewrite (take_ge (drop a l) 10) by (rewrite length_drop; lia).
      apply take_ge. rewrite length_drop. lia.
Qed.

Lemma currentItems_page state (p : nat) :
  currentItems (with_page (S p) state) = take 10 (drop (10 * p) (chunks state)).
Proof.
  unfold currentItems, ITEMS_PER_PAGE. cbn [with_page currentPage chunks].
  replace ((Z.of_nat (S p) - 1) * 10) with (Z.of_nat (10 * p)) by lia.
  apply slice_window.
Qed.

Lemma currentItems_page_zero state : currentItems (with_page 0 state) = [].
Proof.
  unfold currentItems, ITEMS_PER_PAGE, slice.
  cbn [with_page currentPage chunks].
  change ((Z.of_nat 0 - 1) * 10) with (-10). change (-10 + 10) with 0.
  change (-10 <? 0) with true. change (0 <? 0) with false. cbv iota.
  replace (Z.to_nat _) with 0%nat by lia. reflexivity.
Qed.

Lemma windows_concat {A : Type} (k : nat) :
  forall l : list A, (length l <= 10 * k)%nat ->
  concat (List.map (fun j => take 10 (drop (10 * j) l)) (seq 0 k)) = l.
Proof.
  induction k as [|k IH]; intros l Hl.
  - destruct l; [reflexivity | simpl in Hl; lia].
  - cbn [seq List.map concat]. rewrite <- seq_shift, List.map_map.
    rewrite (List.map_ext _ (fun j => take 10 (drop (10 * j) (drop 10 l)))).
    2:{ intros j. rewrite drop_drop. do 2 f_equal. lia. }
    rewrite IH by (rewrite length_drop; lia).
    change (10 * 0)%nat with 0%nat. rewrite drop_0. apply take_drop.
Qed.

(** X13. The pages partition the sections: page [p] for [p >= 1] shows the
    ten sections from position [10 (p - 1)] on (fewer at the end), the
    pages 1 to [totalPages] put one after the other are the whole list in
    order, each of them shows at least one section and at most ten, and
    page 0 and every page behind [totalPages] show nothing. *)
Theorem pages_partition state :
  let pages := Z.to_nat (totalPages state) in
  totalPages state = (Z.of_nat (length (chunks state)) + 9) / 10 /\
  concat (List.map (fun p => currentItems (with_page p state)) (seq 1 pages))
    = chunks state /\
  (forall p, (1 <= p <= pages)%nat ->
     currentItems (with_page p state) <> [] /\
     (length (currentItems (with_page p state)) <= 10)%nat) /\
  (forall p, (p = 0 \/ pages < p)%nat -> currentItems (with_page p state) = []).
Proof.
  intros pages. pose proof (totalPages_value state) as T.
  assert (Hp : (length (chunks state) <= 10 * pages)%nat
               /\ (10 * pages < length (chunks state) + 10)%nat).
  { subst pages. rewrite T. split.
    - apply Nat2Z.inj_le. rewrite Nat2Z.inj_mul, Z2Nat.id
        by (apply Z.div_pos; lia). Z.div_mod_to_equations. lia.
    - apply Nat2Z.inj_lt. rewrite Nat2Z.inj_add, Nat2Z.inj_mul, Z2Nat.id
        by (apply Z.div_pos; lia). Z.div_mod_to_equations. lia. }
  split; [exact T|]. split; [|split].
  - rewrite <- seq_shift, List.map_map.
    rewrite (List.map_ext _ (fun j => take 10 (drop (10 * j) (chunks state))))
      by (intros j; apply currentItems_page).
    apply windows_concat. lia.
  - intros [|p] [H1 H2]; [lia|]. rewrite currentItems_page. split.
    + intros E. apply (f_equal (@length _)) in E.
      rewrite length_take, length_drop in E. cbn [length] in E. lia.
    + rewrite length_take. lia.
  - intros [|p] [H|H]; try lia; try apply currentItems_page_zero.
    rewrite currentItems_page. rewrite drop_ge by lia. reflexivity.
Qed.

Lemma pages_partition_witness :
  (1 <= 1 <= Z.to_nat (totalPages demo_state))%nat /\
  currentItems (with_page 1 demo_state) <> [] /\
  (length (currentItems (with_page 1 demo_state)) <= 10)%nat /\
  currentItems (with_page 2 demo_state) = [].
Proof.
  assert (H : (1 <= 1 <= Z.to_nat (totalPages demo_state))%nat)
    by (vm_compute; lia).
  split; [exact H|].
  destruct (pages_partition demo_state) as (_ & _ & Hin & Hout).
  destruct (Hin 1%nat H) as [H1 H2].
  split; [exact H1|]. split; [exact H2|].
  apply Hout. right. vm_compute. lia.
Defined.

End Pages.

(** ** The page of the section that plays *)

Section Playing.

Import App Component.

Lemma findIndex_absent {A : Type} (pred : A -> bool) l :
  Forall (fun c => pred c = false) l -> findIndex pred l = -1.
Proof.
  induction 1 as [|c l Hc _ IH]; [reflexivity|].
  cbn [findIndex]. rewrite Hc, IH. reflexivity.
Qed.

Lemma findIndex_found {A : Type} (pred : A -> bool) l c :
  In c l -> pred c = true ->
  exists i c', findIndex pred l = Z.of_nat i /\ l !! i = Some c' /\
               pred c' = true /\
               forall j d, (j < i)%nat -> l !! j = Some d -> pred d = false.
Proof.
  induction l as [|x l IH]; intros Hin Hc; [destruct Hin|].
  cbn [findIndex]. destruct (pred x) eqn:Hx.
  - exists 0%nat, x. repeat split; auto. intros j d Hj. lia.
  - destruct Hin as [->|Hin]; [congruence|].
    destruct (IH Hin Hc) as (i & c' & E & Hi & Hp & Hfirst).
    exists (S i), c'. rewrite E.
    destruct (Z.ltb_spec (Z.of_nat i) 0); [lia|].
    split; [lia|]. split; [exact Hi|]. split; [exact Hp|].
    intros [|j] d Hj Hd.
    + injection Hd as <-. exact Hx.
    + apply (Hfirst j d); [lia | exact Hd].
Qed.

Lemma currentItems_ext a b :
  chunks a = chunks b -> currentPage a = currentPage b ->
  currentItems a = currentItems b.
Proof. unfold currentItems. intros -> ->. reflexivity. Qed.

Lemma handlePlay_state state paused activeChunkId url id' startTime :
  activeChunkId <> Some id' ->
  let after := run_actions (handlePlay state (Some paused) activeChunkId
                              url id' startTime) state in
  chunks after = chunks state /\
  Z.of_nat (currentPage after)
  = Z.max 0 (findIndex (fun c => bool_decide (id c = id')) (chunks state)
             / 10 + 1).
Proof.
  intros Hactive after. subst after. unfold handlePlay.
  rewrite bool_decide_eq_false_2 by exact Hactive.
  unfold run_actions. rewrite fold_left_app.
  cbn [fold_left apply_action].
  set (page := findIndex _ _ / ITEMS_PER_PAGE + 1).
  change (findIndex _ _ / 10 + 1) with page.
  destruct (Z.eqb_spec page (Z.of_nat (currentPage state))) as [E|E];
    cbn [negb fold_left apply_action apply_effect with_page chunks currentPage].
  - split; [reflexivity | lia].
  - split; [reflexivity | lia].
Qed.

(** X14. When [handlePlay] starts a section other than the active one, the
    list of sections stays as it is and the current page becomes the page of
    the first section with that id: a page between 1 and [totalPages] whose
    items hold that section.  For an id that no section has, the current
    page becomes 0, which shows nothing. *)
Theorem handlePlay_turns_page state paused activeChunkId url id' startTime :
  activeChunkId <> Some id' ->
  let after := run_actions (handlePlay state (Some paused) activeChunkId
                              url id' startTime) state in
  chunks after = chunks state /\
  ((exists c, In c (chunks state) /\ id c = id') ->
   1 <= Z.of_nat (currentPage after) <= totalPages after /\
   exists c, In c (currentItems after) /\ id c = id') /\
  ((forall c, In c (chunks state) -> id c <> id') ->
   currentPage after = 0%nat /\ currentItems after = []).
Proof.
  intros Hactive after.
  destruct (handlePlay_state state paused activeChunkId url id' startTime
              Hactive) as [Hchunks Hpage].
  fold after in Hchunks, Hpage.
  split; [exact Hchunks|]. split.
  - intros (c & Hin & Hid).
    destruct (findIndex_found (fun c => bool_decide (id c = id'))
                (chunks state) c Hin)
      as (i & c' & E & Hi & Hp & _);
      [apply bool_decide_eq_true; exact Hid|].
    apply bool_decide_eq_true in Hp.
    rewrite E in Hpage.
    assert (Hlt : (i < length (chunks state))%nat)
      by (eapply lookup_lt_Some; exact Hi).
    assert (Hcur : currentPage after = S (i / 10)).
    { apply Nat2Z.inj. rewrite Hpage, Nat2Z.inj_succ, Nat2Z.inj_div.
      change (Z.of_nat 10) with 10.
      pose proof (Z.div_pos (Z.of_nat i) 10). lia. }
    split.
    + rewrite totalPages_value, Hchunks, Hcur, Nat2Z.inj_succ, Nat2Z.inj_div.
      change (Z.of_nat 10) with 10. Z.div_mod_to_equations. lia.
    + exists c'. split; [|exact Hp].
      rewrite (currentItems_ext after (with_page (S (i / 10)) state))
        by (cbn [with_page chunks currentPage]; assumption).
      rewrite currentItems_page.
      apply list_elem_of_In, list_elem_of_lookup. exists (i mod 10)%nat.
      rewrite lookup_take.
      destruct (decide (i mod 10 < 10)%nat) as [_|Hn];
        [|exfalso; apply Hn, Nat.mod_upper_bound; discriminate].
      rewrite lookup_drop, <- Nat.div_mod_eq. exact Hi.
  - intros Hnone.
    rewrite findIndex_absent in Hpage.
    2:{ apply List.Forall_forall. intros c Hin.
        apply bool_decide_eq_false. apply Hnone, Hin. }
    change (Z.max 0 (-1 / 10 + 1)) with 0 in Hpage.
    assert (Hcur : currentPage after = 0%nat) by lia.
    split; [exact Hcur|].
    rewrite (currentItems_ext after (with_page 0 state))
      by (cbn [with_page chunks currentPage]; assumption).
    apply currentItems_page_zero.
Qed.

Lemma handlePlay_turns_page_witness :
  None <> Some (lit "b") /\
  (exists c, In c (chunks demo_state) /\ id c = lit "b") /\
  exists c,
    In c (currentItems
            (run_actions (handlePlay demo_state (Some true) None
                            (lit "blob:b") (lit "b") 0) demo_state)) /\
    id c = lit "b".
Proof.
  assert (H : @None str <> Some (lit "b")) by discriminate.
  assert (F : exists c, In c (chunks demo_state) /\ id c = lit "b")
    by (eexists; split; [right; left; reflexivity | reflexivity]).
  split; [exact H|]. split; [exact F|].
  exact (proj2 (proj1 (proj2 (handlePlay_turns_page demo_state true None
                  (lit "blob:b") (lit "b") 0 H)) F)).
Defined.

End Playing.

(** ** Uploading a file *)

Lemma cleanTextForTTS_no_text text :
  forallb no_text text = true -> cleanTextForTTS text = [].
Proof.
  intros H. unfold cleanTextForTTS.
  assert (B : blank (replace_class is_glyph 32
                       (remove_class is_control text))).
  { pose proof (proj1 (forallb_forall no_text text) H) as H'.
    apply (proj2 (List.Forall_forall _ _)) in H'. clear H. rename H' into H.
    induction H as [|c s Hc _ IH]; [constructor|].
    unfold remove_class, replace_class in IH |- *. unfold no_text in Hc.
    cbn [List.filter].
    destruct (is_control c) eqn:C; cbn [negb List.map]; [exact IH|].
    constructor; [|exact IH].
    destruct (is_glyph c); [reflexivity | exact Hc]. }
  set (t := replace_class is_glyph 32 (remove_class is_control text)) in *.
  rewrite (space_after_absent true dot t) by (apply blank_not; easy).
  rewrite (space_after_absent true qmark t) by (apply blank_not; easy).
  rewrite (space_after_absent true bang t) by (apply blank_not; easy).
  rewrite (space_after_absent false comma t) by (apply blank_not; easy).
  rewrite (collapse_runs_absent newline 3) by
    (first [discriminate
           | apply no_control_not; [reflexivity|];
             apply replace_class_no_control; [reflexivity|];
             apply remove_class_no_control]).
  rewrite (collapse_runs_absent bang 3) by (first [discriminate | apply blank_not; easy]).
  rewrite (collapse_runs_absent qmark 3) by (first [discriminate | apply blank_not; easy]).
  rewrite (collapse_runs_absent dot 4) by (first [discriminate | apply blank_not; easy]).
  rewrite (replace_class_none is_dquote) by
    (apply blank_no_class; [apply is_dquote_not_ws | exact B]).
  rewrite (replace_class_none is_squote) by
    (apply blank_no_class; [apply is_squote_not_ws | exact B]).
  apply trim_blank. exact B.
Qed.

Section Upload.

Import App Component.

Variable randomUUID : nat -> str.

Lemma newChunks_content name textChunks :
  List.map content (newChunks randomUUID name textChunks) = textChunks.
Proof.
  unfold newChunks. apply list_eq. intros i.
  rewrite lookup_map, list_lookup_imap.
  destruct (textChunks !! i); reflexivity.
Qed.

Lemma newChunks_lookup name textChunks i c :
  newChunks randomUUID name textChunks !! i = Some c ->
  exists t, textChunks !! i = Some t /\
    c = {| id := randomUUID i; content := t; status := pending;
           audioUrl := None; fileName := name; index := i;
           progress := Some 0%Q |}.
Proof.
  unfold newChunks. rewrite list_lookup_imap.
  destruct (textChunks !! i) as [t|]; [|discriminate].
  intros E. injection E as <-. exists t. auto.
Qed.

Lemma handleFileUpload_accepted name text prev :
  trim text <> [] ->
  run_actions (handleFileUpload randomUUID (Some (name, text))) prev
  = uploaded name
      (newChunks randomUUID name (splitTextIntoChunks text 3000)) prev /\
  forall message,
    In (SetError message) (handleFileUpload randomUUID (Some (name, text))) ->
    message = None.
Proof.
  intros Ht. unfold handleFileUpload.
  destruct (trim text) as [|c t] eqn:E; [contradiction|].
  cbn [truthy negb]. split; [reflexivity|].
  intros message Hin. simpl in Hin.
  destruct Hin as [H|[H|[H|[H|[H|[H|[H|[]]]]]]]]; try discriminate.
  injection H as <-. reflexivity.
Qed.

(** X15. Uploading a file whose text is not blank replaces the sections by
    those of [splitTextIntoChunks] at 3000 code units, in order: section [i]
    has index [i] and the [i]-th fresh id, is pending, without audio and
    without progress, carries the file name, is trimmed and not blank, and
    is longer than 3000 code units only when it is one sentence of that
    length.  The state is put on page 1 with no last played section; the
    voice, the playback rate and the auto-next flag are kept, and no error
    is reported.  A blank file only reports the error and leaves the state
    as it is, and so does a cancelled file dialog, without an error. *)
Theorem handleFileUpload_sections name text prev :
  let acts := handleFileUpload randomUUID (Some (name, text)) in
  let after := run_actions acts prev in
  (trim text <> [] ->
   List.map content (chunks after) = splitTextIntoChunks text 3000 /\
   Forall (fresh_section name text) (chunks after) /\
   (forall i c, chunks after !! i = Some c ->
      index c = i /\ id c = randomUUID i) /\
   originalFileName after = Some name /\ currentPage after = 1%nat /\
   lastPlayedChunkId after = None /\
   selectedVoice after = selectedVoice prev /\
   playbackRate after = playbackRate prev /\
   isAutoNext after = isAutoNext prev /\
   forall message, In (SetError message) acts -> message = None) /\
  (trim text = [] ->
   after = prev /\ In (SetError (Some empty_file_message)) acts) /\
  handleFileUpload randomUUID None = [].
Proof.
  intros acts after. split; [|split; [|reflexivity]].
  - intros Ht. subst acts after.
    destruct (handleFileUpload_accepted name text prev Ht) as [-> Herr].
    cbn [uploaded chunks originalFileName currentPage lastPlayedChunkId
         selectedVoice playbackRate isAutoNext].
    split; [apply newChunks_content|]. split; [|split].
    + apply List.Forall_forall. intros c Hin.
      apply list_elem_of_In, list_elem_of_lookup in Hin as [i Hi].
      destruct (newChunks_lookup _ _ _ _ Hi) as (t & Ht' & ->).
      assert (Hin : In t (splitTextIntoChunks text 3000))
        by (apply list_elem_of_In, list_elem_of_lookup; eexists; exact Ht').
      unfold fresh_section. cbn [status audioUrl fileName progress content].
      repeat split; try reflexivity.
      * pose proof (splitTextIntoChunks_sections_ok text 3000) as H.
        rewrite List.Forall_forall in H. apply (H t Hin).
      * pose proof (splitTextIntoChunks_sections_ok text 3000) as H.
        rewrite List.Forall_forall in H. apply (H t Hin).
      * pose proof (splitTextIntoChunks_sections_ok text 3000) as H.
        rewrite List.Forall_forall in H. apply (H t Hin).
      * pose proof (splitTextIntoChunks_sections_ok text 3000) as H.
        rewrite List.Forall_forall in H. apply (H t Hin).
      * pose proof (splitTextIntoChunks_sections_ok text 3000) as H.
        rewrite List.Forall_forall in H. apply (H t Hin).
      * pose proof (splitTextIntoChunks_bounded text 3000) as H.
        rewrite List.Forall_forall in H. apply (H t Hin).
    + intros i c Hi.
      destruct (newChunks_lookup _ _ _ _ Hi) as (t & _ & ->).
      split; reflexivity.
    + repeat split; try reflexivity. exact Herr.
  - intros Ht. subst acts after. unfold handleFileUpload. rewrite Ht.
    cbn [truthy negb]. split; [reflexivity|].
    simpl. auto.
Qed.

(** X16. A file that holds nothing but control characters, list glyphs and
    whitespace, but is not blank to [trim] (it holds a glyph, say), is
    accepted: no error is reported, the file name is recorded, and the
    state is left with no section at all. *)
Theorem handleFileUpload_no_sections name (text : str) prev :
  forallb no_text text = true -> trim text <> [] ->
  let acts := handleFileUpload randomUUID (Some (name, text)) in
  chunks (run_actions acts prev) = [] /\
  originalFileName (run_actions acts prev) = Some name /\
  forall message, In (SetError message) acts -> message = None.
Proof.
  intros Hno Ht acts. subst acts.
  destruct (handleFileUpload_accepted name text prev Ht) as [E Herr].
  rewrite E. cbn [uploaded chunks originalFileName].
  split; [|split; [reflexivity | exact Herr]].
  unfold splitTextIntoChunks.
  rewrite (cleanTextForTTS_no_text text Hno). reflexivity.
Qed.

End Upload.

Lemma handleFileUpload_sections_witness :
  trim (lit "One. Two.") <> [] /\
  List.map App.content
    (App.chunks
       (Component.run_actions
          (Component.handleFileUpload demo_uuid
             (Some (lit "a.txt", lit "One. Two."))) demo_state))
  = [lit "One.Two."] /\
  trim (lit "  ") = [] /\
  Component.run_actions
    (Component.handleFileUpload demo_uuid (Some (lit "a.txt", lit "  ")))
    demo_state = demo_state.
Proof.
  assert (H : trim (lit "One. Two.") <> []) by discriminate.
  assert (B : trim (lit "  ") = []) by reflexivity.
  split; [exact H|]. split; [|split; [exact B|]].
  - exact (proj1 (proj1 (handleFileUpload_sections demo_uuid
                            (lit "a.txt") (lit "One. Two.") demo_state) H)).
  - exact (proj1 (proj1 (proj2 (handleFileUpload_sections demo_uuid
                            (lit "a.txt") (lit "  ") demo_state)) B)).
Defined.

Lemma handleFileUpload_no_sections_witness :
  forallb no_text [8251; 10; 9679] = true /\ trim [8251; 10; 9679] <> [] /\
  App.chunks
    (Component.run_actions
       (Component.handleFileUpload demo_uuid
          (Some (lit "a.txt", [8251; 10; 9679]))) demo_state) = [].
Proof.
  assert (H : forallb no_text [8251; 10; 9679] = true) by reflexivity.
  assert (T : trim [8251; 10; 9679] <> []) by discriminate.
  split; [exact H|]. split; [exact T|].
  exact (proj1 (handleFileUpload_no_sections demo_uuid (lit "a.txt")
                  [8251; 10; 9679] demo_state H T)).
Defined.

(** ** The two loops of the component *)

Section Advancing.

Import App Component.

Variable restructure : str -> outcome str.
Variable synthesise : str -> VoiceName -> outcome (bytes * str).

Lemma run_actions_app acts acts' prev :
  run_actions (acts ++ acts') prev = run_actions acts' (run_actions acts prev).
Proof. unfold run_actions. apply fold_left_app. Qed.

Lemma run_actions_Do es prev :
  run_actions (List.map Do es) prev = run_effects es prev.
Proof.
  unfold run_actions, run_effects. revert prev.
  induction es as [|e es IH]; intros prev; [reflexivity|]. simpl. apply IH.
Qed.

Lemma touches_among_refl ids l : Forall2 (touches_among ids) l l.
Proof.
  induction l as [|c l IH]; constructor; [|exact IH].
  repeat split; reflexivity.
Qed.

Lemma touches_among_trans ids l1 l2 l3 :
  Forall2 (touches_among ids) l1 l2 -> Forall2 (touches_among ids) l2 l3 ->
  Forall2 (touches_among ids) l1 l3.
Proof.
  intros H. revert l3.
  induction H as [|a b l1 l2 Hab _ IH]; intros l3 H23;
    inversion H23 as [|? c ? l3' Hbc H23']; subst; constructor; [|auto].
  destruct Hab as (A1 & A2 & A3 & A4 & A5), Hbc as (B1 & B2 & B3 & B4 & B5).
  repeat split; try congruence.
  intros Hn. rewrite <- (A5 Hn). apply B5. rewrite (A5 Hn). exact Hn.
Qed.

Lemma touches_among_incl ids ids' l l' :
  (forall x, In x ids -> In x ids') ->
  Forall2 (touches_among ids) l l' -> Forall2 (touches_among ids') l l'.
Proof.
  intros Hincl. induction 1 as [|a b l l' Hab _ IH]; constructor; [|exact IH].
  destruct Hab as (A1 & A2 & A3 & A4 & A5). repeat split; try assumption.
  intros Hn. apply A5. intros Hin. apply Hn, Hincl, Hin.
Qed.

Lemma touches_only_among chunkId l l' :
  Forall2 (touches_only chunkId) l l' -> Forall2 (touches_among [chunkId]) l l'.
Proof.
  induction 1 as [|a b l l' Hab _ IH]; constructor; [|exact IH].
  destruct Hab as (A1 & A2 & A3 & A4 & A5). repeat split; try assumption.
  intros Hn. apply A5. intros E. apply Hn. left. symmetry. exact E.
Qed.

Lemma generate_each_spec state items :
  snd (generate_each restructure synthesise state items) = Returned tt /\
  (forall u i,
     ~ In (Do (HandlePlay u i))
          (fst (generate_each restructure synthesise state items))) /\
  forall prev,
    Forall2 (touches_among
               (List.map id (List.filter
                               (fun c => negb (is_ready (status c))) items)))
      (chunks prev)
      (chunks (run_actions
                 (fst (generate_each restructure synthesise state items))
                 prev)).
Proof.
  induction items as [|chunk rest (IH1 & IH2 & IH3)].
  - split; [reflexivity|]. split; [intros u i []|].
    intros prev. apply touches_among_refl.
  - cbn [generate_each List.filter].
    destruct (is_ready (status chunk)) eqn:R; cbn [negb];
      [split; [exact IH1|]; split; [exact IH2 | exact IH3]|].
    cbn [List.map].
    pose proof (handleGenerateTTS_total restructure synthesise state
                  (id chunk) false) as [ok Hok].
    pose proof (handleGenerateTTS_no_play restructure synthesise state
                  (id chunk)) as Hplay.
    pose proof (handleGenerateTTS_touches restructure synthesise state
                  (id chunk) false) as Htouch.
    destruct (handleGenerateTTS restructure synthesise state (id chunk) false)
      as [es success].
    cbn [fst snd] in Hok, Hplay, Htouch. subst success.
    assert (Hes : forall u i, ~ In (Do (HandlePlay u i)) (List.map Do es)).
    { intros u i Hin. apply in_map_iff in Hin as (e & E & Hin).
      injection E as ->. exact (Hplay u i Hin). }
    assert (Hfirst : forall prev,
               Forall2 (touches_among
                          (id chunk :: List.map id
                             (List.filter
                                (fun c => negb (is_ready (status c))) rest)))
                 (chunks prev) (chunks (run_actions (List.map Do es) prev))).
    { intros prev. rewrite run_actions_Do.
      apply (touches_among_incl [id chunk]);
        [intros x [<-|[]]; left; reflexivity|].
      apply touches_only_among, Htouch. }
    destruct ok.
    + destruct (generate_each restructure synthesise state rest)
        as [acts r]. cbn [fst snd] in *.
      split; [exact IH1|]. split.
      * intros u i Hin. apply in_app_iff in Hin as [Hin|[Hin|Hin]];
          [exact (Hes u i Hin) | discriminate | exact (IH2 u i Hin)].
      * intros prev. rewrite run_actions_app.
        apply (touches_among_trans _ _ _ _ (Hfirst prev)).
        change (run_actions (Delay 1000 :: acts) ?s) with (run_actions acts s).
        eapply touches_among_incl; [|apply IH3].
        intros x Hx. right. exact Hx.
    + cbn [fst snd]. split; [reflexivity|]. split; [exact Hes | exact Hfirst].
Qed.

Lemma generate_each_break state pre c post :
  is_ready (status c) = false ->
  snd (handleGenerateTTS restructure synthesise state (id c) false)
    = Returned false ->
  generate_each restructure synthesise state (pre ++ c :: post)
  = generate_each restructure synthesise state (pre ++ [c]).
Proof.
  intros R F. induction pre as [|x pre IH]; cbn [app generate_each].
  - rewrite R.
    destruct (handleGenerateTTS restructure synthesise state (id c) false)
      as [es success]. cbn [snd] in F. subst success. reflexivity.
  - destruct (is_ready (status x)); [exact IH|].
    destruct (handleGenerateTTS restructure synthesise state (id x) false)
      as [es [[|]|e]]; try reflexivity.
    rewrite IH. reflexivity.
Qed.

(** X17. [handleGenerateAllOnPage] does nothing while a run is under way.
    Otherwise it raises the busy flag first and lowers it last, whatever
    the services do; it requests no playback; it leaves every section alone
    that is not a section of the current page waiting to be generated, and
    keeps the id, file name, index and progress of all of them; and once
    the generation of a section fails, the sections behind it on the page
    are not attempted. *)
Theorem handleGenerateAllOnPage_contained state :
  let acts := handleGenerateAllOnPage restructure synthesise state false in
  handleGenerateAllOnPage restructure synthesise state true = [] /\
  head acts = Some (SetIsAutoGenerating true) /\
  last acts = Some (SetIsAutoGenerating false) /\
  (forall u i, ~ In (Do (HandlePlay u i)) acts) /\
  (forall prev,
     Forall2 (touches_among (page_targets state))
             (chunks prev) (chunks (run_actions acts prev))) /\
  (forall pre c post,
     currentItems state = pre ++ c :: post ->
     is_ready (status c) = false ->
     snd (handleGenerateTTS restructure synthesise state (id c) false)
       = Returned false ->
     acts = SetIsAutoGenerating true ::
            fst (generate_each restructure synthesise state (pre ++ [c]))
            ++ [SetIsAutoGenerating false]).
Proof.
  intros acts. subst acts. unfold handleGenerateAllOnPage.
  destruct (generate_each_spec state (currentItems state)) as (Hr & Hplay & Ht).
  split; [reflexivity|]. split; [reflexivity|].
  split; [|split; [|split]].
  - destruct (generate_each restructure synthesise state (currentItems state))
      as [acts r]. cbn [snd] in Hr. subst r.
    change (SetIsAutoGenerating true :: acts ++ [SetIsAutoGenerating false])
      with ((SetIsAutoGenerating true :: acts) ++ [SetIsAutoGenerating false]).
    apply last_snoc.
  - destruct (generate_each restructure synthesise state (currentItems state))
      as [acts r]. cbn [fst snd] in *. subst r.
    intros u i [Hin|Hin]; [discriminate|].
    apply in_app_iff in Hin as [Hin|[Hin|[]]];
      [exact (Hplay u i Hin) | discriminate].
  - intros prev.
    destruct (generate_each restructure synthesise state (currentItems state))
      as [acts r]. cbn [fst snd] in *. subst r.
    change (run_actions (SetIsAutoGenerating true :: ?a) prev)
      with (run_actions a prev).
    rewrite run_actions_app. apply Ht.
  - intros pre c post Hitems R F.
    rewrite Hitems, (generate_each_break state pre c post R F).
    pose proof (generate_each_spec state (pre ++ [c])) as (Hr' & _).
    destruct (generate_each restructure synthesise state (pre ++ [c]))
      as [acts r]. cbn [fst snd] in *. subst r. reflexivity.
Qed.

End Advancing.

Lemma handleGenerateAllOnPage_contained_witness :
  Component.currentItems demo_state
    = [] ++ demo_chunk :: List.tl (App.chunks demo_state) /\
  Component.is_ready (App.status demo_chunk) = false /\
  snd (App.handleGenerateTTS
         (restructureTextWithAI (fun _ => Returned None))
         (generateTTS silent_speech Returned (fun _ => []))
         demo_state (App.id demo_chunk) false) = Returned false /\
  Component.handleGenerateAllOnPage
    (restructureTextWithAI (fun _ => Returned None))
    (generateTTS silent_speech Returned (fun _ => [])) demo_state false
  = Component.SetIsAutoGenerating true ::
    fst (Component.generate_each
           (restructureTextWithAI (fun _ => Returned None))
           (generateTTS silent_speech Returned (fun _ => []))
           demo_state ([] ++ [demo_chunk]))
    ++ [Component.SetIsAutoGenerating false].
Proof.
  assert (I : Component.currentItems demo_state
              = [] ++ demo_chunk :: List.tl (App.chunks demo_state))
    by reflexivity.
  assert (R : Component.is_ready (App.status demo_chunk) = false)
    by reflexivity.
  assert (F : snd (App.handleGenerateTTS
                     (restructureTextWithAI (fun _ => Returned None))
                     (generateTTS silent_speech Returned (fun _ => []))
                     demo_state (App.id demo_chunk) false) = Returned false)
    by reflexivity.
  split; [exact I|]. split; [exact R|]. split; [exact F|].
  exact (proj2 (proj2 (proj2 (proj2 (proj2
           (handleGenerateAllOnPage_contained
              (restructureTextWithAI (fun _ => Returned None))
              (generateTTS silent_speech Returned (fun _ => []))
              demo_state)))))
           [] demo_chunk (List.tl (App.chunks demo_state)) I R F).
Defined.

Section Ending.

Import App Component.

Variable restructure : str -> outcome str.
Variable synthesise : str -> VoiceName -> outcome (bytes * str).






End Ending.

